(** * Finite-state automata: validator and Kleene synthesis

    A shallow embedding of the two programs of the repository,
    [assignment_1/A.py] (the FSA validator) and [assignment_2/A.py]
    (the FSA to regular expression translator), followed by the
    properties established about them.

    Python values are modelled as follows.
    - [str] is [string]; a character is an [ascii], read as a code point
      below 256.
    - [List[str]] is [list string]; a list updated by index is updated with
      stdpp's [<[i:=x]>] after an explicit bounds check.
    - [Dict[k, v]] is [gmap k v], [Set[str]] is [gset string].  A [gmap]
      forgets the insertion order of a Python dict; every loop over a dict in
      the sources only computes whether some key satisfies a test, which
      does not depend on the order.
    - A raised exception is a value [Raise e] of the result type [res]; a
      call that returns normally is [Ret v].
    - Mutable instance attributes are threaded explicitly: a method that
      mutates [self] returns the new instance.
    - The interpreter bounds the depth of recursion.  Every function that
      reaches a recursive traversal takes the number [limit] of nested calls
      of the traversal that the interpreter allows at that point; a call
      beyond it raises [RecursionError], which nothing catches. *)

From Stdlib Require Import Ascii String List Arith Lia ZArith.
From stdpp Require Import base option list sorting relations gmap sets strings.

(** ** Python primitives *)

Module Py.

(** The exceptions the two programs can raise.  [RecursionError] is what
    the interpreter raises when a call would nest deeper than it allows. *)
Inductive exn : Set :=
| AssertionError
| ValueError
| KeyError
| IndexError
| RecursionError.

Inductive res (A : Type) : Type :=
| Ret (a : A)
| Raise (e : exn).
Global Arguments Ret {A} a.
Global Arguments Raise {A} e.

Global Instance exn_eq_dec : EqDecision exn.
Proof. solve_decision. Defined.

Global Instance res_ret : MRet res := fun A a => Ret a.
Global Instance res_bind : MBind res := fun A B f m =>
  match m with
  | Ret a => f a
  | Raise e => Raise e
  end.

(** [assert c] *)
Definition assert (c : bool) : res unit :=
  if c then Ret tt else Raise AssertionError.

(** [for x in l: st = body(x, st)], stopping at the first exception. *)
Fixpoint for_each {A St : Type} (l : list A) (body : A -> St -> res St)
    (st : St) : res St :=
  match l with
  | [] => Ret st
  | x :: l' => st' ← body x st; for_each l' body st'
  end.

(** [range(n)] *)
Definition range (n : nat) : list nat := seq 0 n.

(** Truth value of a [str]: the empty string is false. *)
Definition truthy (s : string) : bool :=
  match s with
  | EmptyString => false
  | String _ _ => true
  end.

(** [l[i]] on a list, for [i >= 0]. *)
Definition getitem {A : Type} (l : list A) (i : nat) : res A :=
  match l !! i with
  | Some x => Ret x
  | None => Raise IndexError
  end.

(** [d[k]] on a dict. *)
Definition getkey `{Countable K} {A : Type} (d : gmap K A) (k : K) : res A :=
  match d !! k with
  | Some x => Ret x
  | None => Raise KeyError
  end.

(** [l[i] = x] on a list, for [i >= 0]. *)
Definition setitem {A : Type} (l : list A) (i : nat) (x : A) : res (list A) :=
  if decide (i < length l) then Ret (<[i:=x]> l) else Raise IndexError.

(** [s.split(sep)] for a one-character separator. *)
Fixpoint split (sep : ascii) (s : string) : list string :=
  match s with
  | EmptyString => [EmptyString]
  | String c s' =>
      if Ascii.eqb c sep then EmptyString :: split sep s'
      else match split sep s' with
           | [] => [String c EmptyString]
           | w :: ws => String c w :: ws
           end
  end.

(** [s1, a, s2 = el.split('>')] *)
Definition unpack3 (l : list string) : res (string * string * string) :=
  match l with
  | [s1; a; s2] => Ret (s1, a, s2)
  | _ => Raise ValueError
  end.

Definition split_trans (el : string) : res (string * string * string) :=
  unpack3 (split ">" el).

(** [sep.join(l)] *)
Definition join (sep : string) (l : list string) : string :=
  String.concat sep l.

(** [s.replace(c, '')] for a one-character [c]. *)
Fixpoint remove_char (c : ascii) (s : string) : string :=
  match s with
  | EmptyString => EmptyString
  | String d s' =>
      if Ascii.eqb d c then remove_char c s' else String d (remove_char c s')
  end.

Definition code (c : ascii) : nat := nat_of_ascii c.

Definition between (lo hi : nat) (c : ascii) : bool :=
  (lo <=? code c) && (code c <=? hi).

(** [c in string.ascii_letters] *)
Definition in_ascii_letters (c : ascii) : bool :=
  between 65 90 c || between 97 122 c.

(** [c.isdigit()]: the decimal digits and the superscripts 1, 2, 3. *)
Definition char_isdigit (c : ascii) : bool :=
  between 48 57 c || (code c =? 178) || (code c =? 179) || (code c =? 185).

(** [c.isalnum()] of the built-in [str]: letters and numeric characters. *)
Definition char_isalnum (c : ascii) : bool :=
  in_ascii_letters c || char_isdigit c
  || (code c =? 170) || (code c =? 181) || (code c =? 186)
  || between 188 190 c
  || between 192 214 c || between 216 246 c || between 248 255 c.

(** [c.isspace()] *)
Definition char_isspace (c : ascii) : bool :=
  between 9 13 c || between 28 32 c || (code c =? 133) || (code c =? 160).

Fixpoint string_forallb (p : ascii -> bool) (s : string) : bool :=
  match s with
  | EmptyString => true
  | String c s' => p c && string_forallb p s'
  end.

(** The built-in [s.isalnum()]: false on the empty string. *)
Definition str_isalnum (s : string) : bool :=
  truthy s && string_forallb char_isalnum s.

Fixpoint lstrip (s : string) : string :=
  match s with
  | EmptyString => EmptyString
  | String c s' => if char_isspace c then lstrip s' else s
  end.

Fixpoint rstrip (s : string) : string :=
  match s with
  | EmptyString => EmptyString
  | String c s' =>
      match rstrip s' with
      | EmptyString => if char_isspace c then EmptyString else String c EmptyString
      | r => String c r
      end
  end.

(** [s.strip()] *)
Definition strip (s : string) : string := rstrip (lstrip s).

(** [s.startswith(p)] *)
Definition startswith (s p : string) : bool := String.prefix p s.

(** [s.find(c)]: the index of the first [c], or [-1]. *)
Fixpoint find (c : ascii) (s : string) : Z :=
  match s with
  | EmptyString => (-1)%Z
  | String d s' =>
      if Ascii.eqb d c then 0%Z
      else let r := find c s' in if (r <? 0)%Z then (-1)%Z else (r + 1)%Z
  end.

Fixpoint string_drop (k : nat) (s : string) : string :=
  match k, s with
  | 0, _ => s
  | S k', String _ s' => string_drop k' s'
  | S _, EmptyString => EmptyString
  end.

Fixpoint string_take (k : nat) (s : string) : string :=
  match k, s with
  | S k', String c s' => String c (string_take k' s')
  | _, _ => EmptyString
  end.

(** [s[a:-1]] for [a >= 0]. *)
Definition slice_to_last (s : string) (a : Z) : string :=
  string_drop (Z.to_nat a) (string_take (String.length s - 1) s).

(** [sorted(l)] on strings.  Python compares strings by code points; the
    result is the sorted rearrangement of [l], which is unique because the
    order is total and antisymmetric (see [sorted_unique]). *)
Definition str_le (s t : string) : Prop := String.leb s t = true.
Global Instance str_le_dec s t : Decision (str_le s t).
Proof. unfold str_le. apply _. Defined.

Definition sorted (l : list string) : list string := merge_sort str_le l.

(** The line feed. *)
Definition nl : string := String (ascii_of_nat 10) EmptyString.

(** [c not in s] *)
Definition no_char (c : ascii) (s : string) : bool :=
  string_forallb (fun d => negb (Ascii.eqb d c)) s.

(** *** Notions used to state the properties *)

(** A transition token as the triple it splits into, when it does. *)
Definition triple_of (el : string) : option (string * string * string) :=
  match split_trans el with
  | Ret t => Some t
  | Raise _ => None
  end.

(** The triples of the transition tokens that split into three fields. *)
Definition triples (trans : list string) : list (string * string * string) :=
  omap triple_of trans.

(** Every transition token has the form [SRC>SYMBOL>DST]. *)
Definition well_formed (trans : list string) : Prop :=
  Forall (fun el => is_Some (triple_of el)) trans.

(** The first element of [l] that is not in [declared]. *)
Definition first_absent (declared l : list string) : option string :=
  List.find (fun el => bool_decide (el ∉ declared)) l.

(** The line of an input file for the field [name] with the items [xs]. *)
Definition render (name : string) (xs : list string) : string :=
  name +:+ "=[" +:+ join "," xs +:+ "]".

(** A list that a line can carry: no item contains a comma, and the list
    is not the single empty item (whose line reads as the empty list). *)
Definition plain (xs : list string) : Prop :=
  xs <> [""] /\ Forall (fun x => no_char "," x = true) xs.

End Py.

(** ** assignment_1/A.py: the validator *)

Module A1.
Import Py.

(** [check_lines] *)
Definition check_lines (lines : list string) : res unit :=
  _ ← assert (bool_decide (length lines = 5));
  l0 ← getitem lines 0; _ ← assert (startswith l0 "states=[");
  l1 ← getitem lines 1; _ ← assert (startswith l1 "alpha=[");
  l2 ← getitem lines 2; _ ← assert (startswith l2 "init.st=[");
  l3 ← getitem lines 3; _ ← assert (startswith l3 "fin.st=[");
  l4 ← getitem lines 4; assert (startswith l4 "trans=[").

(** [lines[i] = lines[i][lines[i].find('[') + 1: -1]] followed by
    [lines[i].split(',') if lines[i] else []]. *)
Definition items (line : string) : list string :=
  let inner := slice_to_last line (find "[" line + 1)%Z in
  if truthy inner then split "," inner else [].

(** [parse_lines] *)
Definition parse_lines (lines : list string)
    : res (list string * list string * list string * list string * list string) :=
  let lines := map strip lines in
  let lines := List.filter (fun x => 0 <? String.length x) lines in
  _ ← check_lines lines;
  l0 ← getitem lines 0;
  l1 ← getitem lines 1;
  l2 ← getitem lines 2;
  l3 ← getitem lines 3;
  l4 ← getitem lines 4;
  let states := items l0 in
  let alpha := items l1 in
  let init_st := items l2 in
  let fin_st := items l3 in
  let trans := items l4 in
  _ ← for_each states (fun el _ => assert (str_isalnum el)) tt;
  _ ← for_each alpha (fun el _ => assert (str_isalnum (remove_char "_" el))) tt;
  _ ← assert (negb (bool_decide (states = [])));
  _ ← assert (negb (bool_decide (alpha = [])));
  Ret (states, alpha, init_st, fin_st, trans).

(** The instance attributes of [FSA_validator]. *)
Record FSA_validator : Type := {
  states : list string;
  alpha : list string;
  init_st : list string;
  fin_st : list string;
  trans : list string;
  graph : gmap string (list (string * string));
  undirected_graph : gmap string (list (string * string))
}.

(** [FSA_validator.__init__] *)
Definition __init__ (states alpha init_st fin_st trans : list string)
    : FSA_validator :=
  {| states := states; alpha := alpha; init_st := init_st; fin_st := fin_st;
     trans := trans; graph := ∅; undirected_graph := ∅ |}.

(** The instance after [self.__graph] and [self.__undirected_graph] have
    been updated. *)
Definition set_graphs (self : FSA_validator)
    (g ug : gmap string (list (string * string))) : FSA_validator :=
  {| states := states self; alpha := alpha self; init_st := init_st self;
     fin_st := fin_st self; trans := trans self;
     graph := g; undirected_graph := ug |}.

(** [if k not in d: d[k] = []] *)
Definition ensure_key (k : string) (d : gmap string (list (string * string)))
    : gmap string (list (string * string)) :=
  if bool_decide (is_Some (d !! k)) then d else <[k:=[]]> d.

(** [d[k].append(x)] *)
Definition append_at (k : string) (x : string * string)
    (d : gmap string (list (string * string)))
    : res (gmap string (list (string * string))) :=
  l ← getkey d k; Ret (<[k:=l ++ [x]]> d).

(** [create_graphs]: the loop state is the pair of the two dicts. *)
Definition create_graphs (self : FSA_validator) : res FSA_validator :=
  '(g, ug) ← for_each (trans self) (fun el '(g, ug) =>
      '(s1, a, s2) ← split_trans el;
      if bool_decide (s1 ∉ states self) || bool_decide (s2 ∉ states self)
      then Ret (g, ug)
      else
        g ← append_at s1 (s2, a) (ensure_key s1 g);
        ug ← append_at s1 (s2, a) (ensure_key s1 ug);
        ug ← append_at s2 (s1, a) (ensure_key s2 ug);
        Ret (g, ug))
    (graph self, undirected_graph self);
  '(g, ug) ← for_each (states self) (fun el '(g, ug) =>
      Ret (ensure_key el g, ensure_key el ug)) (g, ug);
  Ret (set_graphs self g ug).

(** [check_E1] *)
Definition check_E1 (self : FSA_validator) : string :=
  match List.find (fun el => bool_decide (el ∉ states self)) (init_st self) with
  | Some el => el
  | None =>
      match List.find (fun el => bool_decide (el ∉ states self)) (fin_st self) with
      | Some el => el
      | None => ""
      end
  end.

(** [DFS]: [depth] is the number of nested calls of [DFS] that the
    interpreter still allows, this one included; without any left, the call
    raises [RecursionError]. *)
Fixpoint DFS (depth : nat) (self : FSA_validator) (u : string)
    (visited : gset string) (undirected : bool) : res (gset string) :=
  match depth with
  | 0 => Raise RecursionError
  | S depth' =>
      let visited := visited ∪ {[u]} in
      adj ← getkey (if undirected then undirected_graph self else graph self) u;
      for_each adj (fun v visited =>
          if bool_decide (v.1 ∉ visited)
          then DFS depth' self v.1 visited undirected
          else Ret visited)
        visited
  end.

(** A traversal enters a key of the graph at most once, so it never nests
    deeper than this (see [A1Facts.A1_DFS_depth]). *)
Definition DFS_depth (self : FSA_validator) (undirected : bool) : nat :=
  S (size (if undirected then undirected_graph self else graph self)).

(** [check_E2]; [limit] is the number of nested calls of [DFS] that the
    interpreter allows here. *)
Definition check_E2 (limit : nat) (self : FSA_validator) : res bool :=
  s0 ← getitem (states self) 0;
  visited ← DFS limit self s0 ∅ true;
  Ret (negb (size visited =? length (states self))).

(** [check_E3]: the first transition symbol outside the alphabet, or [""]. *)
Definition check_E3 (self : FSA_validator) : res string :=
  (fix loop (l : list string) : res string :=
     match l with
     | [] => Ret ""
     | el :: l' =>
         '(_, a, _) ← split_trans el;
         if bool_decide (a ∉ alpha self) then Ret a else loop l'
     end) (trans self).

(** [check_E4] *)
Definition check_E4 (self : FSA_validator) : bool :=
  length (init_st self) =? 0.

(** [check_W1] *)
Definition check_W1 (self : FSA_validator) : bool :=
  length (fin_st self) =? 0.

(** [check_W2]; [limit] as in [check_E2]: the two checks are called from
    the same frame. *)
Definition check_W2 (limit : nat) (self : FSA_validator) : res bool :=
  i0 ← getitem (init_st self) 0;
  visited ← DFS limit self i0 ∅ false;
  Ret (negb (size visited =? length (states self))).

(** [check_W3] *)
Definition check_W3 (self : FSA_validator) : bool :=
  existsb (fun '(u, adj) =>
      let lst := adj.*2 in
      existsb (fun el => 1 <? count_occ string_dec lst el) (alpha self))
    (map_to_list (graph self)).

(** The completeness loop at the end of [validate]. *)
Definition completion (self : FSA_validator) : string :=
  if existsb (fun '(u, adj) =>
         size (list_to_set (C:=gset string) (adj.*2)) <? length (alpha self))
       (map_to_list (graph self))
  then "FSA is incomplete"
  else "FSA is complete".

(** [validate]: returns the triple of the source together with the
    instance as the call leaves it; [limit] is the depth of traversal that
    the interpreter allows. *)
Definition validate (limit : nat) (self : FSA_validator)
    : res ((string * string * list string) * FSA_validator) :=
  let faulty_state := check_E1 self in
  if truthy faulty_state
  then Ret (("E1: A state '" +:+ faulty_state +:+ "' is not in the set of states",
             "", []), self)
  else
    self ← create_graphs self;
    e2 ← check_E2 limit self;
    if e2 : bool then Ret (("E2: Some states are disjoint", "", []), self)
    else
      faulty_alpha ← check_E3 self;
      if truthy faulty_alpha
      then Ret (("E3: A transition '" +:+ faulty_alpha
                   +:+ "' is not represented in the alphabet", "", []), self)
      else if check_E4 self
      then Ret (("E4: Initial state is not defined", "", []), self)
      else
        let warnings : list string := [] in
        let warnings :=
          if check_W1 self
          then warnings ++ ["W1: Accepting state is not defined"]
          else warnings in
        w2 ← check_W2 limit self;
        let warnings :=
          if w2 : bool
          then warnings ++ ["W2: Some states are not reachable from the initial state"]
          else warnings in
        let warnings :=
          if check_W3 self
          then warnings ++ ["W3: FSA is nondeterministic"]
          else warnings in
        Ret (("", completion self, warnings), self).

(** The triple [validate] returns, as [main] reads it. *)
Definition validate_result (limit : nat) (self : FSA_validator)
    : res (string * string * list string) :=
  r ← validate limit self; Ret r.1.

(** [main]: the argument is the content of [fsa.txt] as [readlines] returns
    it, the result is the text written to [result.txt]; an exception that
    [main] does not catch is a [Raise]; [limit] is the depth of traversal
    that the interpreter allows in the call of [validate]. *)
Definition main (limit : nat) (fsa_txt : list string) : res string :=
  match parse_lines fsa_txt with
  | Raise AssertionError => Ret ("Error:" +:+ nl +:+ "E5: Input file is malformed" +:+ nl)
  | Raise e => Raise e
  | Ret (states, alpha, init_st, fin_st, trans) =>
      let validator := __init__ states alpha init_st fin_st trans in
      '((error, completion, warnings), _) ← validate limit validator;
      if truthy error
      then Ret ("Error:" +:+ nl +:+ error +:+ nl)
      else
        Ret (completion +:+ nl +:+
             (match warnings with
              | [] => ""
              | _ => "Warning:" +:+ nl
                     +:+ String.concat "" (map (fun warn => warn +:+ nl) warnings)
              end))
  end.

(** *** Notions used to state the properties *)

(** A triple whose two states are declared: the lenient policy keeps
    exactly these. *)
Definition declared (sts : list string) (t : string * string * string) : Prop :=
  t.1.1 ∈ sts /\ t.2 ∈ sts.

Global Instance declared_dec sts t : Decision (declared sts t).
Proof. unfold declared. apply _. Defined.

(** The edges of the automaton: the well-formed transitions between
    declared states, in the order of [trans]. *)
Definition edges (self : FSA_validator) : list (string * string * string) :=
  base.filter (declared (states self)) (triples (trans self)).

(** What [create_graphs] stores under [s] in the directed graph. *)
Definition adj_of (E : list (string * string * string)) (s : string)
    : list (string * string) :=
  flat_map (fun '(s1, a, s2) =>
      if decide (s1 = s) then [(s2, a)] else []) E.

(** What [create_graphs] stores under [s] in the undirected graph. *)
Definition uadj_of (E : list (string * string * string)) (s : string)
    : list (string * string) :=
  flat_map (fun '(s1, a, s2) =>
      (if decide (s1 = s) then [(s2, a)] else [])
      ++ (if decide (s2 = s) then [(s1, a)] else [])) E.

(** Two states joined by an edge, in either direction. *)
Definition linked (self : FSA_validator) (s t : string) : Prop :=
  exists a, (s, a, t) ∈ edges self \/ (t, a, s) ∈ edges self.

(** The undirected graph has more than one connected component. *)
Definition disjoint_states (self : FSA_validator) : Prop :=
  exists s t, s ∈ states self /\ t ∈ states self /\ ~ rtc (linked self) s t.

(** The symbols on the edges that leave [s]. *)
Definition out_symbols (self : FSA_validator) (s : string) : list string :=
  (adj_of (edges self) s).*2.

(** Every state has an outgoing edge for exactly the symbols of the
    alphabet. *)
Definition covers_alphabet (self : FSA_validator) : Prop :=
  forall s, s ∈ states self ->
  forall a, a ∈ out_symbols self s <-> a ∈ alpha self.

(** The instance built from the same tokens without the [i]-th transition. *)
Definition remove_trans (i : nat) (self : FSA_validator) : FSA_validator :=
  __init__ (states self) (alpha self) (init_st self) (fin_st self)
    (delete i (trans self)).

(** *** Notions used in the proofs *)

(** An arc of a graph dict: [y] occurs in the list stored under [x]. *)
Definition arc (g : gmap string (list (string * string))) (x y : string) : Prop :=
  exists adj a, g !! x = Some adj /\ (y, a) ∈ adj.

(** The graph that a call of [DFS] walks. *)
Definition graph_of (self : FSA_validator) (undirected : bool)
    : gmap string (list (string * string)) :=
  if undirected then undirected_graph self else graph self.

(** What a call of [DFS] that starts outside [visited] with enough depth
    answers: the set it returns extends [visited] with [u] and adds only
    nodes reachable from [u]; the only exception is the [KeyError] of a
    reachable node that is not a key. *)
Definition DFS_post (g : gmap string (list (string * string))) (u : string)
    (visited : gset string) (r : res (gset string)) : Prop :=
  match r with
  | Ret visited' =>
      visited ∪ {[u]} ⊆ visited'
      /\ forall x, x ∈ visited' -> x ∈ visited \/ rtc (arc g) u x
  | Raise e => e = KeyError /\ exists x, rtc (arc g) u x /\ g !! x = None
  end.

(** [Some l] for a non-empty list, [None] for the empty one. *)
Definition some_if_nonempty {A : Type} (l : list A) : option (list A) :=
  match l with
  | [] => None
  | _ :: _ => Some l
  end.

(** The state of the first loop of [create_graphs] after the declared
    triples [E] have been entered. *)
Definition built (E : list (string * string * string))
    (g ug : gmap string (list (string * string))) : Prop :=
  forall s, g !! s = some_if_nonempty (adj_of E s)
            /\ ug !! s = some_if_nonempty (uadj_of E s).

(** The dict [g] is [g0] with the list [add s] appended under every key
    [s] for which [add s] is not empty. *)
Definition extended (g0 : gmap string (list (string * string)))
    (add : string -> list (string * string))
    (g : gmap string (list (string * string))) : Prop :=
  forall s, g !! s = match add s with
                     | [] => g0 !! s
                     | _ :: _ => Some (default [] (g0 !! s) ++ add s)
                     end.

(** *** Further notions: reachability, the input file *)

(** A directed edge from [x] to [y]. *)
Definition edge_to (self : FSA_validator) (x y : string) : Prop :=
  exists a, (x, a, y) ∈ edges self.

(** Every declared state is linked to [s0] in the undirected graph. *)
Definition all_linked (self : FSA_validator) (s0 : string) : Prop :=
  forall s, s ∈ states self -> rtc (linked self) s0 s.

(** Some declared state has two outgoing edges with one symbol of the
    alphabet. *)
Definition two_edges_one_symbol (self : FSA_validator) : Prop :=
  exists s a, s ∈ states self /\ a ∈ alpha self
    /\ 1 < count_occ string_dec (out_symbols self s) a.

(** The relation a traversal follows, on state names. *)
Definition step (self : FSA_validator) (undirected : bool) : relation string :=
  if undirected then linked self else edge_to self.

(** The content of [fsa.txt] for the five lists, as [readlines] returns
    it. *)
Definition fsa_txt (sts al ini fin tr : list string) : list string :=
  map (fun l => l +:+ nl)
    [render "states" sts; render "alpha" al; render "init.st" ini;
     render "fin.st" fin; render "trans" tr].

End A1.

(** ** assignment_2/A.py: the translator to regular expressions *)

Module A2.
Import Py.

(** [isalnum]: only Latin letters and digits; true on the empty string. *)
Definition isalnum (s : string) : bool :=
  string_forallb (fun el => negb (negb (char_isdigit el) && negb (in_ascii_letters el))) s.

(** [check_lines] *)
Definition check_lines (lines : list string) : res unit :=
  _ ← assert (bool_decide (length lines = 5));
  l0 ← getitem lines 0; _ ← assert (startswith l0 "states=[");
  l1 ← getitem lines 1; _ ← assert (startswith l1 "alpha=[");
  l2 ← getitem lines 2; _ ← assert (startswith l2 "initial=[");
  l3 ← getitem lines 3; _ ← assert (startswith l3 "accepting=[");
  l4 ← getitem lines 4; assert (startswith l4 "trans=[").

(** [lines[i] = lines[i][lines[i].find('[') + 1: -1]] followed by
    [lines[i].split(',') if lines[i] else []]. *)
Definition items (line : string) : list string :=
  let inner := slice_to_last line (find "[" line + 1)%Z in
  if truthy inner then split "," inner else [].

(** [parse_lines] *)
Definition parse_lines (lines : list string)
    : res (list string * list string * list string * list string * list string) :=
  let lines := map strip lines in
  _ ← check_lines lines;
  l0 ← getitem lines 0;
  l1 ← getitem lines 1;
  l2 ← getitem lines 2;
  l3 ← getitem lines 3;
  l4 ← getitem lines 4;
  let states := items l0 in
  let alpha := items l1 in
  let initial := items l2 in
  let accepting := items l3 in
  let trans := items l4 in
  _ ← for_each states (fun el _ => assert (isalnum el)) tt;
  _ ← for_each alpha (fun el _ => assert (isalnum (remove_char "_" el))) tt;
  _ ← assert (negb (bool_decide (states = [])));
  _ ← assert (negb (bool_decide (alpha = [])));
  _ ← assert (length initial <=? 1);
  Ret (states, alpha, initial, accepting, trans).

(** The instance attributes of [FSA]. *)
Record FSA : Type := {
  states : list string;
  alpha : list string;
  initial : list string;
  accepting : list string;
  trans : list string;
  n : nat;
  state2id : gmap string nat;
  id2state : gmap nat string;
  graph : list (list (list string));
  undirected_graph : list (list (list string))
}.

(** [{states[i]: i for i in range(n)}]: a later index overwrites an earlier
    one of the same name. *)
Definition make_state2id (states : list string) (n : nat) : res (gmap string nat) :=
  for_each (range n) (fun i d => s ← getitem states i; Ret (<[s:=i]> d)) ∅.

(** [{i: states[i] for i in range(n)}] *)
Definition make_id2state (states : list string) (n : nat) : res (gmap nat string) :=
  for_each (range n) (fun i d => s ← getitem states i; Ret (<[i:=s]> d)) ∅.

(** [[[[] for _ in range(n)] for _ in range(n)]] *)
Definition empty_graph (n : nat) : list (list (list string)) :=
  replicate n (replicate n []).

(** [R[i][j]] on a list of lists. *)
Definition get2 {A : Type} (R : list (list A)) (i j : nat) : res A :=
  row ← getitem R i; getitem row j.

(** [R[i][j] = x] on a list of lists. *)
Definition set2 {A : Type} (R : list (list A)) (i j : nat) (x : A)
    : res (list (list A)) :=
  row ← getitem R i;
  row ← setitem row j x;
  setitem R i row.

(** [g[i][j].append(a)] *)
Definition append_cell (g : list (list (list string))) (i j : nat) (a : string)
    : res (list (list (list string))) :=
  cell ← get2 g i j;
  set2 g i j (cell ++ [a]).

(** [__create_graphs]: the loop state is the pair of the two matrices. *)
Definition __create_graphs (state2id : gmap string nat) (trans : list string)
    (g ug : list (list (list string)))
    : res (list (list (list string)) * list (list (list string))) :=
  for_each trans (fun el '(g, ug) =>
      '(s1, a, s2) ← split_trans el;
      i1 ← getkey state2id s1;
      i2 ← getkey state2id s2;
      g ← append_cell g i1 i2 a;
      ug ← append_cell ug i1 i2 a;
      ug ← append_cell ug i2 i1 a;
      Ret (g, ug))
    (g, ug).

(** [FSA.__init__] *)
Definition __init__ (states alpha initial accepting trans : list string) : res FSA :=
  let n := length states in
  state2id ← make_state2id states n;
  id2state ← make_id2state states n;
  '(g, ug) ← __create_graphs state2id trans (empty_graph n) (empty_graph n);
  Ret {| states := states; alpha := alpha; initial := initial;
         accepting := accepting; trans := trans; n := n;
         state2id := state2id; id2state := id2state;
         graph := g; undirected_graph := ug |}.

(** [__DFS]: [depth] is the number of nested calls of [__DFS] that the
    interpreter still allows, this one included; without any left, the call
    raises [RecursionError]. *)
Fixpoint __DFS (depth : nat) (self : FSA) (g : list (list (list string)))
    (u : string) (visited : gset string) : res (gset string) :=
  match depth with
  | 0 => Raise RecursionError
  | S depth' =>
      let visited := visited ∪ {[u]} in
      for_each (range (n self)) (fun v visited =>
          sv ← getkey (id2state self) v;
          if bool_decide (sv ∉ visited)
          then
            iu ← getkey (state2id self) u;
            cell ← get2 g iu v;
            match cell with
            | [] => Ret visited
            | _ :: _ => sv ← getkey (id2state self) v; __DFS depth' self g sv visited
            end
          else Ret visited)
        visited
  end.

(** A traversal enters a name of [id2state] at most once, so it never
    nests deeper than this (see [A2Facts.A2_DFS_depth]). *)
Definition DFS_depth (self : FSA) : nat := S (n self).

(** [__check_E2] *)
Definition __check_E2 (self : FSA) : bool := length (initial self) =? 0.

(** [__check_E3] *)
Definition __check_E3 (self : FSA) : bool := length (accepting self) =? 0.

(** [__check_E4] *)
Definition __check_E4 (self : FSA) : res string :=
  match List.find (fun el => bool_decide (el ∉ states self)) (initial self) with
  | Some el => Ret el
  | None =>
      match List.find (fun el => bool_decide (el ∉ states self)) (accepting self) with
      | Some el => Ret el
      | None =>
          (fix loop (l : list string) : res string :=
             match l with
             | [] => Ret ""
             | el :: l' =>
                 '(s1, _, s2) ← split_trans el;
                 if bool_decide (s1 ∉ states self) then Ret s1
                 else if bool_decide (s2 ∉ states self) then Ret s2
                 else loop l'
             end) (trans self)
      end
  end.

(** [__check_E5] *)
Definition __check_E5 (self : FSA) : res string :=
  (fix loop (l : list string) : res string :=
     match l with
     | [] => Ret ""
     | el :: l' =>
         '(_, a, _) ← split_trans el;
         if bool_decide (a ∉ alpha self) then Ret a else loop l'
     end) (trans self).

(** [__check_E6]; [limit] is the number of nested calls of [__DFS] that the
    interpreter allows here. *)
Definition __check_E6 (limit : nat) (self : FSA) : res bool :=
  i0 ← getitem (initial self) 0;
  visited ← __DFS limit self (undirected_graph self) i0 ∅;
  Ret (negb (size visited =? length (states self))).

(** [__check_E7] *)
Definition __check_E7 (self : FSA) : res bool :=
  (fix loop_u (us : list nat) : res bool :=
     match us with
     | [] => Ret false
     | u :: us' =>
         lst ← for_each (range (n self)) (fun v lst =>
                  cell ← get2 (graph self) u v;
                  Ret (lst ++ cell)) [];
         if existsb (fun el => 1 <? count_occ string_dec lst el) (alpha self)
         then Ret true
         else loop_u us'
     end) (range (n self)).

(** [validate]; [limit] is the depth of traversal that the interpreter
    allows. *)
Definition validate (limit : nat) (self : FSA) : res string :=
  if __check_E2 self then Ret "E2: Initial state is not defined"
  else if __check_E3 self then Ret "E3: Set of accepting states is empty"
  else
    faulty_state ← __check_E4 self;
    if truthy faulty_state
    then Ret ("E4: A state '" +:+ faulty_state +:+ "' is not in the set of states")
    else
      faulty_alpha ← __check_E5 self;
      if truthy faulty_alpha
      then Ret ("E5: A transition '" +:+ faulty_alpha
                  +:+ "' is not represented in the alphabet")
      else
        e6 ← __check_E6 limit self;
        if e6 : bool then Ret "E6: Some states are disjoint"
        else
          e7 ← __check_E7 self;
          if e7 : bool then Ret "E7: FSA is nondeterministic"
          else Ret "".

(** The first pair of loops of [Kleene] ("Initial sets"), run on the table
    [R] of empty strings. *)
Definition Kleene_initial (self : FSA) (R : list (list string))
    : res (list (list string)) :=
  for_each (range (length R)) (fun i R =>
      for_each (range (length R)) (fun j R =>
          cell ← get2 (graph self) i j;
          match cell with
          | _ :: _ =>
              R ← set2 R i j (join "|" (sorted cell));
              x ← get2 R i j;
              set2 R i j (x +:+ (if i =? j then "|eps" else ""))
          | [] => set2 R i j (if i =? j then "eps" else "{}")
          end) R) R.

(** The body of the innermost loop of "Update the sets". *)
Definition Kleene_cell (R_prev : list (list string)) (k i j : nat) : res string :=
  a ← get2 R_prev i k;
  b ← get2 R_prev k k;
  c ← get2 R_prev k j;
  d ← get2 R_prev i j;
  Ret ("(" +:+ a +:+ ")(" +:+ b +:+ ")*(" +:+ c +:+ ")|(" +:+ d +:+ ")").

(** The three nested loops of "Update the sets": the loop state is the pair
    of [R] and [R_prev]; [deepcopy] of a table of immutable strings is the
    table itself. *)
Definition Kleene_update (R R_prev : list (list string))
    : res (list (list string) * list (list string)) :=
  for_each (range (length R)) (fun k '(R, R_prev) =>
      R ← for_each (range (length R)) (fun i R =>
             for_each (range (length R)) (fun j R =>
                 x ← Kleene_cell R_prev k i j;
                 set2 R i j x) R) R;
      Ret (R, R)) (R, R_prev).

(** [[R[state2id[initial[0]]][state2id[f]] for f in accepting]] *)
Definition Kleene_regs (self : FSA) (R : list (list string)) : res (list string) :=
  for_each (accepting self) (fun f regs =>
      i0 ← getitem (initial self) 0;
      i ← getkey (state2id self) i0;
      row ← getitem R i;
      j ← getkey (state2id self) f;
      x ← getitem row j;
      Ret (regs ++ [x])) [].

(** The last line of [Kleene]: [[f"({x})" for x in regs]] joined by ["|"]. *)
Definition Kleene_result (regs : list string) : string :=
  join "|" (map (fun x => "(" +:+ x +:+ ")") regs).

(** [Kleene]; [limit] is the depth of traversal that the interpreter
    allows in the call of [validate]. *)
Definition Kleene (limit : nat) (self : FSA) : res string :=
  validation ← validate limit self;
  if truthy validation then Ret validation
  else
    let R := replicate (n self) (replicate (n self) "") in
    R ← Kleene_initial self R;
    let R_prev := R in
    '(R, R_prev) ← Kleene_update R R_prev;
    regs ← Kleene_regs self R;
    Ret (Kleene_result regs).

(** [main]: the argument is the content of [input.txt] as [readlines]
    returns it, the result is the printed line; an exception that [main]
    does not catch is a [Raise]; [limit] is the depth of traversal that the
    interpreter allows in the call of [Kleene]. *)
Definition main (limit : nat) (input_txt : list string) : res string :=
  match ('(states, alpha, initial, accepting, trans) ← parse_lines input_txt;
         fsa ← __init__ states alpha initial accepting trans;
         Kleene limit fsa) with
  | Raise AssertionError => Ret "E1: Input file is malformed"
  | Raise e => Raise e
  | Ret result => Ret result
  end.

(** *** Notions used to state the properties *)

(** The entry [R[i][j]] of a table, when it exists. *)
Definition entry {A : Type} (R : list (list A)) (i j : nat) : option A :=
  row ← R !! i; row !! j.

(** The symbols, in the order of [trans], on the transitions from the
    [i]-th to the [j]-th state. *)
Definition edge_symbols (self : FSA) (i j : nat) : list string :=
  flat_map (fun '(s1, a, s2) =>
      if decide (states self !! i = Some s1 /\ states self !! j = Some s2)
      then [a] else []) (triples (trans self)).

(** The entry of the initial table for the symbols [syms] of the edges
    from the [i]-th to the [j]-th state, as the specification words it. *)
Definition initial_entry (syms : list string) (i j : nat) : string :=
  match syms with
  | [] => if decide (i = j) then "eps" else "{}"
  | _ :: _ => join "|" (sorted syms) +:+ (if decide (i = j) then "|eps" else "")
  end.

(** A table read as a function of two indices. *)
Definition table_fn (R : list (list string)) (i j : nat) : string :=
  default "" (entry R i j).

(** The index of a declared state. *)
Definition index_of (self : FSA) (s : string) : nat :=
  default 0 (state2id self !! s).

(** The table of round [k] as the specification defines it from the
    initial table [R0]:
    [R^(k+1)[i][j] = (R^k[i][k])(R^k[k][k])*(R^k[k][j])|(R^k[i][j])]. *)
Fixpoint R_round (R0 : nat -> nat -> string) (k : nat) (i j : nat) : string :=
  match k with
  | 0 => R0 i j
  | S k' =>
      "(" +:+ R_round R0 k' i k' +:+ ")(" +:+ R_round R0 k' k' k' +:+ ")*("
      +:+ R_round R0 k' k' j +:+ ")|(" +:+ R_round R0 k' i j +:+ ")"
  end.

(** Two states joined by a transition, in either direction. *)
Definition linked (self : FSA) (s t : string) : Prop :=
  exists a, (s, a, t) ∈ triples (trans self) \/ (t, a, s) ∈ triples (trans self).

(** The undirected graph has more than one connected component. *)
Definition disjoint_states (self : FSA) : Prop :=
  exists s t, s ∈ states self /\ t ∈ states self /\ ~ rtc (linked self) s t.

(** Some state has two transitions with the same symbol. *)
Definition nondeterministic (self : FSA) : Prop :=
  exists s a,
    1 < length (base.filter (fun t => t.1.1 = s /\ t.1.2 = a) (triples (trans self))).

(** *** Notions used in the proofs *)

(** An [n] by [n] table. *)
Definition square {A : Type} (n : nat) (R : list (list A)) : Prop :=
  length R = n /\ forall i row, R !! i = Some row -> length row = n.

(** The symbols of the triples that [state2id] sends to the cell [(i, j)]. *)
Definition syms_by_id (d : gmap string nat) (T : list (string * string * string))
    (i j : nat) : list string :=
  flat_map (fun '(s1, a, s2) =>
      if decide (d !! s1 = Some i /\ d !! s2 = Some j) then [a] else []) T.

(** The same for the undirected graph. *)
Definition usyms_by_id (d : gmap string nat) (T : list (string * string * string))
    (i j : nat) : list string :=
  flat_map (fun '(s1, a, s2) =>
      (if decide (d !! s1 = Some i /\ d !! s2 = Some j) then [a] else [])
      ++ (if decide (d !! s2 = Some i /\ d !! s1 = Some j) then [a] else [])) T.

(** What holds of the instances that [__init__] returns. *)
Record wf (self : FSA) : Prop := {
  wf_n : n self = length (states self);
  wf_id : forall s i, state2id self !! s = Some i -> states self !! i = Some s;
  wf_key : forall s, s ∈ states self -> is_Some (state2id self !! s);
  wf_name : forall v, id2state self !! v = states self !! v;
  wf_graph : square (n self) (graph self);
  wf_ugraph : square (n self) (undirected_graph self);
  wf_trans : well_formed (trans self);
  wf_declared : forall t, t ∈ triples (trans self) ->
                  t.1.1 ∈ states self /\ t.2 ∈ states self;
  wf_cells : forall i j, i < n self -> j < n self ->
               entry (graph self) i j
               = Some (syms_by_id (state2id self) (triples (trans self)) i j);
  wf_ucells : forall i j, i < n self -> j < n self ->
                entry (undirected_graph self) i j
                = Some (usyms_by_id (state2id self) (triples (trans self)) i j)
}.

(** An arc of a graph matrix, between state names. *)
Definition arc (self : FSA) (g : list (list (list string))) (x y : string) : Prop :=
  exists iu v c cell,
    state2id self !! x = Some iu /\ states self !! v = Some y
    /\ entry g iu v = Some (c :: cell).

(** What a call of [__DFS] that starts outside [visited] with enough depth
    answers. *)
Definition DFS_post (self : FSA) (g : list (list (list string))) (u : string)
    (visited : gset string) (r : res (gset string)) : Prop :=
  match r with
  | Ret visited' =>
      visited ∪ {[u]} ⊆ visited'
      /\ forall x, x ∈ visited' -> x ∈ visited \/ rtc (arc self g) u x
  | Raise e => e = KeyError /\ u ∉ states self
  end.

(** The list [lst] that [__check_E7] builds for the state of index [u]. *)
Definition row_symbols (self : FSA) (u : nat) : list string :=
  flat_map (fun v => syms_by_id (state2id self) (triples (trans self)) u v)
    (range (n self)).

(** *** Further notions: validity of an automaton *)

(** Every declared state is linked to [i0] by transitions taken in either
    direction. *)
Definition all_linked (self : FSA) (i0 : string) : Prop :=
  forall s, s ∈ states self -> rtc (linked self) i0 s.

(** The state [s] has two transitions with the symbol [a]. *)
Definition two_on_symbol (self : FSA) (s a : string) : Prop :=
  1 < length (base.filter (fun t => t.1.1 = s /\ t.1.2 = a) (triples (trans self))).

(** The content of [input.txt] for the five lists, as [readlines] returns
    it. *)
Definition input_txt (sts al ini acc tr : list string) : list string :=
  map (fun l => l +:+ nl)
    [render "states" sts; render "alpha" al; render "initial" ini;
     render "accepting" acc; render "trans" tr].

End A2.

(** * Properties *)

(** ** Facts about the Python primitives *)

Module PyFacts.
Import Py.

Lemma bind_Ret {A B : Type} (m : res A) (f : A -> res B) (b : B) :
  m ≫= f = Ret b -> exists a, m = Ret a /\ f a = Ret b.
Proof. destruct m as [a|e]; simpl; [eauto | discriminate]. Qed.

Lemma bind_Raise {A B : Type} (m : res A) (f : A -> res B) (e : exn) :
  m ≫= f = Raise e -> m = Raise e \/ exists a, m = Ret a /\ f a = Raise e.
Proof. destruct m as [a|e']; simpl; [eauto | intros [= ->]; auto]. Qed.

Lemma bind_Ret_l {A B : Type} (a : A) (f : A -> res B) : Ret a ≫= f = f a.
Proof. reflexivity. Qed.

Lemma bind_Raise_l {A B : Type} (e : exn) (f : A -> res B) : Raise e ≫= f = Raise e.
Proof. reflexivity. Qed.

Lemma for_each_app {A St : Type} (l1 l2 : list A) (body : A -> St -> res St) st :
  for_each (l1 ++ l2) body st = for_each l1 body st ≫= for_each l2 body.
Proof.
  revert st. induction l1 as [|x l1 IH]; intros st; simpl; [done|].
  destruct (body x st) as [st'|e]; simpl; auto.
Qed.

(** A loop raises only what one of its iterations raises. *)
Lemma for_each_Raise {A St : Type} (l : list A) (body : A -> St -> res St)
    (st : St) (e : exn) :
  for_each l body st = Raise e ->
  exists x st1, x ∈ l /\ body x st1 = Raise e.
Proof.
  revert st. induction l as [|x l IH]; intros st; simpl; [discriminate|].
  intros [H|(st1 & H1 & H2)]%bind_Raise.
  - exists x, st. split; [left | done].
  - destruct (IH _ H2) as (y & st2 & Hy & Hr). exists y, st2. split; [by right | done].
Qed.

Lemma truthy_false s : truthy s = false <-> s = "".
Proof. destruct s; simpl; split; (done || discriminate). Qed.

Lemma truthy_true s : truthy s = true <-> s <> "".
Proof. destruct s; simpl; split; (done || discriminate). Qed.

Lemma getitem_Ret {A : Type} (l : list A) (i : nat) (x : A) :
  getitem l i = Ret x <-> l !! i = Some x.
Proof. unfold getitem. destruct (l !! i); split; congruence. Qed.

Lemma getitem_lt {A : Type} (l : list A) (i : nat) :
  i < length l -> exists x, getitem l i = Ret x /\ l !! i = Some x.
Proof.
  intros Hi. destruct (lookup_lt_is_Some_2 l i Hi) as [x Hx].
  exists x. split; [by apply getitem_Ret | done].
Qed.

Lemma getkey_Ret `{Countable K} {A : Type} (d : gmap K A) (k : K) (x : A) :
  getkey d k = Ret x <-> d !! k = Some x.
Proof. unfold getkey. destruct (d !! k); split; congruence. Qed.

(** The order of [sorted] is a total order on strings. *)
Lemma ascii_compare_refl c : Ascii.compare c c = Eq.
Proof. unfold Ascii.compare. apply N.compare_refl. Qed.

Lemma str_compare_refl s : String.compare s s = Eq.
Proof. induction s as [|c s IH]; simpl; [done|]. by rewrite ascii_compare_refl. Qed.

Lemma str_leb_trans s1 s2 s3 :
  String.leb s1 s2 = true -> String.leb s2 s3 = true -> String.leb s1 s3 = true.
Proof.
  unfold String.leb. revert s2 s3.
  induction s1 as [|c1 s1 IH]; intros [|c2 s2] [|c3 s3]; simpl; try done.
  unfold Ascii.compare.
  destruct (N.compare_spec (N_of_ascii c1) (N_of_ascii c2)) as [E12|L12|G12];
    destruct (N.compare_spec (N_of_ascii c2) (N_of_ascii c3)) as [E23|L23|G23];
    try done;
    destruct (N.compare_spec (N_of_ascii c1) (N_of_ascii c3)) as [E13|L13|G13];
    try done; try lia.
  apply IH.
Qed.

Global Instance str_le_total : Total str_le.
Proof. intros s t. apply String.leb_total. Qed.

Global Instance str_le_trans : Transitive str_le.
Proof. intros s t u. apply str_leb_trans. Qed.

Global Instance str_le_antisym : AntiSymm (=) str_le.
Proof. intros s t. apply String.leb_antisym. Qed.

Global Instance str_le_refl : Reflexive str_le.
Proof. intros s. unfold str_le, String.leb. by rewrite str_compare_refl. Qed.

Lemma sorted_Sorted l : Sorted str_le (sorted l).
Proof. apply Sorted_merge_sort, _. Qed.

Lemma sorted_Permutation l : sorted l ≡ₚ l.
Proof. apply merge_sort_Permutation. Qed.

(** [sorted l] is the only sorted rearrangement of [l]: the choice of the
    sorting algorithm does not show in the result. *)
Lemma sorted_unique l l' : Sorted str_le l' -> l' ≡ₚ l -> sorted l = l'.
Proof.
  intros Hs Hp. apply (Sorted_unique str_le); [apply sorted_Sorted | done |].
  by rewrite sorted_Permutation, Hp.
Qed.

(** The number of distinct elements of a list. *)
Lemma size_list_to_set_le (l : list string) :
  size (list_to_set (C:=gset string) l) <= length l.
Proof.
  induction l as [|x l IH].
  - rewrite list_to_set_nil, size_empty. done.
  - rewrite list_to_set_cons, size_union_alt, size_singleton. simpl.
    assert (size (list_to_set (C:=gset string) l ∖ {[x]})
            <= size (list_to_set (C:=gset string) l)).
    { apply subseteq_size. set_solver. }
    lia.
Qed.

Lemma size_list_to_set_NoDup (l : list string) :
  size (list_to_set (C:=gset string) l) = length l -> NoDup l.
Proof.
  induction l as [|x l IH]; [constructor|].
  rewrite list_to_set_cons. simpl. intros Hsz.
  pose proof (size_list_to_set_le l) as Hle.
  destruct (decide (x ∈ l)) as [Hin|Hnin].
  - assert ({[x]} ∪ list_to_set (C:=gset string) l = list_to_set l) as E.
    { apply subseteq_union_1_L. set_solver. }
    rewrite E in Hsz. lia.
  - constructor; [done|]. apply IH.
    rewrite size_union, size_singleton in Hsz by set_solver. lia.
Qed.

Lemma first_absent_app declared l1 l2 :
  first_absent declared (l1 ++ l2)
  = match first_absent declared l1 with
    | Some x => Some x
    | None => first_absent declared l2
    end.
Proof.
  unfold first_absent. induction l1 as [|x l1 IH]; simpl; [done|].
  by destruct (bool_decide _).
Qed.

Lemma first_absent_None declared l :
  first_absent declared l = None <-> forall x, x ∈ l -> x ∈ declared.
Proof.
  unfold first_absent. induction l as [|y l IH]; simpl.
  - split; [intros _ x Hx; by apply elem_of_nil in Hx | done].
  - case_bool_decide as Hy; simpl.
    + split; [done|]. intros H. destruct Hy. apply H. left.
    + rewrite IH. split.
      * intros H x [->|Hx]%elem_of_cons; auto.
      * intros H x Hx. apply H. by right.
Qed.

Lemma first_absent_Some declared l x :
  first_absent declared l = Some x -> x ∈ l /\ x ∉ declared.
Proof.
  unfold first_absent. intros H. apply find_some in H as [Hin Hx].
  split; [by apply list_elem_of_In | by apply bool_decide_eq_true in Hx].
Qed.

Lemma rtc_sym {A : Type} (R : relation A) x y :
  (forall a b, R a b -> R b a) -> rtc R x y -> rtc R y x.
Proof.
  intros Hsym. induction 1 as [|x y z Hxy _ IH]; [apply rtc_refl|].
  eapply rtc_r; [exact IH | by apply Hsym].
Qed.

End PyFacts.

(** ** Facts about the validator *)

Module A1Facts.
Import Py PyFacts A1.

Lemma DFS_S depth self u visited undirected :
  DFS (S depth) self u visited undirected =
  adj ← getkey (graph_of self undirected) u;
  for_each adj (fun v visited =>
      if bool_decide (v.1 ∉ visited)
      then DFS depth self v.1 visited undirected
      else Ret visited)
    (visited ∪ {[u]}).
Proof. reflexivity. Qed.

Lemma A1_DFS_spec depth self undirected u visited :
  u ∉ visited ->
  size (dom (graph_of self undirected) ∖ visited) < depth ->
  DFS_post (graph_of self undirected) u visited (DFS depth self u visited undirected).
Proof.
  set (g := graph_of self undirected).
  revert u visited. induction depth as [|depth IH]; intros u visited Hu Hsize; [lia|].
  rewrite DFS_S. fold g. unfold getkey.
  destruct (g !! u) as [adj|] eqn:Hadj; simpl.
  2:{ split; [done|]. exists u. split; [apply rtc_refl | done]. }
  assert (Harcs : forall v, v ∈ adj -> arc g u v.1).
  { intros [y a] Hv. exists adj, a. split; [done | exact Hv]. }
  assert (Hlt : forall vis, visited ∪ {[u]} ⊆ vis -> size (dom g ∖ vis) < depth).
  { intros vis Hsub.
    assert (dom g ∖ vis ⊂ dom g ∖ visited) as Hss%subset_size; [|lia].
    assert (u ∈ dom g) by (apply elem_of_dom; eauto).
    set_solver. }
  clear Hadj Hsize.
  assert (Hinv : visited ∪ {[u]} ⊆ visited ∪ {[u]}
                 /\ forall x, x ∈ visited ∪ {[u]} -> x ∈ visited \/ rtc (arc g) u x).
  { split; [done|]. intros x [?| ->%elem_of_singleton]%elem_of_union; [by left|].
    right. apply rtc_refl. }
  revert Hinv. generalize (visited ∪ {[u]}) at 2 3 4 as vis.
  induction adj as [|v adj IHadj]; intros vis [Hsub Hreach]; simpl.
  - split; [done|]. exact Hreach.
  - assert (Huv : arc g u v.1) by (apply Harcs; left).
    case_bool_decide as Hv.
    + specialize (IH v.1 vis Hv (Hlt vis Hsub)).
      destruct (DFS depth self v.1 vis undirected) as [vis'|e]; simpl in *.
      * destruct IH as [Hsub' Hreach'].
        apply IHadj.
        { intros w Hw. apply Harcs. by right. }
        split; [set_solver|].
        intros x Hx. destruct (Hreach' x Hx) as [Hx'|Hx'].
        -- by apply Hreach.
        -- right. by eapply rtc_l.
      * destruct IH as [-> (x & Hx & Hnone)].
        split; [done|]. exists x. split; [by eapply rtc_l | done].
    + apply IHadj; [|by split].
      intros w Hw. apply Harcs. by right.
Qed.

(** The depth [DFS_depth] is enough for a traversal that starts from the
    empty set. *)
Lemma A1_DFS_depth self undirected u :
  DFS_post (graph_of self undirected) u ∅
    (DFS (DFS_depth self undirected) self u ∅ undirected).
Proof.
  apply A1_DFS_spec; [set_solver|].
  unfold DFS_depth. fold (graph_of self undirected).
  rewrite difference_empty_L, size_dom. lia.
Qed.

(** *** The depth that the interpreter allows *)

(** A traversal that did not run out of depth answers the same with more
    depth. *)
Lemma DFS_mono d : forall d' self u visited undirected r,
  d <= d' -> DFS d self u visited undirected = r -> r <> Raise RecursionError ->
  DFS d' self u visited undirected = r.
Proof.
  induction d as [|d IH]; intros d' self u visited undirected r Hle Hr Hne.
  - simpl in Hr. congruence.
  - destruct d' as [|d']; [lia|]. rewrite DFS_S in Hr |- *.
    destruct (getkey (graph_of self undirected) u) as [adj|e]; [|done].
    rewrite bind_Ret_l in Hr |- *.
    revert Hr. generalize (visited ∪ {[u]}) as vis.
    induction adj as [|v adj IHadj]; intros vis Hr; simpl in Hr |- *; [done|].
    case_bool_decide.
    + destruct (DFS d self v.1 vis undirected) as [vis'|e] eqn:Hd.
      * rewrite (IH d' self v.1 vis undirected (Ret vis')); [|lia|done|done].
        rewrite bind_Ret_l in Hr |- *. by apply IHadj.
      * rewrite bind_Raise_l in Hr. subst r.
        by rewrite (IH d' self v.1 vis undirected (Raise e)); [|lia|done|done].
    + rewrite bind_Ret_l in Hr |- *. by apply IHadj.
Qed.

(** A traversal raises [KeyError] or [RecursionError] only. *)
Lemma DFS_Raise d : forall self u visited undirected e,
  DFS d self u visited undirected = Raise e -> e = KeyError \/ e = RecursionError.
Proof.
  induction d as [|d IH]; intros self u visited undirected e.
  - simpl. intros [= <-]. by right.
  - rewrite DFS_S. unfold getkey.
    destruct (graph_of self undirected !! u) as [adj|]; simpl;
      [|intros [= <-]; by left].
    generalize (visited ∪ {[u]}) as vis.
    induction adj as [|v adj IHadj]; intros vis; simpl; [discriminate|].
    intros [H|(vis' & _ & H)]%bind_Raise; [|by eapply IHadj].
    case_bool_decide; [by eapply IH | discriminate].
Qed.

(** With the depth that the interpreter allows, a traversal from the empty
    set answers as with the depth [DFS_depth], unless the interpreter allows
    less and the traversal runs out of it. *)
Lemma DFS_limit limit self undirected u :
  DFS limit self u ∅ undirected
  = DFS (DFS_depth self undirected) self u ∅ undirected
  \/ (DFS limit self u ∅ undirected = Raise RecursionError
      /\ limit < DFS_depth self undirected).
Proof.
  pose proof (A1_DFS_depth self undirected u) as Hpost.
  destruct (decide (DFS_depth self undirected <= limit)) as [Hle|Hlt].
  - left. eapply DFS_mono; [exact Hle | done |].
    destruct (DFS (DFS_depth self undirected) self u ∅ undirected) as [?|e];
      [done|]. destruct Hpost as [-> _]. done.
  - destruct (DFS limit self u ∅ undirected) as [vis|e] eqn:Hd.
    + left. symmetry. eapply DFS_mono; [|exact Hd|done]. lia.
    + destruct (decide (e = RecursionError)) as [->|Hne].
      * right. split; [done | lia].
      * left. symmetry. eapply DFS_mono; [|exact Hd|congruence]. lia.
Qed.

Lemma split_trans_Raise el e : split_trans el = Raise e -> e = ValueError.
Proof.
  unfold split_trans, unpack3.
  destruct (split ">" el) as [|? [|? [|? [|? ?]]]]; congruence.
Qed.

Lemma append_at_ensure k x d :
  append_at k x (ensure_key k d) = Ret (<[k:=default [] (d !! k) ++ [x]]> d).
Proof.
  unfold append_at, ensure_key, getkey.
  case_bool_decide as Hk.
  - destruct Hk as [l Hl]. rewrite Hl. reflexivity.
  - rewrite lookup_insert_eq. simpl.
    assert (d !! k = None) as -> by (by apply eq_None_not_Some).
    simpl. by rewrite insert_insert_eq.
Qed.

Lemma create_graphs_Raise self e : create_graphs self = Raise e -> e = ValueError.
Proof.
  unfold create_graphs.
  intros [H|([g ug] & _ & [H|([g' ug'] & _ & H)]%bind_Raise)]%bind_Raise;
    [| |discriminate].
  - apply for_each_Raise in H as (el & [g ug] & _ & H).
    apply bind_Raise in H as [H|([[s1 a] s2] & _ & H)].
    + by apply split_trans_Raise in H.
    + destruct (_ || _); [discriminate|].
      repeat (rewrite append_at_ensure in H; simpl in H). discriminate.
  - apply for_each_Raise in H as (el & [g1 ug1] & _ & H). discriminate.
Qed.

(** [create_graphs] returns only when every transition token splits into
    three fields. *)
Lemma create_graphs_well_formed self self' :
  create_graphs self = Ret self' -> well_formed (trans self).
Proof.
  unfold create_graphs. intros (st & Hloop & _)%bind_Ret. revert Hloop.
  generalize (graph self, undirected_graph self).
  induction (trans self) as [|el l IH]; intros st0; [constructor|].
  simpl. intros (st1 & Hbody & Hrest)%bind_Ret.
  constructor; [|by eapply IH].
  destruct st0 as [g ug]. apply bind_Ret in Hbody as (t & Hel & _).
  unfold triple_of. rewrite Hel. eauto.
Qed.

(** With a transition token that does not split into three fields
    [create_graphs] raises [ValueError], whatever the graphs hold. *)
Lemma create_graphs_malformed self :
  ~ well_formed (trans self) -> create_graphs self = Raise ValueError.
Proof.
  unfold create_graphs. intros Hnwf.
  assert (Hloop : forall st,
    for_each (trans self) (fun el '(g, ug) =>
        '(s1, a, s2) ← split_trans el;
        if bool_decide (s1 ∉ states self) || bool_decide (s2 ∉ states self)
        then Ret (g, ug)
        else
          g ← append_at s1 (s2, a) (ensure_key s1 g);
          ug ← append_at s1 (s2, a) (ensure_key s1 ug);
          ug ← append_at s2 (s1, a) (ensure_key s2 ug);
          Ret (g, ug)) st = Raise ValueError); [|by rewrite Hloop].
  induction (trans self) as [|el l IH]; intros [g ug]; [destruct Hnwf; constructor|].
  simpl. destruct (split_trans el) as [[[s1 a] s2]|e] eqn:Hel.
  - rewrite bind_Ret_l.
    assert (Hl : ~ well_formed l).
    { intros Hl. apply Hnwf. constructor; [|done].
      unfold triple_of. rewrite Hel. eauto. }
    destruct (_ || _).
    + rewrite bind_Ret_l. by apply IH.
    + repeat (rewrite append_at_ensure; simpl). by apply IH.
  - by rewrite (split_trans_Raise _ _ Hel).
Qed.

(** The validator raises [ValueError] on every instance that passes the
    membership check and has a malformed transition token. *)
Lemma validate_malformed limit self :
  check_E1 self = "" -> ~ well_formed (trans self) ->
  validate limit self = Raise ValueError.
Proof.
  intros HE1 Hnwf. unfold validate. rewrite HE1. simpl.
  by rewrite create_graphs_malformed.
Qed.

Lemma create_graphs_states self self' :
  create_graphs self = Ret self' ->
  states self' = states self /\ alpha self' = alpha self
  /\ init_st self' = init_st self /\ fin_st self' = fin_st self
  /\ trans self' = trans self.
Proof.
  unfold create_graphs.
  intros ([g ug] & _ & ([g' ug'] & _ & [= <-])%bind_Ret)%bind_Ret. done.
Qed.

Lemma check_E3_Raise self e : check_E3 self = Raise e -> e = ValueError.
Proof.
  unfold check_E3. induction (trans self) as [|el l IH]; [discriminate|].
  intros [H|([[s1 a] s2] & _ & H)]%bind_Raise.
  - by apply split_trans_Raise in H.
  - case_bool_decide; [discriminate | by apply IH].
Qed.

(** The two checks that traverse answer as with the depth [DFS_depth],
    unless the interpreter allows less and the traversal runs out of it. *)
Lemma check_E2_limit limit self :
  check_E2 limit self = check_E2 (DFS_depth self true) self
  \/ (check_E2 limit self = Raise RecursionError /\ limit < DFS_depth self true).
Proof.
  unfold check_E2. destruct (getitem (states self) 0) as [s0|e]; [|by left].
  rewrite !bind_Ret_l.
  destruct (DFS_limit limit self true s0) as [->|[-> Hlt]]; [by left | by right].
Qed.

Lemma check_W2_limit limit self :
  check_W2 limit self = check_W2 (DFS_depth self false) self
  \/ (check_W2 limit self = Raise RecursionError /\ limit < DFS_depth self false).
Proof.
  unfold check_W2. destruct (getitem (init_st self) 0) as [s0|e]; [|by left].
  rewrite !bind_Ret_l.
  destruct (DFS_limit limit self false s0) as [->|[-> Hlt]]; [by left | by right].
Qed.

Lemma check_E2_Raise limit self e :
  states self <> [] -> check_E2 limit self = Raise e ->
  e = KeyError \/ e = RecursionError.
Proof.
  intros Hne. unfold check_E2.
  intros [H|(s0 & _ & [H|(vis & _ & H)]%bind_Raise)]%bind_Raise; [| |discriminate].
  - unfold getitem in H. by destruct (states self).
  - by apply DFS_Raise in H.
Qed.

Lemma check_W2_Raise limit self e :
  check_E4 self = false -> check_W2 limit self = Raise e ->
  e = KeyError \/ e = RecursionError.
Proof.
  unfold check_E4, check_W2. intros HE4.
  intros [H|(i0 & _ & [H|(vis & _ & H)]%bind_Raise)]%bind_Raise; [| |discriminate].
  - unfold getitem in H. by destruct (init_st self).
  - by apply DFS_Raise in H.
Qed.

(** The exceptions [validate] can raise when the list of states is not
    empty: the [ValueError] of a transition token that does not split into
    three fields, the [KeyError] of a traversal that starts from a name
    that is not a key of the graph, and the [RecursionError] of a traversal
    that nests deeper than the interpreter allows. *)
Lemma validate_Raise limit self e :
  states self <> [] -> validate limit self = Raise e ->
  e = ValueError \/ e = KeyError \/ e = RecursionError.
Proof.
  intros Hne. unfold validate.
  destruct (truthy (check_E1 self)); [discriminate|].
  intros [H|(self' & Hcg & H)]%bind_Raise.
  { left. by apply create_graphs_Raise in H. }
  apply create_graphs_states in Hcg as (Hst & _).
  apply bind_Raise in H as [H|([] & _ & H)]; [| discriminate |].
  { right. apply check_E2_Raise in H; [done | by rewrite Hst]. }
  apply bind_Raise in H as [H|(fa & _ & H)].
  { left. by apply check_E3_Raise in H. }
  destruct (truthy fa); [discriminate|].
  destruct (check_E4 self') eqn:HE4; [discriminate|].
  apply bind_Raise in H as [H|(w2 & _ & H)]; [|discriminate].
  right. by apply check_W2_Raise in H.
Qed.

(** *** What [create_graphs] builds on a fresh instance *)

Lemma default_some_if_nonempty {A : Type} (l : list A) :
  default [] (some_if_nonempty l) = l.
Proof. by destruct l. Qed.

Lemma some_if_nonempty_snoc {A : Type} (l : list A) x :
  some_if_nonempty (l ++ [x]) = Some (l ++ [x]).
Proof. by destruct l. Qed.

Lemma adj_of_snoc E s1 a s2 s :
  adj_of (E ++ [(s1, a, s2)]) s
  = adj_of E s ++ (if decide (s1 = s) then [(s2, a)] else []).
Proof. unfold adj_of. rewrite flat_map_app. simpl. by rewrite app_nil_r. Qed.

Lemma uadj_of_snoc E s1 a s2 s :
  uadj_of (E ++ [(s1, a, s2)]) s
  = uadj_of E s ++ (if decide (s1 = s) then [(s2, a)] else [])
      ++ (if decide (s2 = s) then [(s1, a)] else []).
Proof. unfold uadj_of. rewrite flat_map_app. simpl. by rewrite app_nil_r. Qed.

Lemma elem_of_adj_of E s t a : (t, a) ∈ adj_of E s <-> (s, a, t) ∈ E.
Proof.
  unfold adj_of. rewrite list_elem_of_In, in_flat_map. split.
  - intros ([[s1 a'] s2] & Hin & H). apply list_elem_of_In in Hin.
    case_decide; [|by apply list_elem_of_In, elem_of_nil in H].
    apply list_elem_of_In, list_elem_of_singleton in H. congruence.
  - intros Hin. exists (s, a, t). split; [by apply list_elem_of_In|].
    rewrite decide_True by done. by left.
Qed.

Lemma elem_of_uadj_of E s t a :
  (t, a) ∈ uadj_of E s <-> (s, a, t) ∈ E \/ (t, a, s) ∈ E.
Proof.
  unfold uadj_of. rewrite list_elem_of_In, in_flat_map. split.
  - intros ([[s1 a'] s2] & Hin & H). apply list_elem_of_In in Hin.
    apply list_elem_of_In, elem_of_app in H as [H|H];
      (case_decide; [|by apply elem_of_nil in H]);
      apply list_elem_of_singleton in H.
    + left. congruence.
    + right. congruence.
  - intros [Hin|Hin].
    + exists (s, a, t). split; [by apply list_elem_of_In|].
      apply list_elem_of_In, elem_of_app. left.
      rewrite decide_True by done. by left.
    + exists (t, a, s). split; [by apply list_elem_of_In|].
      apply list_elem_of_In, elem_of_app. right.
      rewrite decide_True by done. by left.
Qed.

Lemma built_step E g ug s1 a s2 :
  built E g ug ->
  built (E ++ [(s1, a, s2)])
    (<[s1:=default [] (g !! s1) ++ [(s2, a)]]> g)
    (<[s2:=default [] (<[s1:=default [] (ug !! s1) ++ [(s2, a)]]> ug !! s2)
             ++ [(s1, a)]]>
       (<[s1:=default [] (ug !! s1) ++ [(s2, a)]]> ug)).
Proof.
  intros Hb s. destruct (Hb s) as [Hg Hug].
  destruct (Hb s1) as [Hg1 Hug1]. destruct (Hb s2) as [Hg2 Hug2].
  rewrite adj_of_snoc, uadj_of_snoc. split.
  - destruct (decide (s1 = s)) as [->|Hne].
    + rewrite lookup_insert_eq, Hg, default_some_if_nonempty.
      by rewrite some_if_nonempty_snoc.
    + rewrite lookup_insert_ne, app_nil_r by done. exact Hg.
  - destruct (decide (s2 = s)) as [->|Hne2].
    + rewrite lookup_insert_eq. destruct (decide (s1 = s)) as [->|Hne1].
      * rewrite lookup_insert_eq. simpl.
        rewrite Hug, default_some_if_nonempty.
        rewrite (app_assoc _ [(s, a)] [(s, a)]).
        by rewrite some_if_nonempty_snoc.
      * rewrite lookup_insert_ne by done. simpl.
        rewrite Hug, default_some_if_nonempty.
        by rewrite some_if_nonempty_snoc.
    + rewrite lookup_insert_ne by done. destruct (decide (s1 = s)) as [->|Hne1].
      * rewrite lookup_insert_eq, Hug, default_some_if_nonempty, app_nil_r.
        by rewrite some_if_nonempty_snoc.
      * rewrite lookup_insert_ne, !app_nil_r by done. exact Hug.
Qed.

Lemma create_graphs_first_loop sts rest : forall E g ug,
  well_formed rest -> built E g ug ->
  exists g' ug',
    for_each rest (fun el '(g, ug) =>
        '(s1, a, s2) ← split_trans el;
        if bool_decide (s1 ∉ sts) || bool_decide (s2 ∉ sts)
        then Ret (g, ug)
        else
          g ← append_at s1 (s2, a) (ensure_key s1 g);
          ug ← append_at s1 (s2, a) (ensure_key s1 ug);
          ug ← append_at s2 (s1, a) (ensure_key s2 ug);
          Ret (g, ug)) (g, ug) = Ret (g', ug')
    /\ built (E ++ base.filter (declared sts) (triples rest)) g' ug'.
Proof.
  induction rest as [|el rest IH]; intros E g ug Hwf Hb.
  - exists g, ug. simpl. by rewrite app_nil_r.
  - apply Forall_cons in Hwf as [[[[s1 a] s2] Hel] Hwf].
    unfold triples. simpl. fold (triples rest). rewrite Hel.
    unfold triple_of in Hel. destruct (split_trans el) as [t|]; [|done].
    injection Hel as ->. simpl.
    destruct (decide (declared sts (s1, a, s2))) as [[H1 H2]|Hnd]; simpl in *.
    + rewrite filter_cons_True by (by split).
      rewrite (bool_decide_eq_false_2 (s1 ∉ sts)) by auto.
      rewrite (bool_decide_eq_false_2 (s2 ∉ sts)) by auto. simpl.
      repeat (rewrite append_at_ensure; simpl).
      rewrite (cons_middle _ E), app_assoc.
      apply IH; [done|]. by apply built_step.
    + rewrite filter_cons_False by done.
      assert (bool_decide (s1 ∉ sts) || bool_decide (s2 ∉ sts) = true) as ->.
      { apply orb_true_iff. rewrite !bool_decide_eq_true.
        destruct (decide (s1 ∈ sts)); [|by left].
        destruct (decide (s2 ∈ sts)); [|by right].
        destruct Hnd. by split. }
      by apply IH.
Qed.

Lemma create_graphs_second_loop l : forall g ug : gmap string (list (string * string)),
  exists g' ug',
    for_each l (fun el '(g, ug) => Ret (ensure_key el g, ensure_key el ug)) (g, ug)
      = Ret (g', ug')
    /\ (forall s, g' !! s = match g !! s with
                           | Some x => Some x
                           | None => if decide (s ∈ l) then Some [] else None
                           end)
    /\ (forall s, ug' !! s = match ug !! s with
                            | Some x => Some x
                            | None => if decide (s ∈ l) then Some [] else None
                            end).
Proof.
  assert (Hens : forall k s (d : gmap string (list (string * string))),
            ensure_key k d !! s = match d !! s with
                                  | Some x => Some x
                                  | None => if decide (s = k) then Some [] else None
                                  end).
  { intros k s d. unfold ensure_key. case_bool_decide as Hk.
    - destruct (d !! s) eqn:E; [done|]. case_decide; [|done]. subst.
      rewrite E in Hk. by destruct Hk.
    - destruct (decide (s = k)) as [->|].
      + rewrite lookup_insert_eq.
        assert (d !! k = None) as -> by (by apply eq_None_not_Some). done.
      + rewrite lookup_insert_ne by done. by destruct (d !! s). }
  induction l as [|el l IH]; intros g ug; simpl.
  - exists g, ug. split; [done|].
    split; intros s; [destruct (g !! s)|destruct (ug !! s)]; try done;
      by rewrite decide_False by apply not_elem_of_nil.
  - destruct (IH (ensure_key el g) (ensure_key el ug)) as (g' & ug' & -> & Hg & Hug).
    exists g', ug'. split; [done|].
    split; intros s; [rewrite Hg | rewrite Hug]; rewrite Hens;
      [destruct (g !! s)|destruct (ug !! s)]; try done;
      destruct (decide (s = el)) as [->|];
        try (by rewrite decide_True by left);
        (destruct (decide (s ∈ l));
          [by rewrite decide_True by (by right)
          |by rewrite decide_False by (by intros [?|?]%elem_of_cons)]).
Qed.

(** On a fresh instance with well-formed transition tokens [create_graphs]
    returns, and the two graphs hold, under each declared state and under
    no other key, the lists [adj_of] and [uadj_of] of the edges. *)
Lemma create_graphs_fresh self :
  graph self = ∅ -> undirected_graph self = ∅ -> well_formed (trans self) ->
  exists g ug,
    create_graphs self = Ret (set_graphs self g ug)
    /\ (forall s, g !! s = if decide (s ∈ states self)
                          then Some (adj_of (edges self) s) else None)
    /\ (forall s, ug !! s = if decide (s ∈ states self)
                           then Some (uadj_of (edges self) s) else None).
Proof.
  intros Hg Hug Hwf. unfold create_graphs. rewrite Hg, Hug.
  destruct (create_graphs_first_loop (states self) (trans self) [] ∅ ∅ Hwf)
    as (g1 & ug1 & -> & Hb).
  { intros s. by rewrite !lookup_empty. }
  simpl in Hb. fold (edges self) in Hb. simpl.
  destruct (create_graphs_second_loop (states self) g1 ug1)
    as (g2 & ug2 & -> & Hg2 & Hug2).
  exists g2, ug2. split; [done|].
  split; intros s; [rewrite Hg2, (proj1 (Hb s)) | rewrite Hug2, (proj2 (Hb s))].
  - destruct (adj_of (edges self) s) as [|[t a] l] eqn:E; simpl; [done|].
    rewrite decide_True; [done|].
    assert ((t, a) ∈ adj_of (edges self) s) as Hin by (rewrite E; left).
    apply elem_of_adj_of in Hin. unfold edges in Hin.
    apply list_elem_of_filter in Hin as [[H1 _] _]. exact H1.
  - destruct (uadj_of (edges self) s) as [|[t a] l] eqn:E; simpl; [done|].
    rewrite decide_True; [done|].
    assert ((t, a) ∈ uadj_of (edges self) s) as Hin by (rewrite E; left).
    apply elem_of_uadj_of in Hin. unfold edges in Hin.
    destruct Hin as [Hin|Hin]; apply list_elem_of_filter in Hin as [[H1 H2] _];
      [exact H1 | exact H2].
Qed.

(** *** The disjointness check on a fresh instance *)

Lemma linked_sym self s t : linked self s t -> linked self t s.
Proof. intros [a [H|H]]; exists a; auto. Qed.

Lemma linked_states self s t : linked self s t -> s ∈ states self /\ t ∈ states self.
Proof.
  intros [a [H|H]]; unfold edges in H;
    apply list_elem_of_filter in H as [[H1 H2] _]; simpl in *; auto.
Qed.

Lemma rtc_linked_states self s t :
  s ∈ states self -> rtc (linked self) s t -> t ∈ states self.
Proof.
  intros Hs H. induction H as [|x y z Hxy _ IH]; [done|].
  apply IH. by apply linked_states in Hxy as [_ ?].
Qed.

Section built_graphs.
Variable self : FSA_validator.
Variables g ug : gmap string (list (string * string)).
Hypothesis Hg : forall s, g !! s = if decide (s ∈ states self)
                                   then Some (adj_of (edges self) s) else None.
Hypothesis Hug : forall s, ug !! s = if decide (s ∈ states self)
                                     then Some (uadj_of (edges self) s) else None.

Lemma arc_ug_linked x y : arc ug x y -> linked self x y.
Proof.
  intros (adj & a & Hx & Hy). rewrite Hug in Hx.
  case_decide; [|done]. injection Hx as <-.
  apply elem_of_uadj_of in Hy. by exists a.
Qed.

Lemma rtc_arc_ug_linked x y : rtc (arc ug) x y -> rtc (linked self) x y.
Proof. apply rtc_subrel. intros ? ?. apply arc_ug_linked. Qed.

Lemma arc_g_edge x y : arc g x y <-> exists a, (x, a, y) ∈ edges self.
Proof.
  split.
  - intros (adj & a & Hx & Hy). rewrite Hg in Hx.
    case_decide; [|done]. injection Hx as <-.
    apply elem_of_adj_of in Hy. by exists a.
  - intros [a Ha]. exists (adj_of (edges self) x), a.
    split; [|by apply elem_of_adj_of].
    rewrite Hg, decide_True; [done|].
    unfold edges in Ha. by apply list_elem_of_filter in Ha as [[? _] _].
Qed.

Lemma rtc_arc_g_states x y : x ∈ states self -> rtc (arc g) x y -> y ∈ states self.
Proof.
  intros Hx H. induction H as [|x y z Hxy _ IH]; [done|].
  apply IH. apply arc_g_edge in Hxy as [a Ha]. unfold edges in Ha.
  by apply list_elem_of_filter in Ha as [[_ ?] _].
Qed.

(** On the built graphs a traversal from a declared state returns. *)
Lemma DFS_built_Ret (undirected : bool) (u : string) :
  u ∈ states self ->
  exists visited,
    DFS (DFS_depth (set_graphs self g ug) undirected) (set_graphs self g ug)
      u ∅ undirected = Ret visited
    /\ u ∈ visited
    /\ forall x, x ∈ visited ->
         x ∈ states self
         /\ rtc (arc (if undirected then ug else g)) u x.
Proof.
  intros Hu.
  pose proof (A1_DFS_depth (set_graphs self g ug) undirected u) as Hpost.
  destruct (DFS _ _ _ _ _) as [visited|e]; simpl in Hpost.
  - destruct Hpost as [Hsub Hreach]. exists visited. split; [done|].
    split; [set_solver|]. intros x Hx.
    destruct (Hreach x Hx) as [?|Hr]; [set_solver|].
    split; [|by destruct undirected].
    destruct undirected; simpl in Hr.
    + eapply rtc_linked_states; [exact Hu | by apply rtc_arc_ug_linked].
    + by eapply rtc_arc_g_states.
  - destruct Hpost as [_ (x & Hr & Hnone)]. exfalso.
    assert (x ∈ states self) as Hx.
    { destruct undirected; simpl in Hr.
      + eapply rtc_linked_states; [exact Hu | by apply rtc_arc_ug_linked].
      + by eapply rtc_arc_g_states. }
    destruct undirected; simpl in Hnone;
      [rewrite Hug in Hnone | rewrite Hg in Hnone];
      by rewrite decide_True in Hnone.
Qed.

(** A traversal of the built graphs never nests deeper than the number of
    declared states. *)
Lemma DFS_depth_built (undirected : bool) :
  DFS_depth (set_graphs self g ug) undirected <= S (length (states self)).
Proof.
  unfold DFS_depth. simpl. apply le_n_S.
  rewrite <- (size_dom (D:=gset string)).
  etransitivity; [|apply (size_list_to_set_le (states self))].
  apply subseteq_size. intros x [adj Hx]%elem_of_dom.
  apply elem_of_list_to_set.
  destruct undirected; [rewrite Hug in Hx | rewrite Hg in Hx];
    by case_decide.
Qed.

(** With room for one nested call per declared state, a traversal of the
    built graphs answers as with the depth [DFS_depth]. *)
Lemma DFS_built_limit (limit : nat) (undirected : bool) (u : string) :
  length (states self) < limit ->
  DFS limit (set_graphs self g ug) u ∅ undirected
  = DFS (DFS_depth (set_graphs self g ug) undirected) (set_graphs self g ug)
      u ∅ undirected.
Proof.
  intros Hlim. pose proof (DFS_depth_built undirected) as Hle.
  destruct (DFS_limit limit (set_graphs self g ug) undirected u)
    as [H|[_ Hlt]]; [done | lia].
Qed.

(** A traversal of the built graphs runs out of depth only when the
    interpreter allows fewer nested calls than there are declared states. *)
Lemma DFS_built_RecursionError (limit : nat) (undirected : bool) (u : string) :
  DFS limit (set_graphs self g ug) u ∅ undirected = Raise RecursionError ->
  limit <= length (states self).
Proof.
  intros H. pose proof (DFS_depth_built undirected) as Hle.
  pose proof (A1_DFS_depth (set_graphs self g ug) undirected u) as Hpost.
  destruct (DFS_limit limit (set_graphs self g ug) undirected u)
    as [Heq|[_ Hlt]]; [|lia].
  rewrite H in Heq. rewrite <- Heq in Hpost. by destruct Hpost.
Qed.

(** With more than one connected component the traversal of [check_E2]
    misses a declared state. *)
Lemma check_E2_disjoint limit :
  states self <> [] -> disjoint_states self -> length (states self) < limit ->
  check_E2 limit (set_graphs self g ug) = Ret true.
Proof.
  intros Hne (s & t & Hs & Ht & Hnot) Hlim. unfold check_E2.
  assert (exists s0, states self !! 0 = Some s0) as [s0 Hs0].
  { clear -Hne. destruct (states self); [done | eauto]. }
  change (states (set_graphs self g ug)) with (states self).
  unfold getitem. rewrite Hs0, bind_Ret_l.
  rewrite (DFS_built_limit limit true s0 Hlim).
  destruct (DFS_built_Ret true s0) as (visited & -> & _ & Hvis).
  { by eapply list_elem_of_lookup_2. }
  rewrite bind_Ret_l. f_equal. apply negb_true_iff, Nat.eqb_neq.
  assert (exists z, z ∈ states self /\ z ∉ visited) as (z & Hz & Hzv).
  { destruct (decide (s ∈ visited)) as [Hsv|]; [|by exists s].
    destruct (decide (t ∈ visited)) as [Htv|]; [|by exists t].
    destruct Hnot.
    apply Hvis in Hsv as [_ Hsv]. apply Hvis in Htv as [_ Htv].
    apply rtc_arc_ug_linked in Hsv, Htv.
    transitivity s0; [|done].
    apply rtc_sym; [apply linked_sym | done]. }
  assert (visited ⊂ list_to_set (C:=gset string) (states self)) as Hss%subset_size.
  { split.
    - intros x Hx. apply elem_of_list_to_set. by apply Hvis.
    - intros Hsub. apply Hzv, Hsub. by apply elem_of_list_to_set. }
  pose proof (size_list_to_set_le (states self)) as Hle. lia.
Qed.
End built_graphs.

(** The validator returns "disjoint states" for an instance that passes the
    membership check and has more than one connected component, whatever
    the later checks would say. *)
Lemma validate_disjoint limit self :
  graph self = ∅ -> undirected_graph self = ∅ -> well_formed (trans self) ->
  check_E1 self = "" -> disjoint_states self -> length (states self) < limit ->
  exists self',
    validate limit self = Ret (("E2: Some states are disjoint", "", []), self').
Proof.
  intros Hg Hug Hwf HE1 Hdis Hlim. unfold validate. rewrite HE1. simpl.
  assert (Hne : states self <> []).
  { destruct Hdis as (s & _ & Hs & _). intros E. rewrite E in Hs.
    by apply elem_of_nil in Hs. }
  destruct (create_graphs_fresh self Hg Hug Hwf) as (g & ug & -> & Hg' & Hug').
  simpl. rewrite (check_E2_disjoint self g ug Hg' Hug' limit Hne Hdis Hlim).
  simpl. eauto.
Qed.

(** *** The membership check *)

Lemma check_E1_first_absent self :
  check_E1 self
  = default "" (first_absent (states self) (init_st self ++ fin_st self)).
Proof.
  rewrite first_absent_app. unfold check_E1, first_absent.
  destruct (List.find _ (init_st self)); [done|].
  by destruct (List.find _ (fin_st self)).
Qed.

Lemma validate_E1 limit self s :
  first_absent (states self) (init_st self ++ fin_st self) = Some s -> s <> "" ->
  validate limit self
  = Ret (("E1: A state '" +:+ s +:+ "' is not in the set of states", "", []), self).
Proof.
  intros Hs Hne. unfold validate. rewrite check_E1_first_absent, Hs. simpl.
  by rewrite (proj2 (truthy_true s) Hne).
Qed.

(** *** The symbol check *)

Lemma check_E3_first_absent self :
  well_formed (trans self) ->
  check_E3 self
  = Ret (default "" (first_absent (alpha self) (triples (trans self)).*1.*2)).
Proof.
  unfold check_E3, first_absent. induction (trans self) as [|el l IH]; intros Hwf.
  - reflexivity.
  - apply Forall_cons in Hwf as [[[[s1 a] s2] Hel] Hwf].
    unfold triples. simpl. fold (triples l). rewrite Hel.
    unfold triple_of in Hel. destruct (split_trans el) as [t|]; [|done].
    injection Hel as ->. simpl.
    case_bool_decide; [done | by apply IH].
Qed.

(** When the symbol check passes and no transition carries the empty
    symbol, every transition symbol is in the alphabet. *)
Lemma check_E3_pass self fa :
  well_formed (trans self) -> check_E3 self = Ret fa -> truthy fa = false ->
  (forall t, t ∈ triples (trans self) -> t.1.2 <> "") ->
  forall t, t ∈ triples (trans self) -> t.1.2 ∈ alpha self.
Proof.
  intros Hwf HE3 Hfa Hne t Ht. rewrite check_E3_first_absent in HE3 by done.
  injection HE3 as <-. apply truthy_false in Hfa.
  destruct (first_absent _ _) as [x|] eqn:Hfirst; simpl in Hfa.
  - subst x. apply first_absent_Some in Hfirst as [Hin _].
    apply list_elem_of_fmap in Hin as ([s1 a] & Ha & Hin). simpl in Ha. subst a.
    apply list_elem_of_fmap in Hin as ([[s1' a] s2] & Ht' & Hin).
    simpl in Ht'. injection Ht' as -> <-. by apply Hne in Hin.
  - eapply first_absent_None in Hfirst; [exact Hfirst|].
    apply list_elem_of_fmap. exists t.1. split; [done|].
    apply list_elem_of_fmap. by exists t.
Qed.

(** *** The completeness classification *)

Lemma completion_cases self :
  completion self = "FSA is incomplete" \/ completion self = "FSA is complete".
Proof. unfold completion. destruct (existsb _ _); auto. Qed.

Section classification.
Variable self : FSA_validator.
Variables g ug : gmap string (list (string * string)).
Hypothesis Hg : forall s, g !! s = if decide (s ∈ states self)
                                   then Some (adj_of (edges self) s) else None.

Lemma completion_incomplete :
  completion (set_graphs self g ug) = "FSA is incomplete" <->
  exists s, s ∈ states self
    /\ size (list_to_set (C:=gset string) (out_symbols self s)) < length (alpha self).
Proof.
  unfold completion. simpl.
  destruct (existsb _ _) eqn:Hex.
  - split; [intros _|done].
    apply existsb_exists in Hex as ([u adj] & Hin & Hlt).
    apply list_elem_of_In, elem_of_map_to_list in Hin. rewrite Hg in Hin.
    case_decide; [|done]. injection Hin as <-.
    exists u. split; [done|]. by apply Nat.ltb_lt in Hlt.
  - split; [done|]. intros (s & Hs & Hlt). exfalso.
    apply not_true_iff_false in Hex. apply Hex.
    apply existsb_exists. exists (s, adj_of (edges self) s). split.
    + apply list_elem_of_In, elem_of_map_to_list. rewrite Hg. by rewrite decide_True.
    + by apply Nat.ltb_lt.
Qed.

Hypothesis Halpha : NoDup (alpha self).
Hypothesis Hsym : forall t, t ∈ edges self -> t.1.2 ∈ alpha self.

Lemma out_symbols_alpha s a : a ∈ out_symbols self s -> a ∈ alpha self.
Proof.
  unfold out_symbols. intros ([t a'] & -> & Hin)%list_elem_of_fmap.
  apply elem_of_adj_of in Hin. by apply Hsym in Hin.
Qed.

Lemma short_of_alphabet s :
  size (list_to_set (C:=gset string) (out_symbols self s)) < length (alpha self)
  <-> exists a, a ∈ alpha self /\ a ∉ out_symbols self s.
Proof.
  rewrite <- (size_list_to_set (C:=gset string) (alpha self)) by done.
  assert (list_to_set (C:=gset string) (out_symbols self s)
          ⊆ list_to_set (alpha self)) as Hsub.
  { intros a Ha. apply elem_of_list_to_set. apply elem_of_list_to_set in Ha.
    by eapply out_symbols_alpha. }
  split.
  - intros Hlt.
    destruct (decide (Exists (fun a => a ∉ out_symbols self s) (alpha self)))
      as [Hex|Hno].
    + apply Exists_exists in Hex as (a & Ha & Hout). by exists a.
    + exfalso. apply not_Exists_Forall in Hno; [|apply _].
      assert (list_to_set (C:=gset string) (alpha self)
              ⊆ list_to_set (out_symbols self s)) as Hsup%subseteq_size; [|lia].
      intros a Ha. apply elem_of_list_to_set. apply elem_of_list_to_set in Ha.
      rewrite Forall_forall in Hno. apply Hno in Ha. simpl in Ha.
      by apply dec_stable in Ha.
  - intros (a & Ha & Hout). apply subset_size. split; [done|].
    intros Hsup. apply Hout.
    assert (a ∈ list_to_set (C:=gset string) (alpha self)) as Hin
      by (by apply elem_of_list_to_set).
    apply Hsup in Hin. by apply elem_of_list_to_set in Hin.
Qed.

(** The classification is "complete" exactly when the outgoing symbols
    of every state are the symbols of the alphabet. *)
Lemma completion_complete :
  completion (set_graphs self g ug) = "FSA is complete" <-> covers_alphabet self.
Proof.
  split.
  - intros Hc s Hs a. split; [apply out_symbols_alpha|]. intros Ha.
    destruct (decide (a ∈ out_symbols self s)) as [|Hout]; [done|]. exfalso.
    assert (completion (set_graphs self g ug) = "FSA is incomplete") as Hi.
    { apply completion_incomplete. exists s. split; [done|].
      apply short_of_alphabet. by exists a. }
    rewrite Hc in Hi. discriminate.
  - intros Hcov.
    destruct (completion_cases (set_graphs self g ug)) as [Hi|Hc]; [|done].
    apply completion_incomplete in Hi as (s & Hs & Hlt).
    apply short_of_alphabet in Hlt as (a & Ha & Hout).
    destruct Hout. by apply Hcov.
Qed.
End classification.

(** *** An instance that passes the hard checks *)

Lemma validate_pass limit self c w self' :
  graph self = ∅ -> undirected_graph self = ∅ ->
  validate limit self = Ret (("", c, w), self') ->
  well_formed (trans self) /\
  exists g ug,
    (forall s, g !! s = if decide (s ∈ states self)
                        then Some (adj_of (edges self) s) else None)
    /\ (forall s, ug !! s = if decide (s ∈ states self)
                           then Some (uadj_of (edges self) s) else None)
    /\ self' = set_graphs self g ug
    /\ c = completion self'
    /\ (exists fa, check_E3 self' = Ret fa /\ truthy fa = false)
    /\ check_E2 limit self' = Ret false
    /\ check_E4 self' = false.
Proof.
  intros Hg Hug. unfold validate.
  destruct (truthy (check_E1 self)); [discriminate|].
  intros (self1 & Hcg & H)%bind_Ret.
  pose proof (create_graphs_well_formed _ _ Hcg) as Hwf. split; [done|].
  destruct (create_graphs_fresh self Hg Hug Hwf) as (g & ug & Hcg' & Hg' & Hug').
  rewrite Hcg' in Hcg. injection Hcg as <-.
  apply bind_Ret in H as ([] & HE2 & H); [discriminate|].
  apply bind_Ret in H as (fa & HE3 & H).
  destruct (truthy fa) eqn:Hfa; [discriminate|].
  destruct (check_E4 _) eqn:HE4; [discriminate|].
  apply bind_Ret in H as (w2 & _ & H). injection H as <- _ <-.
  exists g, ug. eauto 10.
Qed.

Lemma triples_app l1 l2 : triples (l1 ++ l2) = triples l1 ++ triples l2.
Proof. apply omap_app. Qed.

Lemma triples_cons el l t :
  triple_of el = Some t -> triples (el :: l) = t :: triples l.
Proof. intros H. unfold triples. simpl. by rewrite H. Qed.

Lemma triples_delete_subset i l t : t ∈ triples (delete i l) -> t ∈ triples l.
Proof.
  unfold triples. rewrite !list_elem_of_omap. intros (x & Hx & Ht).
  exists x. split; [|done].
  eapply elem_of_sublist; [exact Hx | apply sublist_delete].
Qed.

Lemma out_symbols_split sts T1 T2 s a t u :
  declared sts (s, a, t) ->
  (adj_of (base.filter (declared sts) (T1 ++ (s, a, t) :: T2)) u).*2
  = (adj_of (base.filter (declared sts) T1) u).*2
    ++ (if decide (s = u) then [a] else [])
    ++ (adj_of (base.filter (declared sts) T2) u).*2.
Proof.
  intros Hd. rewrite filter_app, filter_cons_True by done.
  unfold adj_of. rewrite flat_map_app. simpl. rewrite !fmap_app.
  by destruct (decide (s = u)).
Qed.

Lemma out_symbols_join sts T1 T2 u :
  (adj_of (base.filter (declared sts) (T1 ++ T2)) u).*2
  = (adj_of (base.filter (declared sts) T1) u).*2
    ++ (adj_of (base.filter (declared sts) T2) u).*2.
Proof.
  rewrite filter_app. unfold adj_of. by rewrite flat_map_app, fmap_app.
Qed.

(** Removing the only edge that leaves [s] with the symbol [a] leaves [s]
    without an edge for [a]. *)
Lemma out_symbols_remove self i el s a t :
  trans self !! i = Some el -> triple_of el = Some (s, a, t) ->
  declared (states self) (s, a, t) ->
  count_occ string_dec (out_symbols self s) a = 1 ->
  a ∉ out_symbols (remove_trans i self) s.
Proof.
  intros Hi Hel Hd Hcount.
  unfold out_symbols, edges, remove_trans in *. simpl.
  rewrite delete_take_drop, triples_app.
  rewrite <- (take_drop_middle (trans self) i el Hi) in Hcount.
  rewrite triples_app, (triples_cons _ _ _ Hel) in Hcount.
  rewrite out_symbols_split in Hcount by done.
  rewrite decide_True in Hcount by done.
  rewrite !count_occ_app in Hcount. simpl in Hcount.
  destruct (string_dec a a) as [_|]; [|done].
  rewrite out_symbols_join. rewrite list_elem_of_In.
  apply (count_occ_not_In string_dec). rewrite count_occ_app. lia.
Qed.

End A1Facts.

(** ** Facts about the translator *)

Module A2Facts.
Import Py PyFacts A2.

(** *** Loops over [range(n)] *)

Lemma range_S k : range (S k) = range k ++ [k].
Proof. unfold range. by rewrite seq_S. Qed.

(** A loop over [range(n)] with an invariant indexed by the number of
    iterations done. *)
Lemma for_range_total {St : Type} (P : nat -> St -> Prop) (n : nat)
    (body : nat -> St -> res St) (st : St) :
  P 0 st ->
  (forall k st, k < n -> P k st -> exists st', body k st = Ret st' /\ P (S k) st') ->
  exists st', for_each (range n) body st = Ret st' /\ P n st'.
Proof.
  intros H0 Hstep. induction n as [|n IH]; [by exists st|].
  destruct IH as (st1 & E1 & P1); [intros k s Hk; apply Hstep; lia|].
  destruct (Hstep n st1) as (st2 & E2 & P2); [lia | done |].
  exists st2. split; [|done].
  rewrite range_S, for_each_app, E1, bind_Ret_l. simpl. by rewrite E2.
Qed.

(** *** Tables: lists of lists *)

Lemma square_replicate {A : Type} (n : nat) (x : A) :
  square n (replicate n (replicate n x)).
Proof.
  split; [by rewrite length_replicate|].
  intros i row [-> _]%lookup_replicate. by rewrite length_replicate.
Qed.

Lemma entry_replicate {A : Type} (n : nat) (x : A) i j :
  i < n -> j < n -> entry (replicate n (replicate n x)) i j = Some x.
Proof.
  intros Hi Hj. unfold entry.
  rewrite lookup_replicate_2 by done. simpl. by rewrite lookup_replicate_2.
Qed.

Lemma square_entry {A : Type} (n : nat) (R : list (list A)) i j :
  square n R -> i < n -> j < n -> is_Some (entry R i j).
Proof.
  intros [Hlen Hrows] Hi Hj. unfold entry.
  destruct (lookup_lt_is_Some_2 R i) as [row Hrow]; [lia|].
  rewrite Hrow. simpl. apply lookup_lt_is_Some_2. rewrite (Hrows i row Hrow). lia.
Qed.

Lemma get2_entry {A : Type} (R : list (list A)) i j x :
  get2 R i j = Ret x <-> entry R i j = Some x.
Proof.
  unfold get2, entry, getitem. destruct (R !! i) as [row|]; simpl; [|split; done].
  destruct (row !! j); split; congruence.
Qed.

Lemma set2_square {A : Type} (n : nat) (R : list (list A)) i j x :
  square n R -> i < n -> j < n ->
  exists R', set2 R i j x = Ret R' /\ square n R'
    /\ forall i' j', entry R' i' j'
         = if decide (i' = i /\ j' = j) then Some x else entry R i' j'.
Proof.
  intros [Hlen Hrows] Hi Hj. unfold set2, getitem, setitem.
  destruct (lookup_lt_is_Some_2 R i) as [row Hrow]; [lia|].
  rewrite Hrow. simpl. pose proof (Hrows i row Hrow) as Hr.
  rewrite decide_True by lia. simpl. rewrite decide_True by lia.
  eexists. split; [done|]. split; [split|].
  - by rewrite length_insert.
  - intros i' row'. destruct (decide (i' = i)) as [->|Hne].
    + rewrite list_lookup_insert_eq by lia. intros [= <-]. by rewrite length_insert.
    + rewrite list_lookup_insert_ne by done. apply Hrows.
  - intros i' j'. unfold entry. destruct (decide (i' = i)) as [->|Hne].
    + rewrite list_lookup_insert_eq by lia. simpl.
      destruct (decide (j' = j)) as [->|Hne'].
      * rewrite list_lookup_insert_eq by lia. by rewrite decide_True.
      * rewrite list_lookup_insert_ne by done. rewrite decide_False by tauto.
        by rewrite Hrow.
    + rewrite list_lookup_insert_ne by done. by rewrite decide_False by tauto.
Qed.

(** Two nested loops over [range(len(R))] that assign [f i j] to every
    [R[i][j]], where [f] does not read [R]: the result is the table of [f]. *)
Lemma fill_table {A : Type} (n : nat) (f : nat -> nat -> A)
    (body : nat -> nat -> list (list A) -> res (list (list A))) (R : list (list A)) :
  square n R ->
  (forall i j R, square n R -> i < n -> j < n -> body i j R = set2 R i j (f i j)) ->
  exists R',
    for_each (range (length R))
      (fun i R => for_each (range (length R)) (fun j R => body i j R) R) R
      = Ret R'
    /\ square n R'
    /\ forall i j, i < n -> j < n -> entry R' i j = Some (f i j).
Proof.
  intros Hsq Hbody. rewrite (proj1 Hsq).
  destruct (for_range_total
    (fun k R => square n R /\ forall i j, i < k -> j < n -> entry R i j = Some (f i j))
    n (fun i R => for_each (range (length R)) (fun j R => body i j R) R) R)
    as (R' & E & Hsq' & HR'); [split; [done|lia] | | by exists R'].
  clear R Hsq. intros i R Hi [Hsq Hdone]. rewrite (proj1 Hsq).
  destruct (for_range_total
    (fun k R1 => square n R1
       /\ (forall i' j, i' < i -> j < n -> entry R1 i' j = Some (f i' j))
       /\ (forall j, j < k -> entry R1 i j = Some (f i j)))
    n (fun j R => body i j R) R)
    as (R1 & E1 & Hsq1 & Hrows & Hrow); [split; [done|split; [done|lia]] | |].
  - intros j R1 Hj (Hsq1 & Hrows & Hrow).
    rewrite Hbody by done.
    destruct (set2_square n R1 i j (f i j) Hsq1 Hi Hj) as (R2 & -> & Hsq2 & Hent).
    exists R2. split; [done|]. split; [done|]. split.
    + intros i' j' Hi' Hj'. rewrite Hent, decide_False by lia. by apply Hrows.
    + intros j' Hj'. rewrite Hent. case_decide; [naive_solver|].
      apply Hrow. lia.
  - exists R1. split; [done|]. split; [done|].
    intros i' j Hi' Hj. destruct (decide (i' = i)) as [->|].
    + by apply Hrow.
    + apply Hrows; [lia | done].
Qed.

Lemma append_cell_square (n : nat) (g : list (list (list string))) i j a :
  square n g -> i < n -> j < n ->
  exists g', append_cell g i j a = Ret g' /\ square n g'
    /\ forall i' j', entry g' i' j'
         = if decide (i' = i /\ j' = j)
           then (fun cell => cell ++ [a]) <$> entry g i j
           else entry g i' j'.
Proof.
  intros Hsq Hi Hj. unfold append_cell.
  destruct (square_entry n g i j Hsq Hi Hj) as [cell Hcell].
  rewrite (proj2 (get2_entry g i j cell) Hcell), bind_Ret_l.
  destruct (set2_square n g i j (cell ++ [a]) Hsq Hi Hj) as (g' & -> & Hsq' & Hent).
  exists g'. split; [done|]. split; [done|].
  intros i' j'. rewrite Hent, Hcell. done.
Qed.

(** *** The dictionaries of [__init__] *)

Lemma make_state2id_spec (sts : list string) :
  exists d, make_state2id sts (length sts) = Ret d
    /\ (forall s i, d !! s = Some i -> sts !! i = Some s)
    /\ (forall s, s ∈ sts -> is_Some (d !! s)).
Proof.
  unfold make_state2id.
  destruct (for_range_total
    (fun k (d : gmap string nat) =>
       (forall s i, d !! s = Some i -> sts !! i = Some s)
       /\ (forall i s, i < k -> sts !! i = Some s -> is_Some (d !! s)))
    (length sts) (fun i d => s ← getitem sts i; Ret (<[s:=i]> d)) ∅)
    as (d & E & Ha & Hb).
  - split; [intros s i; by rewrite lookup_empty | lia].
  - intros k d Hk [Ha Hb].
    destruct (getitem_lt sts k Hk) as (s & -> & Hs). rewrite bind_Ret_l.
    eexists. split; [done|]. split.
    + intros s' i. destruct (decide (s = s')) as [->|Hne].
      * rewrite lookup_insert_eq. by intros [= <-].
      * rewrite lookup_insert_ne by done. apply Ha.
    + intros i s' Hi Hs'. destruct (decide (s = s')) as [->|Hne].
      * rewrite lookup_insert_eq. eauto.
      * rewrite lookup_insert_ne by done. apply (Hb i); [|done].
        destruct (decide (i = k)) as [->|]; [congruence | lia].
  - exists d. split; [done|]. split; [done|].
    intros s [i Hi]%list_elem_of_lookup. apply (Hb i); [|done].
    by eapply lookup_lt_Some.
Qed.

Lemma make_id2state_spec (sts : list string) :
  exists d, make_id2state sts (length sts) = Ret d
    /\ forall v, d !! v = sts !! v.
Proof.
  unfold make_id2state.
  destruct (for_range_total
    (fun k (d : gmap nat string) =>
       forall v, d !! v = if decide (v < k) then sts !! v else None)
    (length sts) (fun i d => s ← getitem sts i; Ret (<[i:=s]> d)) ∅)
    as (d & E & Hd).
  - intros v. rewrite lookup_empty. by rewrite decide_False by lia.
  - intros k d Hk Hd.
    destruct (getitem_lt sts k Hk) as (s & -> & Hs). rewrite bind_Ret_l.
    eexists. split; [done|]. intros v.
    destruct (decide (k = v)) as [->|Hne].
    + rewrite lookup_insert_eq. by rewrite decide_True by lia.
    + rewrite lookup_insert_ne, Hd by done.
      destruct (decide (v < k)); [by rewrite decide_True by lia|].
      by rewrite decide_False by lia.
  - exists d. split; [done|]. intros v. rewrite Hd. case_decide; [done|].
    symmetry. apply lookup_ge_None. lia.
Qed.

(** *** What [__create_graphs] builds *)

Lemma syms_by_id_snoc d T s1 a s2 i j :
  syms_by_id d (T ++ [(s1, a, s2)]) i j
  = syms_by_id d T i j
    ++ (if decide (d !! s1 = Some i /\ d !! s2 = Some j) then [a] else []).
Proof. unfold syms_by_id. rewrite flat_map_app. simpl. by rewrite app_nil_r. Qed.

Lemma usyms_by_id_snoc d T s1 a s2 i j :
  usyms_by_id d (T ++ [(s1, a, s2)]) i j
  = usyms_by_id d T i j
    ++ (if decide (d !! s1 = Some i /\ d !! s2 = Some j) then [a] else [])
    ++ (if decide (d !! s2 = Some i /\ d !! s1 = Some j) then [a] else []).
Proof. unfold usyms_by_id. rewrite flat_map_app. simpl. by rewrite app_nil_r. Qed.

Lemma create_graphs_inv (n : nat) (d : gmap string nat) (tr : list string) :
  (forall s i, d !! s = Some i -> i < n) ->
  forall T g ug g' ug',
  square n g -> square n ug ->
  (forall i j, i < n -> j < n -> entry g i j = Some (syms_by_id d T i j)) ->
  (forall i j, i < n -> j < n -> entry ug i j = Some (usyms_by_id d T i j)) ->
  __create_graphs d tr g ug = Ret (g', ug') ->
  square n g' /\ square n ug' /\ well_formed tr
  /\ (forall t, t ∈ triples tr -> is_Some (d !! t.1.1) /\ is_Some (d !! t.2))
  /\ (forall i j, i < n -> j < n ->
        entry g' i j = Some (syms_by_id d (T ++ triples tr) i j))
  /\ (forall i j, i < n -> j < n ->
        entry ug' i j = Some (usyms_by_id d (T ++ triples tr) i j)).
Proof.
  intros Hd. unfold __create_graphs.
  induction tr as [|el tr IH]; intros T g ug g' ug' Hsq Husq Hg Hug.
  - intros [= <- <-]. rewrite app_nil_r.
    split; [done|]. split; [done|]. split; [constructor|].
    split; [|done]. intros t Ht. by apply elem_of_nil in Ht.
  - intros Hrun. simpl in Hrun.
    apply bind_Ret in Hrun as ([g1 ug1] & Hstep & Hrest).
    apply bind_Ret in Hstep as ([[s1 a] s2] & Hel & Hstep).
    apply bind_Ret in Hstep as (i1 & H1%getkey_Ret & Hstep).
    apply bind_Ret in Hstep as (i2 & H2%getkey_Ret & Hstep).
    pose proof (Hd _ _ H1) as Hi1. pose proof (Hd _ _ H2) as Hi2.
    destruct (append_cell_square n g i1 i2 a Hsq Hi1 Hi2) as (ga & Ea & Hsqa & Ha).
    rewrite Ea, bind_Ret_l in Hstep.
    destruct (append_cell_square n ug i1 i2 a Husq Hi1 Hi2) as (ub & Eb & Hsqb & Hb).
    rewrite Eb, bind_Ret_l in Hstep.
    destruct (append_cell_square n ub i2 i1 a Hsqb Hi2 Hi1) as (uc & Ec & Hsqc & Hc).
    rewrite Ec, bind_Ret_l in Hstep. injection Hstep as <- <-.
    assert (Htri : triple_of el = Some (s1, a, s2)) by (unfold triple_of; by rewrite Hel).
    specialize (IH (T ++ [(s1, a, s2)]) ga uc g' ug' Hsqa Hsqc).
    rewrite (A1Facts.triples_cons _ _ _ Htri), (cons_middle _ T), app_assoc.
    destruct IH as (Hsq' & Husq' & Hwf & Hdecl & Hg' & Hug'); [| |done|].
    + intros i j Hi Hj. rewrite Ha, syms_by_id_snoc.
      rewrite (decide_ext (d !! s1 = Some i /\ d !! s2 = Some j) (i = i1 /\ j = i2))
        by (rewrite H1, H2; naive_solver).
      case_decide as Hc1.
      * destruct Hc1 as [-> ->]. by rewrite Hg by done.
      * rewrite Hg by done. by rewrite app_nil_r.
    + intros i j Hi Hj. rewrite usyms_by_id_snoc.
      rewrite (decide_ext (d !! s1 = Some i /\ d !! s2 = Some j) (i = i1 /\ j = i2))
        by (rewrite H1, H2; naive_solver).
      rewrite (decide_ext (d !! s2 = Some i /\ d !! s1 = Some j) (i = i2 /\ j = i1))
        by (rewrite H1, H2; naive_solver).
      rewrite Hc. destruct (decide (i = i2 /\ j = i1)) as [[-> ->]|Hc2].
      * rewrite Hb. destruct (decide (i2 = i1 /\ i1 = i2)) as [[-> _]|Hc3];
          rewrite Hug by done; simpl; by rewrite ?app_nil_r, <- ?app_assoc.
      * rewrite Hb. destruct (decide (i = i1 /\ j = i2)) as [[-> ->]|Hc3];
          rewrite Hug by done; simpl; by rewrite ?app_nil_r, <- ?app_assoc.
    + split; [done|]. split; [done|]. split; [constructor; eauto|]. split; [|done].
      intros t [->|Ht]%elem_of_cons; [simpl; eauto | by apply Hdecl].
Qed.

(** With well-formed transition tokens, one of which names a state that is
    not a key of [state2id], [__create_graphs] raises [KeyError]. *)
Lemma create_graphs_KeyError (n : nat) (d : gmap string nat) (tr : list string) :
  (forall s i, d !! s = Some i -> i < n) ->
  well_formed tr ->
  (exists t, t ∈ triples tr /\ (d !! t.1.1 = None \/ d !! t.2 = None)) ->
  forall g ug, square n g -> square n ug ->
  __create_graphs d tr g ug = Raise KeyError.
Proof.
  intros Hd Hwf Hbad. unfold __create_graphs.
  induction tr as [|el tr IH]; intros g ug Hsq Husq.
  { destruct Hbad as (t & Ht & _). by apply elem_of_nil in Ht. }
  apply Forall_cons in Hwf as [[[[s1 a] s2] Hel] Hwf].
  rewrite (A1Facts.triples_cons _ _ _ Hel) in Hbad.
  unfold triple_of in Hel. destruct (split_trans el) as [t|] eqn:Hsplit; [|done].
  injection Hel as ->. simpl. rewrite Hsplit, bind_Ret_l.
  destruct (d !! s1) as [i1|] eqn:H1.
  2:{ assert (getkey d s1 = Raise KeyError) as -> by (unfold getkey; by rewrite H1).
      by rewrite !bind_Raise_l. }
  rewrite (proj2 (getkey_Ret d s1 i1) H1), bind_Ret_l.
  destruct (d !! s2) as [i2|] eqn:H2.
  2:{ assert (getkey d s2 = Raise KeyError) as -> by (unfold getkey; by rewrite H2).
      by rewrite !bind_Raise_l. }
  rewrite (proj2 (getkey_Ret d s2 i2) H2), bind_Ret_l.
  pose proof (Hd _ _ H1) as Hi1. pose proof (Hd _ _ H2) as Hi2.
  destruct (append_cell_square n g i1 i2 a Hsq Hi1 Hi2) as (ga & -> & Hsqa & _).
  rewrite bind_Ret_l.
  destruct (append_cell_square n ug i1 i2 a Husq Hi1 Hi2) as (ub & -> & Hsqb & _).
  rewrite bind_Ret_l.
  destruct (append_cell_square n ub i2 i1 a Hsqb Hi2 Hi1) as (uc & -> & Hsqc & _).
  rewrite !bind_Ret_l. apply IH; [done| |done|done].
  destruct Hbad as (t & [->|Ht]%elem_of_cons & Hnone); [|eauto].
  simpl in Hnone. destruct Hnone; congruence.
Qed.

(** [__init__] raises [KeyError] whenever a well-formed transition names an
    undeclared state. *)
Lemma init_KeyError sts al ini acc tr :
  well_formed tr ->
  (exists t, t ∈ triples tr /\ (t.1.1 ∉ sts \/ t.2 ∉ sts)) ->
  __init__ sts al ini acc tr = Raise KeyError.
Proof.
  intros Hwf (t & Ht & Hbad). unfold __init__.
  destruct (make_state2id_spec sts) as (d & -> & Hid & Hkey).
  destruct (make_id2state_spec sts) as (d' & -> & Hname).
  rewrite !bind_Ret_l.
  rewrite (create_graphs_KeyError (length sts) d tr); [done| |done| |..].
  - intros s i Hs. eapply lookup_lt_Some. by apply Hid.
  - assert (Hnone : forall s, s ∉ sts -> d !! s = None).
    { intros s Hs. destruct (d !! s) as [i|] eqn:E; [|done].
      destruct Hs. eapply list_elem_of_lookup_2. by apply Hid. }
    exists t. split; [done|]. destruct Hbad; [left | right]; by apply Hnone.
  - apply square_replicate.
  - apply square_replicate.
Qed.

(** *** The instances that [__init__] returns *)

Lemma init_wf sts al ini acc tr self :
  __init__ sts al ini acc tr = Ret self ->
  wf self /\ states self = sts /\ alpha self = al /\ initial self = ini
  /\ accepting self = acc /\ trans self = tr.
Proof.
  unfold __init__.
  destruct (make_state2id_spec sts) as (d & -> & Hid & Hkey).
  destruct (make_id2state_spec sts) as (d' & -> & Hname).
  rewrite !bind_Ret_l. intros ([g ug] & Hcg & [= <-])%bind_Ret.
  assert (Hlt : forall s i, d !! s = Some i -> i < length sts).
  { intros s i Hs. eapply lookup_lt_Some. by apply Hid. }
  apply (create_graphs_inv (length sts) d tr Hlt []) in Hcg
    as (Hsq & Husq & Hwf & Hdecl & Hg & Hug);
    [|apply square_replicate..| |].
  - split; [|done]. split; simpl; try done.
    intros t Ht. destruct (Hdecl t Ht) as [[i1 H1] [i2 H2]].
    split; eapply list_elem_of_lookup_2; eauto.
  - intros i j Hi Hj. unfold empty_graph. by rewrite entry_replicate.
  - intros i j Hi Hj. unfold empty_graph. by rewrite entry_replicate.
Qed.

Lemma wf_id_lt self s i : wf self -> state2id self !! s = Some i -> i < n self.
Proof.
  intros Hwf Hs. rewrite (wf_n _ Hwf). eapply lookup_lt_Some. by eapply wf_id.
Qed.

(** With distinct state names [state2id] is the inverse of the list. *)
Lemma wf_id_NoDup self s i :
  wf self -> NoDup (states self) ->
  state2id self !! s = Some i <-> states self !! i = Some s.
Proof.
  intros Hwf Hnd. split; [by apply wf_id|]. intros Hi.
  destruct (wf_key _ Hwf s) as [i' Hi']; [by eapply list_elem_of_lookup_2|].
  pose proof (wf_id _ Hwf _ _ Hi') as Hs.
  by rewrite (NoDup_lookup _ _ _ _ Hnd Hi Hs).
Qed.

(** *** The traversal *)

Lemma DFS_unfold depth self g u visited :
  __DFS (S depth) self g u visited =
  for_each (range (n self)) (fun v visited =>
      sv ← getkey (id2state self) v;
      if bool_decide (sv ∉ visited)
      then
        iu ← getkey (state2id self) u;
        cell ← get2 g iu v;
        match cell with
        | [] => Ret visited
        | _ :: _ => sv ← getkey (id2state self) v; __DFS depth self g sv visited
        end
      else Ret visited)
    (visited ∪ {[u]}).
Proof. reflexivity. Qed.

Lemma A2_DFS_spec depth self g u visited :
  wf self -> square (n self) g ->
  u ∉ visited ->
  size (list_to_set (C:=gset string) (states self) ∖ visited) < depth ->
  DFS_post self g u visited (__DFS depth self g u visited).
Proof.
  intros Hwf Hsq. revert u visited.
  induction depth as [|depth IH]; intros u visited Hu Hsize; [lia|].
  rewrite DFS_unfold.
  assert (Hlt : u ∈ states self -> forall vis, visited ∪ {[u]} ⊆ vis ->
            size (list_to_set (C:=gset string) (states self) ∖ vis) < depth).
  { intros Hus vis Hsub.
    assert (list_to_set (C:=gset string) (states self) ∖ vis
            ⊂ list_to_set (states self) ∖ visited) as Hss%subset_size; [|lia].
    assert (u ∈ list_to_set (C:=gset string) (states self))
      by (by apply elem_of_list_to_set).
    set_solver. }
  clear Hsize.
  assert (Hinv : visited ∪ {[u]} ⊆ visited ∪ {[u]}
                 /\ forall x, x ∈ visited ∪ {[u]} -> x ∈ visited \/ rtc (arc self g) u x).
  { split; [done|]. intros x [?| ->%elem_of_singleton]%elem_of_union; [by left|].
    right. apply rtc_refl. }
  assert (Hrange : Forall (fun v => v < n self) (range (n self))).
  { apply Forall_forall. intros v Hv%list_elem_of_In%in_seq. lia. }
  revert Hinv Hrange. generalize (range (n self)) as l.
  generalize (visited ∪ {[u]}) at 2 3 4 as vis.
  intros vis l. revert vis.
  induction l as [|v l IHl]; intros vis [Hsub Hreach] Hrange; simpl.
  - split; [done|]. exact Hreach.
  - apply Forall_cons in Hrange as [Hv Hrange].
    rewrite (wf_n _ Hwf) in Hv.
    destruct (lookup_lt_is_Some_2 _ _ Hv) as [sv Hsv].
    assert (Hgv : getkey (id2state self) v = Ret sv).
    { apply getkey_Ret. by rewrite (wf_name _ Hwf). }
    rewrite !Hgv, !bind_Ret_l.
    case_bool_decide as Hvis; [|by apply IHl].
    destruct (state2id self !! u) as [iu|] eqn:Hiu.
    2:{ assert (getkey (state2id self) u = Raise KeyError) as ->
          by (unfold getkey; by rewrite Hiu).
        rewrite !bind_Raise_l. split; [done|]. intros Hus.
        destruct (wf_key _ Hwf u Hus) as [? ?]. congruence. }
    apply getkey_Ret in Hiu as Hgu. rewrite Hgu in IHl |- *. rewrite bind_Ret_l.
    assert (Hus : u ∈ states self).
    { eapply list_elem_of_lookup_2. by eapply wf_id. }
    destruct (square_entry (n self) g iu v Hsq) as [cell Hcell].
    { by eapply wf_id_lt. }
    { by rewrite (wf_n _ Hwf). }
    rewrite (proj2 (get2_entry g iu v cell) Hcell), bind_Ret_l.
    destruct cell as [|c cell]; [rewrite bind_Ret_l; by apply IHl|].
    specialize (IH sv vis Hvis (Hlt Hus vis Hsub)).
    destruct (__DFS depth self g sv vis) as [vis'|e];
      [rewrite bind_Ret_l | rewrite bind_Raise_l]; simpl in IH.
    + destruct IH as [Hsub' Hreach'].
      apply IHl; [|done]. split; [set_solver|].
      intros x Hx. destruct (Hreach' x Hx) as [Hx'|Hx']; [by apply Hreach|].
      right. eapply rtc_l; [|exact Hx']. by exists iu, v, c, cell.
    + destruct IH as [_ Hno]. destruct Hno. by eapply list_elem_of_lookup_2.
Qed.

(** The depth [DFS_depth] is enough for a traversal that starts from the
    empty set. *)
Lemma A2_DFS_depth self g u :
  wf self -> square (n self) g ->
  DFS_post self g u ∅ (__DFS (DFS_depth self) self g u ∅).
Proof.
  intros Hwf Hsq. apply A2_DFS_spec; [done | done | set_solver |].
  unfold DFS_depth. rewrite difference_empty_L, (wf_n _ Hwf).
  pose proof (size_list_to_set_le (states self)). lia.
Qed.

(** *** The depth that the interpreter allows *)

(** A traversal that did not run out of depth answers the same with more
    depth. *)
Lemma A2_DFS_mono d : forall d' self g u visited r,
  d <= d' -> __DFS d self g u visited = r -> r <> Raise RecursionError ->
  __DFS d' self g u visited = r.
Proof.
  induction d as [|d IH]; intros d' self g u visited r Hle Hr Hne.
  - simpl in Hr. congruence.
  - destruct d' as [|d']; [lia|]. rewrite DFS_unfold in Hr |- *.
    revert Hr. generalize (visited ∪ {[u]}) as vis.
    generalize (range (n self)) as l.
    induction l as [|v l IHl]; intros vis; simpl; [done|].
    destruct (getkey (id2state self) v) as [sv|e]; [|done].
    rewrite !bind_Ret_l.
    case_bool_decide; [|rewrite !bind_Ret_l; apply IHl].
    destruct (getkey (state2id self) u) as [iu|e] eqn:Hiu; [|done].
    rewrite !bind_Ret_l.
    destruct (get2 g iu v) as [cell|e]; [|done].
    rewrite !bind_Ret_l.
    destruct cell as [|c cell]; [rewrite !bind_Ret_l; apply IHl|].
    destruct (__DFS d self g sv vis) as [vis'|e] eqn:Hd.
    + rewrite (IH d' self g sv vis (Ret vis')); [|lia|done|done].
      rewrite !bind_Ret_l. apply IHl.
    + rewrite bind_Raise_l. intros <-.
      by rewrite (IH d' self g sv vis (Raise e)); [|lia|done|done].
Qed.

(** With the depth that the interpreter allows, a traversal from the empty
    set answers as with the depth [DFS_depth], unless the interpreter allows
    less and the traversal runs out of it. *)
Lemma A2_DFS_limit limit self g u :
  wf self -> square (n self) g ->
  __DFS limit self g u ∅ = __DFS (DFS_depth self) self g u ∅
  \/ (__DFS limit self g u ∅ = Raise RecursionError /\ limit < DFS_depth self).
Proof.
  intros Hwf Hsq. pose proof (A2_DFS_depth self g u Hwf Hsq) as Hpost.
  destruct (decide (DFS_depth self <= limit)) as [Hle|Hlt].
  - left. eapply A2_DFS_mono; [exact Hle | done |].
    destruct (__DFS (DFS_depth self) self g u ∅) as [?|e]; [done|].
    destruct Hpost as [-> _]. done.
  - destruct (__DFS limit self g u ∅) as [vis|e] eqn:Hd.
    + left. symmetry. eapply A2_DFS_mono; [|exact Hd|done]. lia.
    + destruct (decide (e = RecursionError)) as [->|Hne].
      * right. split; [done | lia].
      * left. symmetry. eapply A2_DFS_mono; [|exact Hd|congruence]. lia.
Qed.

(** A traversal from the empty set over a non-empty list of states returns
    only when it starts from a declared state. *)
Lemma DFS_Ret_declared depth self g u visited' :
  wf self -> 0 < n self ->
  __DFS (S depth) self g u ∅ = Ret visited' -> u ∈ states self.
Proof.
  intros Hwf Hn. rewrite DFS_unfold. unfold range.
  destruct (n self) as [|m] eqn:En; [lia|]. simpl.
  destruct (lookup_lt_is_Some_2 (states self) 0) as [s0 Hs0].
  { rewrite <- (wf_n _ Hwf). lia. }
  assert (Hg0 : getkey (id2state self) 0 = Ret s0).
  { apply getkey_Ret. by rewrite (wf_name _ Hwf). }
  rewrite !Hg0, !bind_Ret_l.
  case_bool_decide as Hvis.
  - destruct (state2id self !! u) as [iu|] eqn:Hiu.
    + intros _. eapply list_elem_of_lookup_2. by eapply wf_id.
    + assert (getkey (state2id self) u = Raise KeyError) as ->
        by (unfold getkey; by rewrite Hiu).
      by rewrite !bind_Raise_l.
  - intros _. assert (s0 = u) as <- by set_solver. by eapply list_elem_of_lookup_2.
Qed.

(** *** The disjointness check *)

Lemma arc_states self g x y : wf self -> arc self g x y -> x ∈ states self /\ y ∈ states self.
Proof.
  intros Hwf (iu & v & c & cell & Hx & Hy & _). split.
  - eapply list_elem_of_lookup_2. by eapply wf_id.
  - by eapply list_elem_of_lookup_2.
Qed.

Lemma rtc_arc_states self g x y :
  wf self -> x ∈ states self -> rtc (arc self g) x y -> y ∈ states self.
Proof.
  intros Hwf Hx H. induction H as [|x y z Hxy _ IH]; [done|].
  apply IH. by apply (arc_states self g x y).
Qed.

Lemma elem_of_usyms_by_id d T i j a :
  a ∈ usyms_by_id d T i j ->
  exists s1 s2, ((s1, a, s2) ∈ T \/ (s2, a, s1) ∈ T)
    /\ d !! s1 = Some i /\ d !! s2 = Some j.
Proof.
  unfold usyms_by_id. rewrite list_elem_of_In, in_flat_map.
  intros ([[s1 b] s2] & Hin%list_elem_of_In & H).
  apply list_elem_of_In, elem_of_app in H as [H|H];
    (case_decide as Hc; [|by apply elem_of_nil in H]);
    apply list_elem_of_singleton in H; subst b; destruct Hc as [H1 H2].
  - exists s1, s2. auto.
  - exists s2, s1. auto.
Qed.

Lemma arc_linked self x y :
  wf self -> arc self (undirected_graph self) x y -> linked self x y.
Proof.
  intros Hwf (iu & v & c & cell & Hx & Hy & Hcell).
  rewrite (wf_ucells _ Hwf) in Hcell.
  2:{ by eapply wf_id_lt. }
  2:{ rewrite (wf_n _ Hwf). by eapply lookup_lt_Some. }
  injection Hcell as Hcell.
  assert (c ∈ usyms_by_id (state2id self) (triples (trans self)) iu v) as Hc
    by (rewrite Hcell; left).
  apply elem_of_usyms_by_id in Hc as (s1 & s2 & Hin & H1 & H2).
  apply (wf_id _ Hwf) in H1, H2, Hx.
  assert (s1 = x) as -> by congruence. assert (s2 = y) as -> by congruence.
  by exists c.
Qed.

Lemma linked_symmetric self s t : linked self s t -> linked self t s.
Proof. intros [a [H|H]]; exists a; auto. Qed.

(** The traversal of [__check_E6] from a declared state. *)
Lemma check_E6_DFS self i0 :
  wf self -> i0 ∈ states self ->
  exists visited,
    __DFS (DFS_depth self) self (undirected_graph self) i0 ∅ = Ret visited
    /\ i0 ∈ visited
    /\ forall x, x ∈ visited -> x ∈ states self /\ rtc (linked self) i0 x.
Proof.
  intros Hwf Hi0.
  pose proof (A2_DFS_depth self (undirected_graph self) i0 Hwf (wf_ugraph _ Hwf))
    as Hpost.
  destruct (__DFS _ _ _ _ _) as [visited|e]; simpl in Hpost.
  - destruct Hpost as [Hsub Hreach].
    exists visited. split; [done|]. split; [set_solver|].
    intros x Hx. destruct (Hreach x Hx) as [?|Hr]; [set_solver|]. split.
    + by eapply rtc_arc_states.
    + eapply rtc_subrel; [|exact Hr]. intros ? ?. by apply arc_linked.
  - by destruct Hpost as [_ Hno].
Qed.

(** The disjointness check answers as with the depth [DFS_depth], unless
    the interpreter allows less and the traversal runs out of it. *)
Lemma check_E6_limit limit self :
  wf self ->
  __check_E6 limit self = __check_E6 (DFS_depth self) self
  \/ (__check_E6 limit self = Raise RecursionError /\ limit < DFS_depth self).
Proof.
  intros Hwf. unfold __check_E6.
  destruct (getitem (initial self) 0) as [i0|e]; [|by left].
  rewrite !bind_Ret_l.
  destruct (A2_DFS_limit limit self (undirected_graph self) i0 Hwf (wf_ugraph _ Hwf))
    as [->|[-> Hlt]]; [by left | by right].
Qed.

(** With room for one nested call per declared state, the disjointness
    check answers as with the depth [DFS_depth]. *)
Lemma check_E6_enough limit self :
  wf self -> length (states self) < limit ->
  __check_E6 limit self = __check_E6 (DFS_depth self) self.
Proof.
  intros Hwf Hlim. destruct (check_E6_limit limit self Hwf) as [H|[_ Hlt]]; [done|].
  unfold DFS_depth in Hlt. rewrite (wf_n _ Hwf) in Hlt. lia.
Qed.

(** With more than one connected component [__check_E6] answers true. *)
Lemma check_E6_disjoint limit self i0 rest :
  wf self -> initial self = i0 :: rest -> i0 ∈ states self ->
  disjoint_states self -> length (states self) < limit ->
  __check_E6 limit self = Ret true.
Proof.
  intros Hwf Hini Hi0 (s & t & Hs & Ht & Hnot) Hlim.
  rewrite (check_E6_enough limit self Hwf Hlim). unfold __check_E6.
  assert (getitem (initial self) 0 = Ret i0) as -> by (by rewrite Hini).
  rewrite bind_Ret_l.
  destruct (check_E6_DFS self i0 Hwf Hi0) as (visited & -> & _ & Hvis).
  rewrite bind_Ret_l. f_equal. apply negb_true_iff, Nat.eqb_neq.
  assert (exists z, z ∈ states self /\ z ∉ visited) as (z & Hz & Hzv).
  { destruct (decide (s ∈ visited)) as [Hsv|]; [|by exists s].
    destruct (decide (t ∈ visited)) as [Htv|]; [|by exists t].
    destruct Hnot.
    apply Hvis in Hsv as [_ Hsv]. apply Hvis in Htv as [_ Htv].
    transitivity i0; [|done].
    apply rtc_sym; [apply linked_symmetric | done]. }
  assert (visited ⊂ list_to_set (C:=gset string) (states self)) as Hss%subset_size.
  { split.
    - intros x Hx. apply elem_of_list_to_set. by apply Hvis.
    - intros Hsub. apply Hzv, Hsub. by apply elem_of_list_to_set. }
  pose proof (size_list_to_set_le (states self)) as Hle. lia.
Qed.

(** When [__check_E6] answers false the state names are distinct and the
    initial state is declared. *)
Lemma check_E6_pass limit self :
  wf self -> __check_E6 limit self = Ret false ->
  NoDup (states self)
  /\ exists i0 rest, initial self = i0 :: rest /\ i0 ∈ states self.
Proof.
  intros Hwf.
  destruct (check_E6_limit limit self Hwf) as [->|[-> _]]; [|discriminate].
  unfold __check_E6.
  intros (i0 & Hi0 & (visited & Hdfs & [= Hsz])%bind_Ret)%bind_Ret.
  apply negb_false_iff, Nat.eqb_eq in Hsz.
  apply getitem_Ret in Hi0.
  destruct (initial self) as [|i0' rest] eqn:Hini; [done|]. injection Hi0 as ->.
  pose proof (A2_DFS_depth self (undirected_graph self) i0 Hwf (wf_ugraph _ Hwf))
    as Hpost.
  rewrite Hdfs in Hpost. destruct Hpost as [Hsub Hreach].
  assert (Hdecl : i0 ∈ states self).
  { destruct (decide (0 < n self)) as [Hn|Hn].
    - by eapply DFS_Ret_declared.
    - assert (size visited = 0) as Hz by (rewrite (wf_n _ Hwf) in Hn; lia).
      apply size_empty_inv in Hz. set_solver. }
  split; [|eauto].
  apply size_list_to_set_NoDup.
  pose proof (size_list_to_set_le (states self)) as Hle.
  assert (size visited <= size (list_to_set (C:=gset string) (states self)));
    [|lia].
  apply subseteq_size. intros x Hx. apply elem_of_list_to_set.
  destruct (Hreach x Hx) as [?|Hr]; [set_solver|]. by eapply rtc_arc_states.
Qed.

(** *** The membership and symbol checks *)

Lemma check_E4_absent self s :
  first_absent (states self) (initial self ++ accepting self) = Some s ->
  __check_E4 self = Ret s.
Proof.
  rewrite first_absent_app. unfold first_absent, __check_E4.
  destruct (List.find _ (initial self)) as [el|]; [by intros [= ->]|].
  by intros ->.
Qed.

Lemma check_E4_wf self :
  wf self ->
  __check_E4 self
  = Ret (default "" (first_absent (states self) (initial self ++ accepting self))).
Proof.
  intros Hwf.
  destruct (first_absent _ _) as [s|] eqn:Hfirst; [by apply check_E4_absent|].
  rewrite first_absent_app in Hfirst. unfold first_absent in Hfirst.
  unfold __check_E4.
  destruct (List.find _ (initial self)) as [el|]; [done|]. rewrite Hfirst.
  pose proof (wf_trans _ Hwf) as Htr. pose proof (wf_declared _ Hwf) as Hdecl.
  induction (trans self) as [|el l IH]; [done|].
  apply Forall_cons in Htr as [[[[s1 a] s2] Hel] Htr].
  rewrite (A1Facts.triples_cons _ _ _ Hel) in Hdecl.
  unfold triple_of in Hel. destruct (split_trans el) as [t|]; [|done].
  injection Hel as ->. rewrite bind_Ret_l.
  destruct (Hdecl (s1, a, s2)) as [H1 H2]; [left|]. simpl in H1, H2.
  rewrite (bool_decide_eq_false_2 (s1 ∉ states self)) by auto.
  rewrite (bool_decide_eq_false_2 (s2 ∉ states self)) by auto.
  apply IH; [done|]. intros t Ht. apply Hdecl. by right.
Qed.

Lemma check_E5_first_absent self :
  well_formed (trans self) ->
  __check_E5 self
  = Ret (default "" (first_absent (alpha self) (triples (trans self)).*1.*2)).
Proof.
  unfold __check_E5, first_absent. induction (trans self) as [|el l IH]; intros Hwf.
  - reflexivity.
  - apply Forall_cons in Hwf as [[[[s1 a] s2] Hel] Hwf].
    rewrite (A1Facts.triples_cons _ _ _ Hel).
    unfold triple_of in Hel. destruct (split_trans el) as [t|]; [|done].
    injection Hel as ->. simpl.
    case_bool_decide; [done | by apply IH].
Qed.

(** *** The tables of [Kleene] *)

Lemma set2_twice {A : Type} (n : nat) (R : list (list A)) i j x y :
  square n R -> i < n -> j < n ->
  (R1 ← set2 R i j x; _ ← get2 R1 i j; set2 R1 i j y) = set2 R i j y.
Proof.
  intros Hsq Hi Hj.
  destruct (set2_square n R i j x Hsq Hi Hj) as (R1 & E1 & Hsq1 & Hent1).
  rewrite E1, bind_Ret_l.
  assert (get2 R1 i j = Ret x) as ->.
  { apply get2_entry. rewrite Hent1. by rewrite decide_True. }
  rewrite bind_Ret_l.
  destruct Hsq as [Hlen Hrows].
  destruct (lookup_lt_is_Some_2 R i) as [row Hrow]; [lia|].
  pose proof (Hrows i row Hrow) as Hr.
  revert E1. unfold set2, getitem, setitem. rewrite Hrow. simpl.
  rewrite decide_True by lia. simpl. rewrite decide_True by lia.
  intros [= <-]. rewrite list_lookup_insert_eq by lia. simpl.
  rewrite !length_insert. rewrite !(decide_True (P:=j < length row)) by lia. simpl.
  rewrite !(decide_True (P:=i < length R)) by lia.
  by rewrite !list_insert_insert_eq.
Qed.

(** The first pair of loops: every entry is [initial_entry] of the cell of
    the graph. *)
Lemma Kleene_initial_spec self R :
  wf self -> square (n self) R ->
  exists R0, Kleene_initial self R = Ret R0 /\ square (n self) R0
    /\ forall i j, i < n self -> j < n self ->
         entry R0 i j
         = Some (initial_entry
                   (syms_by_id (state2id self) (triples (trans self)) i j) i j).
Proof.
  intros Hwf Hsq. unfold Kleene_initial.
  apply (fill_table (n self)
    (fun i j => initial_entry
                  (syms_by_id (state2id self) (triples (trans self)) i j) i j)); [done|].
  intros i j R1 Hsq1 Hi Hj.
  pose proof (wf_cells _ Hwf i j Hi Hj) as Hcell. apply get2_entry in Hcell.
  rewrite Hcell, bind_Ret_l. unfold initial_entry.
  destruct (syms_by_id _ _ i j) as [|c cell].
  - destruct (Nat.eqb_spec i j);
      [rewrite decide_True by done | rewrite decide_False by done]; done.
  - destruct (set2_square (n self) R1 i j (join "|" (sorted (c :: cell))) Hsq1 Hi Hj)
      as (R2 & E2 & Hsq2 & Hent2).
    rewrite E2, bind_Ret_l.
    assert (get2 R2 i j = Ret (join "|" (sorted (c :: cell)))) as ->.
    { apply get2_entry. rewrite Hent2. by rewrite decide_True. }
    rewrite bind_Ret_l.
    pose proof (set2_twice (n self) R1 i j (join "|" (sorted (c :: cell)))
      (join "|" (sorted (c :: cell)) +:+ (if i =? j then "|eps" else ""))
      Hsq1 Hi Hj) as Htw.
    rewrite E2, bind_Ret_l in Htw.
    assert (get2 R2 i j = Ret (join "|" (sorted (c :: cell)))) as Hget.
    { apply get2_entry. rewrite Hent2. by rewrite decide_True. }
    rewrite Hget, bind_Ret_l in Htw. rewrite Htw.
    destruct (Nat.eqb_spec i j);
      [rewrite decide_True by done | rewrite decide_False by done]; done.
Qed.

Lemma Kleene_cell_spec (n : nat) (Rp : list (list string)) (r : nat -> nat -> string)
    k i j :
  (forall i j, i < n -> j < n -> entry Rp i j = Some (r i j)) ->
  k < n -> i < n -> j < n ->
  Kleene_cell Rp k i j
  = Ret ("(" +:+ r i k +:+ ")(" +:+ r k k +:+ ")*(" +:+ r k j +:+ ")|(" +:+ r i j +:+ ")").
Proof.
  intros Hr Hk Hi Hj. unfold Kleene_cell.
  rewrite (proj2 (get2_entry Rp i k _) (Hr i k Hi Hk)), bind_Ret_l.
  rewrite (proj2 (get2_entry Rp k k _) (Hr k k Hk Hk)), bind_Ret_l.
  rewrite (proj2 (get2_entry Rp k j _) (Hr k j Hk Hj)), bind_Ret_l.
  rewrite (proj2 (get2_entry Rp i j _) (Hr i j Hi Hj)), bind_Ret_l.
  done.
Qed.

(** The three nested loops: after the [n] rounds both tables are the [n]-th
    table of the specification. *)
Lemma Kleene_update_spec (n : nat) (R0 : list (list string)) :
  square n R0 ->
  exists R Rp, Kleene_update R0 R0 = Ret (R, Rp) /\ square n R
    /\ forall i j, i < n -> j < n ->
         entry R i j = Some (R_round (table_fn R0) n i j).
Proof.
  intros Hsq. unfold Kleene_update. rewrite (proj1 Hsq).
  destruct (for_range_total
    (fun k (st : list (list string) * list (list string)) =>
       st.1 = st.2 /\ square n st.1
       /\ forall i j, i < n -> j < n ->
            entry st.1 i j = Some (R_round (table_fn R0) k i j))
    n
    (fun k '(R, R_prev) =>
       R ← for_each (range (length R)) (fun i R =>
              for_each (range (length R)) (fun j R =>
                  x ← Kleene_cell R_prev k i j;
                  set2 R i j x) R) R;
       Ret (R, R))
    (R0, R0)) as ([R Rp] & E & _ & HsqR & HR).
  - split; [done|]. split; [done|]. intros i j Hi Hj. simpl.
    unfold table_fn. by destruct (square_entry n R0 i j Hsq Hi Hj) as [x ->].
  - intros k [R Rp] Hk (Heq & HsqR & HR). simpl in *. subst Rp.
    destruct (fill_table n (fun i j => R_round (table_fn R0) (S k) i j)
      (fun i j R1 => x ← Kleene_cell R k i j; set2 R1 i j x) R HsqR)
      as (R' & -> & Hsq' & HR').
    { intros i j R1 _ Hi Hj.
      by rewrite (Kleene_cell_spec n R (R_round (table_fn R0) k) k i j HR Hk Hi Hj). }
    rewrite bind_Ret_l. eexists. split; [done|]. simpl. auto.
  - exists R, Rp. auto.
Qed.

(** The list comprehension over the accepting states. *)
Lemma Kleene_regs_spec self (R : list (list string)) i0 rest :
  wf self -> square (n self) R ->
  initial self = i0 :: rest -> i0 ∈ states self ->
  Forall (fun f => f ∈ states self) (accepting self) ->
  Kleene_regs self R
  = Ret (map (fun f => table_fn R (index_of self i0) (index_of self f))
           (accepting self)).
Proof.
  intros Hwf Hsq Hini Hi0 Hacc. unfold Kleene_regs.
  match goal with |- for_each _ ?b _ = _ => set (body := b) end.
  assert (Hbody : forall f acc, f ∈ states self ->
    body f acc = Ret (acc ++ [table_fn R (index_of self i0) (index_of self f)])).
  { intros f acc Hf. unfold body.
    assert (getitem (initial self) 0 = Ret i0) as -> by (by rewrite Hini).
    rewrite bind_Ret_l.
    destruct (wf_key _ Hwf i0 Hi0) as [ii Hii].
    destruct (wf_key _ Hwf f Hf) as [j Hj].
    rewrite (proj2 (getkey_Ret _ _ _) Hii), bind_Ret_l.
    pose proof (wf_id_lt _ _ _ Hwf Hii) as Hlti.
    pose proof (wf_id_lt _ _ _ Hwf Hj) as Hltj.
    destruct (square_entry _ R ii j Hsq Hlti Hltj) as [x Hx].
    unfold table_fn, index_of. rewrite Hii, Hj. simpl. rewrite Hx. simpl.
    unfold entry in Hx. destruct (R !! ii) as [row|] eqn:Hrow; [|done]. simpl in Hx.
    rewrite (proj2 (getitem_Ret _ _ _) Hrow), bind_Ret_l.
    rewrite (proj2 (getkey_Ret _ _ _) Hj), bind_Ret_l.
    by rewrite (proj2 (getitem_Ret _ _ _) Hx), bind_Ret_l. }
  clearbody body.
  assert (Hgen : forall acc,
    for_each (accepting self) body acc
    = Ret (acc ++ map (fun f => table_fn R (index_of self i0) (index_of self f))
             (accepting self))); [|by apply (Hgen [])].
  induction Hacc as [|f l Hf Hl IH]; intros acc; simpl; [by rewrite app_nil_r|].
  rewrite Hbody, bind_Ret_l, IH by done. by rewrite <- app_assoc.
Qed.

(** *** An instance that passes [validate] *)

Lemma validate_accepts limit self :
  wf self -> validate limit self = Ret "" ->
  NoDup (states self)
  /\ (exists i0 rest, initial self = i0 :: rest /\ i0 ∈ states self)
  /\ accepting self <> []
  /\ first_absent (states self) (initial self ++ accepting self)
     ∈ [None; Some ""]
  /\ first_absent (alpha self) (triples (trans self)).*1.*2 ∈ [None; Some ""]
  /\ __check_E7 self = Ret false.
Proof.
  intros Hwf. unfold validate.
  destruct (__check_E2 self); [discriminate|].
  destruct (__check_E3 self) eqn:HE3; [discriminate|].
  rewrite (check_E4_wf _ Hwf), bind_Ret_l.
  destruct (truthy _) eqn:HE4; [discriminate|].
  rewrite (check_E5_first_absent _ (wf_trans _ Hwf)), bind_Ret_l.
  destruct (truthy (default "" (first_absent (alpha self) _))) eqn:HE5; [discriminate|].
  intros ([] & HE6 & H)%bind_Ret; [discriminate|].
  apply bind_Ret in H as ([] & HE7 & H); [discriminate|].
  apply check_E6_pass in HE6 as [Hnd Hini]; [|done].
  split; [done|]. split; [done|]. split.
  { unfold __check_E3 in HE3. destruct (accepting self); [discriminate | done]. }
  apply truthy_false in HE4, HE5.
  split; [|split; [|done]].
  - destruct (first_absent (states self) _) as [x|]; simpl in *; subst; set_solver.
  - destruct (first_absent (alpha self) _) as [x|]; simpl in *; subst; set_solver.
Qed.

Lemma syms_by_id_edge_symbols self i j :
  wf self -> NoDup (states self) ->
  syms_by_id (state2id self) (triples (trans self)) i j = edge_symbols self i j.
Proof.
  intros Hwf Hnd. unfold syms_by_id, edge_symbols.
  apply flat_map_ext. intros [[s1 a] s2]. apply decide_ext.
  by rewrite !(wf_id_NoDup self) by done.
Qed.

Lemma elem_of_edge_symbols self i j a :
  a ∈ edge_symbols self i j <->
  exists s1 s2, states self !! i = Some s1 /\ states self !! j = Some s2
    /\ (s1, a, s2) ∈ triples (trans self).
Proof.
  unfold edge_symbols. rewrite list_elem_of_In, in_flat_map. split.
  - intros ([[s1 b] s2] & Hin%list_elem_of_In & H).
    case_decide as Hc; [|by apply list_elem_of_In, elem_of_nil in H].
    apply list_elem_of_In, list_elem_of_singleton in H. subst b.
    destruct Hc. by exists s1, s2.
  - intros (s1 & s2 & H1 & H2 & Hin). exists (s1, a, s2).
    split; [by apply list_elem_of_In|]. rewrite decide_True by done. by left.
Qed.

Lemma index_of_lookup self s :
  wf self -> s ∈ states self -> states self !! index_of self s = Some s.
Proof.
  intros Hwf Hs. unfold index_of. destruct (wf_key _ Hwf s Hs) as [i Hi].
  rewrite Hi. simpl. by eapply wf_id.
Qed.

(** On an instance that passes [validate] and whose accepting states are
    declared, [Kleene] returns the alternation, over the accepting states,
    of the parenthesised entries of the table of round [n]. *)
Lemma Kleene_rounds limit self :
  wf self -> validate limit self = Ret "" ->
  Forall (fun f => f ∈ states self) (accepting self) ->
  exists R0 i0 rest,
    Kleene_initial self (replicate (n self) (replicate (n self) "")) = Ret R0
    /\ initial self = i0 :: rest
    /\ Kleene limit self
       = Ret (join "|"
                (map (fun f =>
                        "(" +:+ R_round (table_fn R0) (n self)
                                  (index_of self i0) (index_of self f) +:+ ")")
                   (accepting self))).
Proof.
  intros Hwf Hv Hacc.
  destruct (validate_accepts _ _ Hwf Hv) as (Hnd & (i0 & rest & Hini & Hi0) & _).
  destruct (Kleene_initial_spec self (replicate (n self) (replicate (n self) ""))
              Hwf (square_replicate _ _)) as (R0 & HR0 & Hsq0 & _).
  destruct (Kleene_update_spec (n self) R0 Hsq0) as (R & Rp & HR & Hsq & Hent).
  exists R0, i0, rest. split; [done|]. split; [done|].
  unfold Kleene. rewrite Hv, bind_Ret_l. simpl truthy. cbv iota.
  rewrite HR0, bind_Ret_l, HR, bind_Ret_l.
  rewrite (Kleene_regs_spec self R i0 rest Hwf Hsq Hini Hi0 Hacc), bind_Ret_l.
  unfold Kleene_result. do 2 f_equal. rewrite map_map.
  apply map_ext_in. intros f Hf%list_elem_of_In. do 2 f_equal.
  rewrite Forall_forall in Hacc.
  unfold table_fn. rewrite Hent; [done| |].
  - rewrite (wf_n _ Hwf). eapply lookup_lt_Some. by apply index_of_lookup.
  - rewrite (wf_n _ Hwf). eapply lookup_lt_Some. apply index_of_lookup; auto.
Qed.

(** *** The determinism check *)

Lemma check_E7_row self u :
  wf self -> u < n self ->
  for_each (range (n self)) (fun v lst =>
      cell ← get2 (graph self) u v; Ret (lst ++ cell)) []
  = Ret (row_symbols self u).
Proof.
  intros Hwf Hu. unfold row_symbols.
  destruct (for_range_total
    (fun k lst =>
       lst = flat_map (fun v => syms_by_id (state2id self) (triples (trans self)) u v)
               (range k))
    (n self)
    (fun v lst => cell ← get2 (graph self) u v; Ret (lst ++ cell)) [])
    as (lst & -> & ->); [done| |done].
  intros k lst Hk ->.
  rewrite (proj2 (get2_entry _ _ _ _) (wf_cells _ Hwf u k Hu Hk)), bind_Ret_l.
  eexists. split; [done|]. rewrite range_S, flat_map_app. simpl.
  by rewrite app_nil_r.
Qed.

Lemma check_E7_spec self :
  wf self ->
  __check_E7 self
  = Ret (existsb (fun u =>
           existsb (fun el => 1 <? count_occ string_dec (row_symbols self u) el)
             (alpha self))
         (range (n self))).
Proof.
  intros Hwf. unfold __check_E7.
  assert (Hr : Forall (fun u => u < n self) (range (n self))).
  { apply Forall_forall. intros v Hv%list_elem_of_In%in_seq. lia. }
  revert Hr. generalize (range (n self)) at 1 3 4 as us.
  induction us as [|u us IH]; intros Hr; [done|].
  apply Forall_cons in Hr as [Hu Hr].
  rewrite (check_E7_row self u Hwf Hu), bind_Ret_l. simpl.
  destruct (existsb _ (alpha self)); [done|]. by apply IH.
Qed.

Lemma count_occ_flat_map_app {A : Type} (X Y : A -> list string) (l : list A) a :
  count_occ string_dec (flat_map (fun v => X v ++ Y v) l) a
  = count_occ string_dec (flat_map X l) a + count_occ string_dec (flat_map Y l) a.
Proof.
  induction l as [|v l IH]; simpl; [done|].
  rewrite !count_occ_app, IH. lia.
Qed.

Lemma flat_map_indicator (m j : nat) (b : string) :
  flat_map (fun v => if decide (v = j) then [b] else []) (range m)
  = if decide (j < m) then [b] else [].
Proof.
  induction m as [|m IH]; [done|].
  rewrite range_S, flat_map_app, IH. simpl.
  destruct (decide (j < m)).
  - rewrite decide_False by lia. by rewrite decide_True by lia.
  - destruct (decide (m = j)) as [->|].
    + by rewrite decide_True by lia.
    + by rewrite decide_False by lia.
Qed.

Lemma flat_map_nil {A B : Type} (l : list A) :
  flat_map (fun _ => @nil B) l = [].
Proof. by induction l. Qed.

(** The number of occurrences of [a] in the row of [u] is the number of
    transitions with the symbol [a] whose source has the index [u]. *)
Lemma count_row (d : gmap string nat) (m u : nat) (a : string)
    (T : list (string * string * string)) :
  (forall t, t ∈ T -> exists j, j < m /\ d !! t.2 = Some j) ->
  count_occ string_dec (flat_map (fun v => syms_by_id d T u v) (range m)) a
  = length (base.filter (fun t => d !! t.1.1 = Some u /\ t.1.2 = a) T).
Proof.
  induction T as [|[[s1 b] s2] T IH]; intros HT.
  - unfold syms_by_id. simpl. by rewrite flat_map_nil.
  - unfold syms_by_id. simpl flat_map at 2. fold (syms_by_id d T u).
    change (fun v => (if decide (d !! s1 = Some u /\ d !! s2 = Some v) then [b] else [])
                     ++ flat_map (fun '(s1, a, s2) =>
                          if decide (d !! s1 = Some u /\ d !! s2 = Some v)
                          then [a] else []) T)
      with (fun v => (fun v => if decide (d !! s1 = Some u /\ d !! s2 = Some v)
                               then [b] else []) v
                     ++ (fun v => syms_by_id d T u v) v).
    rewrite count_occ_flat_map_app, IH by (intros t Ht; apply HT; by right).
    destruct (HT (s1, b, s2)) as (j & Hj & Hs2); [left|]. simpl in Hs2.
    rewrite filter_cons. simpl.
    destruct (decide (d !! s1 = Some u)) as [H1|H1].
    + rewrite (flat_map_ext _ (fun v => if decide (v = j) then [b] else [])).
      2:{ intros v. apply decide_ext. rewrite Hs2. naive_solver. }
      rewrite flat_map_indicator, decide_True by done. simpl.
      destruct (string_dec b a) as [->|Hne].
      * by rewrite decide_True by done.
      * by rewrite decide_False by naive_solver.
    + rewrite (flat_map_ext _ (fun _ => [])).
      2:{ intros v. by rewrite decide_False by naive_solver. }
      rewrite flat_map_nil. simpl. by rewrite decide_False by naive_solver.
Qed.

Lemma length_filter_mono {A : Type} (P Q : A -> Prop)
    `{forall x, Decision (P x)} `{forall x, Decision (Q x)} (l : list A) :
  (forall x, P x -> Q x) ->
  length (base.filter P l) <= length (base.filter Q l).
Proof.
  intros HPQ. induction l as [|x l IH]; [done|].
  rewrite !filter_cons. destruct (decide (P x)) as [HP|].
  - rewrite decide_True by auto. simpl. lia.
  - destruct (decide (Q x)); simpl; lia.
Qed.

(** Two transitions that leave one state with one symbol of the alphabet
    make [__check_E7] answer true. *)
Lemma check_E7_nondeterministic self :
  wf self ->
  (forall t, t ∈ triples (trans self) -> t.1.2 ∈ alpha self) ->
  nondeterministic self -> __check_E7 self = Ret true.
Proof.
  intros Hwf Halpha (s & a & Hlen). rewrite check_E7_spec by done. f_equal.
  assert (exists t, t ∈ base.filter (fun t => t.1.1 = s /\ t.1.2 = a)
                          (triples (trans self))) as [t Ht].
  { destruct (base.filter _ _) as [|t l]; [simpl in Hlen; lia|]. exists t. left. }
  apply list_elem_of_filter in Ht as [[Hs Ha] Ht].
  destruct (wf_declared _ Hwf t Ht) as [Hsrc _]. rewrite Hs in Hsrc.
  destruct (wf_key _ Hwf s Hsrc) as [u Hu].
  apply existsb_exists. exists u. split.
  { apply in_seq. pose proof (wf_id_lt _ _ _ Hwf Hu). lia. }
  apply existsb_exists. exists a. split.
  { apply list_elem_of_In. rewrite <- Ha. by apply Halpha. }
  apply Nat.ltb_lt. unfold row_symbols. rewrite (count_row _ (n self)).
  - eapply Nat.lt_le_trans; [exact Hlen|].
    apply length_filter_mono. intros t' [-> ->]. done.
  - intros t' Ht'. destruct (wf_declared _ Hwf t' Ht') as [_ Hdst].
    destruct (wf_key _ Hwf _ Hdst) as [j Hj]. exists j.
    split; [by eapply wf_id_lt | done].
Qed.

(** *** The answers of [validate] in the order of its checks *)

Lemma validate_E2 limit self :
  initial self = [] -> validate limit self = Ret "E2: Initial state is not defined".
Proof. intros H. unfold validate, __check_E2. by rewrite H. Qed.

Lemma validate_E3 limit self :
  initial self <> [] -> accepting self = [] ->
  validate limit self = Ret "E3: Set of accepting states is empty".
Proof.
  intros Hi Ha. unfold validate, __check_E2, __check_E3. rewrite Ha.
  by destruct (initial self).
Qed.

Lemma validate_E4 limit self s :
  initial self <> [] -> accepting self <> [] ->
  first_absent (states self) (initial self ++ accepting self) = Some s ->
  s <> "" ->
  validate limit self = Ret ("E4: A state '" +:+ s +:+ "' is not in the set of states").
Proof.
  intros Hi Ha Hs Hne. unfold validate, __check_E2, __check_E3.
  destruct (initial self) as [|i0 rest] eqn:Hini; [done|].
  destruct (accepting self) as [|f acc] eqn:Hacc; [done|]. simpl.
  rewrite (check_E4_absent self s), bind_Ret_l by (by rewrite Hini, Hacc).
  by rewrite (proj2 (truthy_true s) Hne).
Qed.

Lemma validate_E5 limit self a :
  wf self -> initial self <> [] -> accepting self <> [] ->
  first_absent (states self) (initial self ++ accepting self) = None ->
  first_absent (alpha self) (triples (trans self)).*1.*2 = Some a ->
  a <> "" ->
  validate limit self
  = Ret ("E5: A transition '" +:+ a +:+ "' is not represented in the alphabet").
Proof.
  intros Hwf Hi Ha Hs Hsym Hne. unfold validate, __check_E2, __check_E3.
  rewrite (check_E4_wf _ Hwf), Hs, (check_E5_first_absent _ (wf_trans _ Hwf)), Hsym.
  destruct (initial self); [done|]. destruct (accepting self); [done|]. simpl.
  by rewrite (proj2 (truthy_true a) Hne).
Qed.

(** From here on the first four checks pass. *)
Lemma validate_E6_E7 limit self :
  wf self -> initial self <> [] -> accepting self <> [] ->
  first_absent (states self) (initial self ++ accepting self) = None ->
  first_absent (alpha self) (triples (trans self)).*1.*2 = None ->
  length (states self) < limit ->
  exists e6 e7,
    __check_E6 limit self = Ret e6 /\ __check_E7 self = Ret e7
    /\ validate limit self
       = Ret (if e6 then "E6: Some states are disjoint"
              else if e7 then "E7: FSA is nondeterministic" else "")
    /\ (disjoint_states self -> e6 = true)
    /\ (nondeterministic self -> e7 = true).
Proof.
  intros Hwf Hi Ha Hs Hsym Hlim.
  destruct (initial self) as [|i0 rest] eqn:Hini; [done|].
  assert (Hi0 : i0 ∈ states self).
  { eapply first_absent_None in Hs; [exact Hs|]. left. }
  destruct (check_E6_DFS self i0 Hwf Hi0) as (visited & Hdfs & _).
  assert (exists e6, __check_E6 limit self = Ret e6) as [e6 HE6].
  { rewrite (check_E6_enough limit self Hwf Hlim). unfold __check_E6.
    assert (getitem (initial self) 0 = Ret i0) as -> by (by rewrite Hini).
    rewrite bind_Ret_l, Hdfs, bind_Ret_l. eauto. }
  exists e6. eexists. split; [done|]. split; [by apply check_E7_spec|].
  split; [|split].
  - unfold validate, __check_E2, __check_E3. rewrite Hini.
    rewrite (check_E4_wf _ Hwf), Hini, Hs.
    rewrite (check_E5_first_absent _ (wf_trans _ Hwf)), Hsym.
    destruct (accepting self); [done|]. simpl.
    rewrite HE6, bind_Ret_l. destruct e6; [done|].
    rewrite check_E7_spec, bind_Ret_l by done. by destruct (existsb _ _).
  - intros Hdis.
    rewrite (check_E6_disjoint limit self i0 rest Hwf Hini Hi0 Hdis Hlim) in HE6.
    by injection HE6.
  - intros Hnd.
    assert (__check_E7 self = Ret true) as HE7.
    { apply check_E7_nondeterministic; [done| |done].
      intros t Ht. eapply first_absent_None in Hsym; [exact Hsym|].
      apply list_elem_of_fmap. exists t.1. split; [done|].
      apply list_elem_of_fmap. by exists t. }
    rewrite check_E7_spec in HE7 by done. by injection HE7.
Qed.

Lemma Kleene_error limit self e :
  validate limit self = Ret e -> e <> "" -> Kleene limit self = Ret e.
Proof.
  intros Hv He. unfold Kleene. rewrite Hv, bind_Ret_l.
  by rewrite (proj2 (truthy_true e) He).
Qed.

End A2Facts.

(** ** The validator: results *)

Module A1Results.
Import Py PyFacts A1 A1Facts.

(** C10.  In the validator, when the list of states is not empty,
    [validate] never fails with an out-of-bounds list access, whatever
    depth of recursion the interpreter allows: [states[0]] exists, and
    [init_st[0]] is read only after [check_E4] has found the list of
    initial states non-empty. *)
Theorem validate_in_bounds (limit : nat) (self : FSA_validator) :
  states self <> [] -> validate limit self <> Raise IndexError.
Proof.
  intros Hne H. apply validate_Raise in H as [H|[H|H]]; [discriminate..|done].
Qed.

Lemma validate_in_bounds_witness :
  states (__init__ ["A"; "B"] ["a"] ["B"] [] ["A>a>B"]) <> []
  /\ validate 1000 (__init__ ["A"; "B"] ["a"] ["B"] [] ["A>a>B"])
     <> Raise IndexError.
Proof.
  split; [simpl; discriminate|].
  apply (validate_in_bounds 1000 (__init__ ["A"; "B"] ["a"] ["B"] [] ["A>a>B"])).
  simpl. discriminate.
Defined.

(** C6.  Two calls of [validate] in succession on one instance of the
    validator, wherever the interpreter allows one call of the traversal:
    the second call enters every edge into the graphs a second time, and
    reports the deterministic one-state automaton as nondeterministic. *)
Theorem validate_twice_differs (limit : nat) :
  (r1 ← validate (S limit) (__init__ ["A"] ["a"] ["A"] ["A"] ["A>a>A"]);
   r2 ← validate (S limit) r1.2;
   Ret (r1.1, r2.1))
  = Ret (("", "FSA is complete", []),
         ("", "FSA is complete", ["W3: FSA is nondeterministic"])).
Proof. vm_compute. reflexivity. Qed.

(** C7.  A transition token with a single separator passes [parse_lines];
    [create_graphs] then raises [ValueError], which [main] does not catch;
    no traversal is reached. *)
Theorem main_one_separator_ValueError (limit : nat) :
  main limit (map (fun l => l +:+ nl)
          ["states=[A]"; "alpha=[a]"; "init.st=[A]"; "fin.st=[A]"; "trans=[A>a]"])
  = Raise ValueError.
Proof. vm_compute. reflexivity. Qed.

(** The other two malformed inputs of C7 are reported as such. *)
Lemma main_missing_trans (limit : nat) :
  main limit (map (fun l => l +:+ nl)
          ["states=[A]"; "alpha=[a]"; "init.st=[A]"; "fin.st=[A]"])
  = Ret ("Error:" +:+ nl +:+ "E5: Input file is malformed" +:+ nl).
Proof. vm_compute. reflexivity. Qed.

Lemma main_wrong_order (limit : nat) :
  main limit (map (fun l => l +:+ nl)
          ["alpha=[a]"; "states=[A]"; "init.st=[A]"; "fin.st=[A]"; "trans=[A>a>A]"])
  = Ret ("Error:" +:+ nl +:+ "E5: Input file is malformed" +:+ nl).
Proof. vm_compute. reflexivity. Qed.

(** C9, as the code has it.  For a fresh instance of the validator with
    an alphabet without repetition and no empty transition symbol, that
    passes the hard checks:
    - the classification is "complete" exactly when the set of outgoing
      symbols of every state is the alphabet;
    - it is "incomplete" exactly when some state lacks an edge for some
      symbol of the alphabet;
    - after the removal of an edge that is the only one leaving its source
      with its symbol, an instance that still passes the hard checks is
      "incomplete".
    This holds whatever depths of recursion the interpreter allows in the
    two calls. *)
Theorem completeness_classification (limit : nat) (self self' : FSA_validator)
    (c : string) (w : list string) :
  graph self = ∅ -> undirected_graph self = ∅ -> NoDup (alpha self) ->
  Forall (fun t => t.1.2 <> "") (triples (trans self)) ->
  validate limit self = Ret (("", c, w), self') ->
  (c = "FSA is complete" <-> covers_alphabet self)
  /\ (c = "FSA is incomplete" <->
      exists s a, s ∈ states self /\ a ∈ alpha self /\ a ∉ out_symbols self s)
  /\ (forall limit2 i el s a t c2 w2 self2,
        trans self !! i = Some el -> triple_of el = Some (s, a, t) ->
        declared (states self) (s, a, t) ->
        count_occ string_dec (out_symbols self s) a = 1 ->
        validate limit2 (remove_trans i self) = Ret (("", c2, w2), self2) ->
        c2 = "FSA is incomplete").
Proof.
  intros Hg Hug Hnd Hne Hv. rewrite Forall_forall in Hne.
  destruct (validate_pass _ _ _ _ _ Hg Hug Hv)
    as (Hwf & g & ug & Hg' & Hug' & -> & -> & (fa & HE3 & Hfa) & _ & _).
  assert (Hsym : forall t, t ∈ triples (trans self) -> t.1.2 ∈ alpha self).
  { eapply (check_E3_pass (set_graphs self g ug)); eauto. }
  assert (Hsym' : forall t, t ∈ edges self -> t.1.2 ∈ alpha self).
  { intros t Ht. apply Hsym. unfold edges in Ht.
    by apply list_elem_of_filter in Ht as [_ ?]. }
  split; [|split].
  - by apply completion_complete.
  - rewrite completion_incomplete by done. split.
    + intros (s & Hs & Hlt). apply short_of_alphabet in Hlt as (a & Ha & Hout); eauto.
    + intros (s & a & Hs & Ha & Hout). exists s. split; [done|].
      apply short_of_alphabet; eauto.
  - intros limit2 i el s a t c2 w2 self2 Hi Hel Hd Hcount Hv2.
    destruct (validate_pass limit2 (remove_trans i self) c2 w2 self2
                eq_refl eq_refl Hv2)
      as (Hwf2 & g2 & ug2 & Hg2 & _ & -> & -> & (fa2 & HE32 & Hfa2) & _ & _).
    apply completion_incomplete; [done|].
    exists s. split; [by destruct Hd|].
    apply short_of_alphabet; [done| |].
    + intros t' Ht'. unfold edges in Ht'. apply list_elem_of_filter in Ht' as [_ Ht'].
      apply (Hsym t'). simpl in Ht'. by eapply triples_delete_subset.
    + exists a. split; [|by eapply out_symbols_remove].
      apply (Hsym (s, a, t)). unfold triples. apply list_elem_of_omap.
      exists el. split; [by eapply list_elem_of_lookup_2 | done].
Qed.

Lemma completeness_classification_witness :
  "FSA is complete" = "FSA is complete"
  <-> covers_alphabet (__init__ ["A"; "B"] ["a"; "b"] ["A"] ["B"]
                         ["A>a>B"; "A>b>A"; "B>a>A"; "B>b>B"]).
Proof.
  refine (proj1 (completeness_classification 1000
                   (__init__ ["A"; "B"] ["a"; "b"] ["A"] ["B"]
                      ["A>a>B"; "A>b>A"; "B>a>A"; "B>b>B"])
                   _ "FSA is complete" [] eq_refl eq_refl _ _ _)).
  - refine (bool_decide_unpack _ _). vm_compute. exact I.
  - refine (bool_decide_unpack _ _). vm_compute. exact I.
  - vm_compute. reflexivity.
Defined.

(** C9, as stated, fails: in a complete automaton with two edges that leave
    one state with one symbol, the removal of one of them leaves the
    automaton complete. *)
Lemma remove_edge_still_complete :
  validate_result 1000
    (__init__ ["A"; "B"] ["a"] ["A"] ["B"] ["A>a>A"; "A>a>B"; "B>a>A"])
  = Ret ("", "FSA is complete", ["W3: FSA is nondeterministic"])
  /\ validate_result 1000
       (remove_trans 0
          (__init__ ["A"; "B"] ["a"] ["A"] ["B"] ["A>a>A"; "A>a>B"; "B>a>A"]))
     = Ret ("", "FSA is complete", []).
Proof. split; vm_compute; reflexivity. Qed.

End A1Results.

(** ** The translator: results *)

Module A2Results.
Import Py PyFacts A2 A2Facts.

(** C2.  For an automaton that [__init__] builds and [validate] accepts,
    the first pair of loops of [Kleene] returns a table [R0] in which the
    entry [(i, j)] is: the symbols on the transitions from state [i] to
    state [j], sorted and joined by ["|"], followed by ["|eps"] when
    [i = j]; ["{}"] when there is no such transition and [i <> j]; ["eps"]
    when there is none and [i = j]. *)
Theorem Kleene_initial_table (limit : nat) (sts al ini acc tr : list string)
    (self : FSA) :
  __init__ sts al ini acc tr = Ret self -> validate limit self = Ret "" ->
  exists R0,
    Kleene_initial self (replicate (n self) (replicate (n self) "")) = Ret R0
    /\ forall i j, i < length (states self) -> j < length (states self) ->
       exists x, get2 R0 i j = Ret x
         /\ Sorted str_le (sorted (edge_symbols self i j))
         /\ sorted (edge_symbols self i j) ≡ₚ edge_symbols self i j
         /\ (edge_symbols self i j <> [] ->
             x = join "|" (sorted (edge_symbols self i j))
                 +:+ (if decide (i = j) then "|eps" else ""))
         /\ (edge_symbols self i j = [] -> i <> j -> x = "{}")
         /\ (edge_symbols self i j = [] -> i = j -> x = "eps").
Proof.
  intros Hinit Hv. apply init_wf in Hinit as [Hwf _].
  destruct (validate_accepts _ _ Hwf Hv) as (Hnd & _).
  destruct (Kleene_initial_spec self (replicate (n self) (replicate (n self) ""))
              Hwf (square_replicate _ _)) as (R0 & HR0 & Hsq0 & Hent).
  exists R0. split; [done|]. intros i j Hi Hj.
  rewrite <- (wf_n _ Hwf) in Hi, Hj. specialize (Hent i j Hi Hj).
  rewrite syms_by_id_edge_symbols in Hent by done.
  eexists. split; [by apply get2_entry|].
  split; [apply sorted_Sorted|]. split; [apply sorted_Permutation|].
  unfold initial_entry. destruct (edge_symbols self i j) as [|c cell].
  - split; [done|]. split; intros _ Hij; [by rewrite decide_False | by rewrite decide_True].
  - split; [done|]. split; intros [=].
Qed.

Lemma Kleene_initial_table_witness :
  match __init__ ["A"; "B"] ["a"; "b"] ["A"] ["B"] ["A>b>B"; "A>a>B"; "B>b>B"] with
  | Ret self =>
      validate 1000 self = Ret ""
      /\ exists R0,
           Kleene_initial self (replicate (n self) (replicate (n self) "")) = Ret R0
           /\ forall i j, i < length (states self) -> j < length (states self) ->
              exists x, get2 R0 i j = Ret x
                /\ Sorted str_le (sorted (edge_symbols self i j))
                /\ sorted (edge_symbols self i j) ≡ₚ edge_symbols self i j
                /\ (edge_symbols self i j <> [] ->
                    x = join "|" (sorted (edge_symbols self i j))
                        +:+ (if decide (i = j) then "|eps" else ""))
                /\ (edge_symbols self i j = [] -> i <> j -> x = "{}")
                /\ (edge_symbols self i j = [] -> i = j -> x = "eps")
  | Raise _ => False
  end.
Proof.
  assert (Hv : match __init__ ["A"; "B"] ["a"; "b"] ["A"] ["B"]
                       ["A>b>B"; "A>a>B"; "B>b>B"] with
               | Ret self => validate 1000 self = Ret ""
               | Raise _ => False
               end) by (vm_compute; reflexivity).
  destruct (__init__ ["A"; "B"] ["a"; "b"] ["A"] ["B"] ["A>b>B"; "A>a>B"; "B>b>B"])
    as [self|e] eqn:Hinit; [|exact Hv].
  split; [exact Hv|].
  exact (Kleene_initial_table 1000 _ _ _ _ _ self Hinit Hv).
Defined.

(** The table of the example of C2, computed. *)
Lemma Kleene_initial_example :
  (self ← __init__ ["A"; "B"] ["a"; "b"] ["A"] ["B"] ["A>b>B"; "A>a>B"; "B>b>B"];
   Kleene_initial self (replicate (n self) (replicate (n self) "")))
  = Ret [["eps"; "a|b"]; ["{}"; "b|eps"]].
Proof. vm_compute. reflexivity. Qed.

(** The statement of C1 on the automata whose accepting states are
    declared: [Kleene] runs [n] rounds, each round being the table of the
    specification computed from the table of the round before, and returns
    the alternation over the accepting states [f] of the parenthesised
    [R^n[initial][f]]; one accepting state gives one parenthesised term. *)
Lemma Kleene_alternation (limit : nat) (sts al ini acc tr : list string)
    (self : FSA) :
  __init__ sts al ini acc tr = Ret self -> validate limit self = Ret "" ->
  Forall (fun f => f ∈ states self) (accepting self) ->
  exists R0 i0 rest,
    Kleene_initial self (replicate (n self) (replicate (n self) "")) = Ret R0
    /\ n self = length (states self)
    /\ initial self = i0 :: rest
    /\ states self !! index_of self i0 = Some i0
    /\ Forall (fun f => states self !! index_of self f = Some f) (accepting self)
    /\ Kleene limit self
       = Ret (join "|"
                (map (fun f =>
                        "(" +:+ R_round (table_fn R0) (n self)
                                  (index_of self i0) (index_of self f) +:+ ")")
                   (accepting self)))
    /\ (forall f, accepting self = [f] ->
        Kleene limit self
        = Ret ("(" +:+ R_round (table_fn R0) (n self)
                         (index_of self i0) (index_of self f) +:+ ")")).
Proof.
  intros Hinit Hv Hacc. apply init_wf in Hinit as [Hwf _].
  destruct (Kleene_rounds limit self Hwf Hv Hacc)
    as (R0 & i0 & rest & HR0 & Hini & HK).
  destruct (validate_accepts _ _ Hwf Hv) as (_ & (i0' & rest' & Hini' & Hi0) & _).
  rewrite Hini in Hini'. injection Hini' as <- <-.
  exists R0, i0, rest. split; [done|]. split; [by apply wf_n|]. split; [done|].
  split; [by apply index_of_lookup|]. split.
  { eapply Forall_impl; [exact Hacc|]. intros f Hf. by apply index_of_lookup. }
  split; [done|]. intros f Hf. rewrite HK, Hf. done.
Qed.

(** C1.  An accepting state with the empty name that is not declared
    passes [validate], because [__check_E4] answers the offending name and
    the empty name is false; [Kleene] then looks it up in [state2id].  This
    is so wherever the interpreter allows one call of the traversal. *)
Theorem Kleene_undeclared_accepting_KeyError (limit : nat) :
  (self ← __init__ ["A"] ["a"] ["A"] ["A"; ""] ["A>a>A"]; validate (S limit) self)
  = Ret ""
  /\ (self ← __init__ ["A"] ["a"] ["A"] ["A"; ""] ["A>a>A"]; Kleene (S limit) self)
     = Raise KeyError
  /\ main (S limit) (map (fun l => l +:+ nl)
             ["states=[A]"; "alpha=[a]"; "initial=[A]"; "accepting=[A,]";
              "trans=[A>a>A]"])
     = Raise KeyError.
Proof. repeat split; vm_compute; reflexivity. Qed.

(** C5.  In the translator a transition that names an undeclared state
    makes [__init__] raise [KeyError], which [main] does not catch: the
    scan of the transitions in [__check_E4] is never reached. *)
Theorem strict_construction_KeyError (limit : nat) :
  __init__ ["A"] ["a"] ["A"] ["A"] ["A>a>B"] = Raise KeyError
  /\ main limit (map (fun l => l +:+ nl)
             ["states=[A]"; "alpha=[a]"; "initial=[A]"; "accepting=[A]";
              "trans=[A>a>B]"])
     = Raise KeyError.
Proof. split; vm_compute; reflexivity. Qed.

(** The lenient half of C5: the validator drops the same transition and
    goes on. *)
Lemma lenient_construction_drops (limit : nat) :
  A1.validate_result (S limit) (A1.__init__ ["A"] ["a"] ["A"] ["A"] ["A>a>B"])
  = Ret ("", "FSA is incomplete", []).
Proof. vm_compute. reflexivity. Qed.

End A2Results.

(** ** The validator: further properties *)

Module A1More.
Import Py PyFacts A1 A1Facts.

(** *** The traversal visits everything reachable *)

(** What a call of [DFS] returns contains the start, and every node it
    adds has all its successors in the result. *)
Lemma A1_DFS_closed depth self undirected : forall u visited visited',
  DFS depth self u visited undirected = Ret visited' ->
  visited ∪ {[u]} ⊆ visited'
  /\ forall x, x ∈ visited' -> x ∉ visited ->
       forall y, arc (graph_of self undirected) x y -> y ∈ visited'.
Proof.
  set (g := graph_of self undirected).
  induction depth as [|depth IH]; intros u visited visited'; [discriminate|].
  rewrite A1Facts.DFS_S. fold g.
  intros (adj & Hadj%getkey_Ret & Hloop)%bind_Ret.
  assert (Hl : forall (l : list (string * string)) vis vis',
    for_each l (fun v visited =>
        if bool_decide (v.1 ∉ visited)
        then DFS depth self v.1 visited undirected
        else Ret visited) vis = Ret vis' ->
    vis ⊆ vis' /\ (forall v, v ∈ l -> v.1 ∈ vis')
    /\ forall x, x ∈ vis' -> x ∉ vis -> forall y, arc g x y -> y ∈ vis').
  { clear Hloop. induction l as [|v l IHl]; intros vis vis'; simpl.
    - intros [= <-]. split; [done|]. split; [|done].
      intros v Hv. by apply elem_of_nil in Hv.
    - intros (vis1 & Hv & Hrest)%bind_Ret.
      destruct (IHl _ _ Hrest) as (Hsub & Hin & Hcl).
      assert (vis ⊆ vis1 /\ v.1 ∈ vis1
              /\ forall x, x ∈ vis1 -> x ∉ vis -> forall y, arc g x y -> y ∈ vis1)
        as (Hsub1 & Hv1 & Hcl1).
      { case_bool_decide as Hvis.
        - destruct (IH _ _ _ Hv) as [Hs Hc]. split; [set_solver|].
          split; [set_solver|]. exact Hc.
        - injection Hv as <-. split; [done|]. split; [done|]. intros x ? ?. done. }
      split; [set_solver|]. split.
      + intros w [->|Hw]%elem_of_cons; [set_solver | by apply Hin].
      + intros x Hx Hnx y Hxy. destruct (decide (x ∈ vis1)) as [Hx1|Hx1].
        * apply Hsub. by eapply Hcl1.
        * by eapply Hcl. }
  destruct (Hl _ _ _ Hloop) as (Hsub & Hin & Hcl).
  split; [done|]. intros x Hx Hnx y Hxy.
  destruct (decide (x = u)) as [->|Hne].
  - destruct Hxy as (adj' & a & Hadj' & Hy). rewrite Hadj in Hadj'.
    injection Hadj' as <-. by apply (Hin (y, a)).
  - eapply Hcl; [exact Hx | set_solver | exact Hxy].
Qed.

(** A traversal from the empty set contains every node reachable from its
    start. *)
Lemma A1_DFS_complete depth self undirected u visited' :
  DFS depth self u ∅ undirected = Ret visited' ->
  forall x, rtc (arc (graph_of self undirected)) u x -> x ∈ visited'.
Proof.
  intros Hdfs. destruct (A1_DFS_closed _ _ _ _ _ _ Hdfs) as [Hsub Hcl].
  intros x Hr. revert x Hr. apply (rtc_ind_r (fun x => x ∈ visited') u).
  - set_solver.
  - intros y z _ Hyz Hy. eapply Hcl; [exact Hy | set_solver | exact Hyz].
Qed.

(** *** The two traversals of [validate] on the built graphs *)

Lemma linked_arc_ug self (ug : gmap string (list (string * string))) x y :
  (forall s, ug !! s = if decide (s ∈ states self)
                       then Some (uadj_of (edges self) s) else None) ->
  linked self x y -> arc ug x y.
Proof.
  intros Hug Hl. destruct (linked_states _ _ _ Hl) as [Hx _].
  destruct Hl as [a Ha]. exists (uadj_of (edges self) x), a. split.
  - by rewrite Hug, decide_True.
  - by apply elem_of_uadj_of.
Qed.

Lemma rtc_step_states self undirected x y :
  x ∈ states self -> rtc (step self undirected) x y -> y ∈ states self.
Proof.
  intros Hx H. induction H as [|x y z Hxy _ IH]; [done|]. apply IH.
  destruct undirected; simpl in Hxy.
  - by apply linked_states in Hxy as [_ ?].
  - destruct Hxy as [a Ha]. unfold edges in Ha.
    by apply list_elem_of_filter in Ha as [[_ ?] _].
Qed.

(** On the built graphs a traversal from a declared state returns exactly
    the states reachable from it. *)
Lemma DFS_built_exact self (g ug : gmap string (list (string * string)))
    (undirected : bool) (u : string) :
  (forall s, g !! s = if decide (s ∈ states self)
                      then Some (adj_of (edges self) s) else None) ->
  (forall s, ug !! s = if decide (s ∈ states self)
                       then Some (uadj_of (edges self) s) else None) ->
  u ∈ states self ->
  exists visited : gset string,
    DFS (DFS_depth (set_graphs self g ug) undirected) (set_graphs self g ug)
      u ∅ undirected = Ret visited
    /\ forall x, x ∈ visited <-> rtc (step self undirected) u x.
Proof.
  intros Hg Hug Hu.
  destruct (DFS_built_Ret self g ug Hg Hug undirected u Hu)
    as (visited & Hdfs & _ & Hsound).
  exists visited. split; [done|]. intros x. split.
  - intros Hx. apply Hsound in Hx as [_ Hr].
    eapply rtc_subrel; [|exact Hr]. intros a b Hab.
    destruct undirected; simpl.
    + by eapply arc_ug_linked.
    + by apply (arc_g_edge self g Hg).
  - intros Hr. eapply A1_DFS_complete; [exact Hdfs|].
    eapply rtc_subrel; [|exact Hr]. intros a b Hab.
    destruct undirected; simpl in *.
    + exact (linked_arc_ug self ug a b Hug Hab).
    + by apply (arc_g_edge self g Hg).
Qed.

(** A set of declared states has as many elements as the list of states
    exactly when the names are distinct and the set holds them all. *)
Lemma size_visited_all (sts : list string) (visited : gset string) :
  (forall x, x ∈ visited -> x ∈ sts) ->
  size visited = length sts <-> NoDup sts /\ forall s, s ∈ sts -> s ∈ visited.
Proof.
  intros Hsub.
  assert (Hss : visited ⊆ list_to_set (C:=gset string) sts).
  { intros x Hx. apply elem_of_list_to_set. by apply Hsub. }
  pose proof (size_list_to_set_le sts) as Hle.
  pose proof (subseteq_size _ _ Hss) as Hle'.
  split.
  - intros Hsz. split.
    + apply size_list_to_set_NoDup. lia.
    + intros s Hs.
      assert (visited = list_to_set (C:=gset string) sts) as ->.
      { apply set_subseteq_size_eq; [done | lia]. }
      by apply elem_of_list_to_set.
  - intros [Hnd Hall]. rewrite <- (size_list_to_set (C:=gset string) sts Hnd).
    f_equal. apply set_eq. intros x. rewrite elem_of_list_to_set. split; auto.
Qed.

(** Without distinct names, or with a state outside the set, the set is
    smaller; the state is found by search. *)
Lemma size_visited_short (sts : list string) (visited : gset string) :
  (forall x, x ∈ visited -> x ∈ sts) ->
  size visited <> length sts ->
  ~ NoDup sts \/ exists s, s ∈ sts /\ s ∉ visited.
Proof.
  intros Hsub Hsz.
  destruct (decide (NoDup sts)) as [Hnd|]; [|by left]. right.
  destruct (decide (Exists (fun s => s ∉ visited) sts)) as [Hex|Hno].
  - apply Exists_exists in Hex as (s & Hs & Hv). eauto.
  - destruct Hsz. apply size_visited_all; [done|]. split; [done|].
    apply not_Exists_Forall in Hno; [|apply _]. rewrite Forall_forall in Hno.
    intros s Hs. apply Hno in Hs. simpl in Hs. by apply dec_stable in Hs.
Qed.

Lemma check_E2_exact self (g ug : gmap string (list (string * string))) s0 :
  (forall s, g !! s = if decide (s ∈ states self)
                      then Some (adj_of (edges self) s) else None) ->
  (forall s, ug !! s = if decide (s ∈ states self)
                       then Some (uadj_of (edges self) s) else None) ->
  head (states self) = Some s0 ->
  exists visited : gset string,
    check_E2 (DFS_depth (set_graphs self g ug) true) (set_graphs self g ug)
    = Ret (negb (size visited =? length (states self)))
    /\ forall x, x ∈ visited <-> rtc (linked self) s0 x.
Proof.
  intros Hg Hug Hs0. unfold check_E2.
  change (states (set_graphs self g ug)) with (states self).
  assert (states self !! 0 = Some s0) as Hl.
  { destruct (states self); [done|]. by injection Hs0 as ->. }
  unfold getitem. rewrite Hl, bind_Ret_l.
  destruct (DFS_built_exact self g ug true s0 Hg Hug) as (visited & -> & Hv).
  { by eapply list_elem_of_lookup_2. }
  exists visited. by rewrite bind_Ret_l.
Qed.

(** The same with the depth that the interpreter allows: the check answers
    so, or the traversal runs out of depth, which takes at least as many
    declared states as the interpreter allows nested calls. *)
Lemma check_E2_built limit self (g ug : gmap string (list (string * string))) s0 :
  (forall s, g !! s = if decide (s ∈ states self)
                      then Some (adj_of (edges self) s) else None) ->
  (forall s, ug !! s = if decide (s ∈ states self)
                       then Some (uadj_of (edges self) s) else None) ->
  head (states self) = Some s0 ->
  exists visited : gset string,
    (forall x, x ∈ visited <-> rtc (linked self) s0 x)
    /\ (check_E2 limit (set_graphs self g ug)
        = Ret (negb (size visited =? length (states self)))
        \/ (check_E2 limit (set_graphs self g ug) = Raise RecursionError
            /\ limit <= length (states self))).
Proof.
  intros Hg Hug Hs0.
  destruct (check_E2_exact self g ug s0 Hg Hug Hs0) as (visited & HE2 & Hv).
  exists visited. split; [done|].
  pose proof (DFS_depth_built self g ug Hg Hug true) as Hle.
  destruct (check_E2_limit limit (set_graphs self g ug)) as [->|[-> Hlt]];
    [by left | right; split; [done | lia]].
Qed.

Lemma check_W2_exact self (g ug : gmap string (list (string * string))) i0 :
  (forall s, g !! s = if decide (s ∈ states self)
                      then Some (adj_of (edges self) s) else None) ->
  (forall s, ug !! s = if decide (s ∈ states self)
                       then Some (uadj_of (edges self) s) else None) ->
  head (init_st self) = Some i0 -> i0 ∈ states self ->
  exists visited : gset string,
    check_W2 (DFS_depth (set_graphs self g ug) false) (set_graphs self g ug)
    = Ret (negb (size visited =? length (states self)))
    /\ forall x, x ∈ visited <-> rtc (edge_to self) i0 x.
Proof.
  intros Hg Hug Hi0 Hdecl. unfold check_W2.
  change (states (set_graphs self g ug)) with (states self).
  change (init_st (set_graphs self g ug)) with (init_st self).
  assert (init_st self !! 0 = Some i0) as Hl.
  { destruct (init_st self); [done|]. by injection Hi0 as ->. }
  unfold getitem. rewrite Hl, bind_Ret_l.
  destruct (DFS_built_exact self g ug false i0 Hg Hug Hdecl) as (visited & -> & Hv).
  exists visited. by rewrite bind_Ret_l.
Qed.

Lemma check_W2_built limit self (g ug : gmap string (list (string * string))) i0 :
  (forall s, g !! s = if decide (s ∈ states self)
                      then Some (adj_of (edges self) s) else None) ->
  (forall s, ug !! s = if decide (s ∈ states self)
                       then Some (uadj_of (edges self) s) else None) ->
  head (init_st self) = Some i0 -> i0 ∈ states self ->
  exists visited : gset string,
    (forall x, x ∈ visited <-> rtc (edge_to self) i0 x)
    /\ (check_W2 limit (set_graphs self g ug)
        = Ret (negb (size visited =? length (states self)))
        \/ (check_W2 limit (set_graphs self g ug) = Raise RecursionError
            /\ limit <= length (states self))).
Proof.
  intros Hg Hug Hi0 Hdecl.
  destruct (check_W2_exact self g ug i0 Hg Hug Hi0 Hdecl) as (visited & HW2 & Hv).
  exists visited. split; [done|].
  pose proof (DFS_depth_built self g ug Hg Hug false) as Hle.
  destruct (check_W2_limit limit (set_graphs self g ug)) as [->|[-> Hlt]];
    [by left | right; split; [done | lia]].
Qed.

(** *** [validate] on a fresh instance, step by step *)

(** [validate] on a fresh instance that passes the membership check, check
    by check, unless the first traversal runs out of depth; [check_E3]
    scans the symbols of all the transitions, dropped ones included, in the
    order of [trans]. *)
Lemma validate_fresh_eq limit self s0 :
  graph self = ∅ -> undirected_graph self = ∅ ->
  well_formed (trans self) ->
  check_E1 self = "" ->
  head (states self) = Some s0 ->
  exists (g ug : gmap string (list (string * string))) (vis : gset string),
    (forall s, g !! s = if decide (s ∈ states self)
                        then Some (adj_of (edges self) s) else None)
    /\ (forall s, ug !! s = if decide (s ∈ states self)
                           then Some (uadj_of (edges self) s) else None)
    /\ (forall x, x ∈ vis <-> rtc (linked self) s0 x)
    /\ (validate limit self =
        (let self' := set_graphs self g ug in
         if negb (size vis =? length (states self))
         then Ret (("E2: Some states are disjoint", "", []), self')
         else
           let fa := default "" (first_absent (alpha self)
                                   ((triples (trans self)).*1.*2)) in
           if truthy fa
           then Ret (("E3: A transition '" +:+ fa
                        +:+ "' is not represented in the alphabet", "", []), self')
           else if check_E4 self
           then Ret (("E4: Initial state is not defined", "", []), self')
           else
             w2 ← check_W2 limit self';
             Ret (("", completion self',
                   (if check_W1 self
                    then ["W1: Accepting state is not defined"] else [])
                   ++ (if w2 : bool
                       then ["W2: Some states are not reachable from the initial state"]
                       else [])
                   ++ (if check_W3 self'
                       then ["W3: FSA is nondeterministic"] else [])), self'))
        \/ (validate limit self = Raise RecursionError
            /\ limit <= length (states self))).
Proof.
  intros Hg0 Hug0 Hwf HE1 Hs0.
  destruct (create_graphs_fresh self Hg0 Hug0 Hwf) as (g & ug & Hcg & Hg & Hug).
  destruct (check_E2_built limit self g ug s0 Hg Hug Hs0) as (vis & Hvis & HE2).
  exists g, ug, vis. split; [done|]. split; [done|]. split; [done|].
  unfold validate. rewrite HE1. change (truthy "") with false. cbv iota.
  rewrite Hcg, bind_Ret_l.
  destruct HE2 as [HE2|[HE2 Hlim]]; rewrite HE2; [|by right].
  left. rewrite bind_Ret_l. cbv zeta.
  destruct (negb (size vis =? length (states self))); [done|].
  rewrite (check_E3_first_absent (set_graphs self g ug)) by done.
  rewrite bind_Ret_l.
  change (alpha (set_graphs self g ug)) with (alpha self).
  change (trans (set_graphs self g ug)) with (trans self).
  destruct (truthy _); [done|].
  change (check_E4 (set_graphs self g ug)) with (check_E4 self).
  destruct (check_E4 self); [done|].
  change (check_W1 (set_graphs self g ug)) with (check_W1 self).
  destruct (check_W2 limit (set_graphs self g ug)) as [w2|e]; [|done].
  rewrite !bind_Ret_l.
  by destruct (check_W1 self), w2, (check_W3 (set_graphs self g ug)).
Qed.

(** A call that reaches the warnings went through every check. *)
Lemma validate_accept_inv limit self c w self' :
  graph self = ∅ -> undirected_graph self = ∅ ->
  validate limit self = Ret (("", c, w), self') ->
  well_formed (trans self) /\ check_E1 self = ""
  /\ exists s0, head (states self) = Some s0.
Proof.
  intros Hg0 Hug0 Hv.
  destruct (validate_pass limit self c w self' Hg0 Hug0 Hv)
    as (Hwf & g & ug & _ & _ & -> & _ & _ & HE2 & _).
  split; [done|]. split.
  - unfold validate in Hv. destruct (truthy (check_E1 self)) eqn:Ht.
    + simpl in Hv. discriminate.
    + by apply truthy_false.
  - unfold check_E2 in HE2. apply bind_Ret in HE2 as (s0 & Hs0 & _).
    apply getitem_Ret in Hs0. exists s0.
    change (states (set_graphs self g ug)) with (states self) in Hs0.
    by destruct (states self) as [|? ?]; simplify_eq/=.
Qed.

(** The first initial state passes the membership check declared, unless
    it is the empty name. *)
Lemma check_E1_head_init self i0 :
  check_E1 self = "" -> head (init_st self) = Some i0 ->
  i0 ∈ states self \/ i0 = "".
Proof.
  intros HE1 Hi0. destruct (decide (i0 ∈ states self)) as [|Hn]; [by left|right].
  unfold check_E1 in HE1. destruct (init_st self) as [|i l]; [done|].
  injection Hi0 as ->. simpl in HE1. by rewrite bool_decide_true in HE1.
Qed.

(** From an initial state that is not declared, the second traversal
    fails at once: the name is not a key of the graph. *)
Lemma check_W2_KeyError limit self (g ug : gmap string (list (string * string))) i0 :
  (forall s, g !! s = if decide (s ∈ states self)
                      then Some (adj_of (edges self) s) else None) ->
  head (init_st self) = Some i0 -> i0 ∉ states self ->
  check_W2 limit (set_graphs self g ug)
  = Raise (match limit with 0 => RecursionError | S _ => KeyError end).
Proof.
  intros Hg Hi0 Hn. unfold check_W2.
  change (init_st (set_graphs self g ug)) with (init_st self).
  assert (getitem (init_st self) 0 = Ret i0) as ->.
  { apply getitem_Ret. by destruct (init_st self); simplify_eq/=. }
  rewrite bind_Ret_l. destruct limit as [|limit]; [done|]. rewrite A1Facts.DFS_S.
  assert (getkey (graph_of (set_graphs self g ug) false) i0 = Raise KeyError) as ->.
  { unfold getkey, graph_of. simpl. by rewrite Hg, decide_False. }
  done.
Qed.

(** The three warnings are told apart by their texts. *)
Lemma warnings_W2 (w1 w2 w3 : bool) :
  "W2: Some states are not reachable from the initial state"
    ∈ (if w1 then ["W1: Accepting state is not defined"] else [])
      ++ (if w2 then ["W2: Some states are not reachable from the initial state"]
          else [])
      ++ (if w3 then ["W3: FSA is nondeterministic"] else [])
  <-> w2 = true.
Proof.
  destruct w1, w2, w3; simpl; rewrite ?elem_of_cons, ?elem_of_nil;
    split; (done || (intros; discriminate) || naive_solver).
Qed.

Lemma warnings_W3 (w1 w2 w3 : bool) :
  "W3: FSA is nondeterministic"
    ∈ (if w1 then ["W1: Accepting state is not defined"] else [])
      ++ (if w2 then ["W2: Some states are not reachable from the initial state"]
          else [])
      ++ (if w3 then ["W3: FSA is nondeterministic"] else [])
  <-> w3 = true.
Proof.
  destruct w1, w2, w3; simpl; rewrite ?elem_of_cons, ?elem_of_nil;
    split; (done || (intros; discriminate) || naive_solver).
Qed.

(** [check_W3] on the built graph. *)
Lemma check_W3_exact self (g ug : gmap string (list (string * string))) :
  (forall s, g !! s = if decide (s ∈ states self)
                      then Some (adj_of (edges self) s) else None) ->
  check_W3 (set_graphs self g ug) = true <-> two_edges_one_symbol self.
Proof.
  intros Hg. unfold check_W3, two_edges_one_symbol.
  change (graph (set_graphs self g ug)) with g.
  change (alpha (set_graphs self g ug)) with (alpha self).
  rewrite existsb_exists. split.
  - intros ([u adj] & Hin & Hex).
    apply list_elem_of_In, elem_of_map_to_list in Hin.
    rewrite Hg in Hin. destruct (decide (u ∈ states self)); [|done].
    injection Hin as <-.
    apply existsb_exists in Hex as (a & Ha%list_elem_of_In & Hc%Nat.ltb_lt).
    exists u, a. by repeat split.
  - intros (s & a & Hs & Ha & Hc).
    exists (s, adj_of (edges self) s). split.
    + apply list_elem_of_In, elem_of_map_to_list. by rewrite Hg, decide_True.
    + apply existsb_exists. exists a. split; [by apply list_elem_of_In|].
      by apply Nat.ltb_lt.
Qed.

(** What [validate] can raise on a fresh instance. *)
Lemma validate_Raise_fresh limit self e :
  graph self = ∅ -> undirected_graph self = ∅ ->
  states self <> [] ->
  validate limit self = Raise e ->
  (e = ValueError /\ ~ well_formed (trans self))
  \/ (e = KeyError /\ head (init_st self) = Some "" /\ "" ∉ states self)
  \/ (e = RecursionError /\ limit <= length (states self)).
Proof.
  intros Hg0 Hug0 Hne Hval.
  assert (HE1 : check_E1 self = "").
  { apply truthy_false. destruct (truthy (check_E1 self)) eqn:Ht; [|done].
    unfold validate in Hval. by rewrite Ht in Hval. }
  destruct (decide (well_formed (trans self))) as [Hwf|Hnwf].
  2:{ left. rewrite (validate_malformed limit self HE1 Hnwf) in Hval.
      by injection Hval as <-. }
  right.
  destruct (states self) as [|s0 sts] eqn:Hsts; [done|]. clear Hne.
  rewrite <- Hsts.
  destruct (validate_fresh_eq limit self s0 Hg0 Hug0 Hwf HE1)
    as (g & ug & vis & Hg & Hug & Hvis & [Hv|[Hv Hlim]]); [by rewrite Hsts| |].
  2:{ right. rewrite Hv in Hval. by injection Hval as <-. }
  rewrite Hv in Hval. cbv zeta in Hval.
  destruct (negb _); [discriminate|].
  destruct (truthy _); [discriminate|].
  destruct (check_E4 self) eqn:HE4; [discriminate|]. unfold check_E4 in HE4.
  destruct (init_st self) as [|i0 ini] eqn:Hini; [done|].
  assert (Hi0 : head (init_st self) = Some i0) by by rewrite Hini.
  destruct (decide (i0 ∈ states self)) as [Hin|Hn].
  { destruct (check_W2_built limit self g ug i0 Hg Hug Hi0 Hin)
      as (vis2 & _ & [HW2|[HW2 Hlim]]); rewrite HW2 in Hval; [done|].
    right. by injection Hval as <-. }
  rewrite (check_W2_KeyError limit self g ug i0 Hg Hi0 Hn) in Hval.
  injection Hval as <-. destruct limit as [|limit]; [right; split; [done|lia]|].
  left.
  destruct (check_E1_head_init self i0 HE1 Hi0) as [?|Hi]; [done|]. by subst i0.
Qed.

End A1More.

(** ** The validator: what [validate] answers *)

Module A1Extra.
Import Py PyFacts A1 A1Facts A1More.

(** X1. On a fresh instance whose transition tokens are well formed and
    whose membership check passes, where the interpreter allows more nested
    calls of the traversal than there are declared states, [validate]
    reports "E2: Some states are disjoint" exactly when a state name is
    declared twice or some declared state is not linked to the first
    declared state by edges taken in either direction. *)
Theorem validate_E2_exact limit self s0 :
  graph self = ∅ -> undirected_graph self = ∅ ->
  well_formed (trans self) ->
  check_E1 self = "" ->
  head (states self) = Some s0 ->
  length (states self) < limit ->
  validate_result limit self = Ret ("E2: Some states are disjoint", "", [])
  <-> ~ NoDup (states self)
      \/ exists s, s ∈ states self /\ ~ rtc (linked self) s0 s.
Proof.
  intros Hg0 Hug0 Hwf HE1 Hs0 Hlim.
  destruct (validate_fresh_eq limit self s0 Hg0 Hug0 Hwf HE1 Hs0)
    as (g & ug & vis & Hg & Hug & Hvis & [Hv|[_ Hlim']]); [|lia].
  assert (Hs0in : s0 ∈ states self).
  { destruct (states self); simplify_eq/=. left. }
  assert (Hsub : forall x, x ∈ vis -> x ∈ states self).
  { intros x Hx%Hvis. by eapply rtc_linked_states. }
  unfold validate_result. rewrite Hv. cbv zeta.
  destruct (size vis =? length (states self)) eqn:Hsz; simpl negb; cbv iota.
  - apply Nat.eqb_eq, size_visited_all in Hsz as [Hnd Hall]; [|done].
    split.
    + intros H. exfalso. revert H.
      destruct (truthy _); [simpl; discriminate|].
      destruct (check_E4 self); [simpl; discriminate|].
      destruct (check_W2 _ _); simpl; discriminate.
    + intros [Hn|(s & Hs & Hn)]; [done|]. destruct Hn. by apply Hvis, Hall.
  - split; [intros _|done]. apply Nat.eqb_neq in Hsz.
    destruct (size_visited_short _ _ Hsub Hsz) as [?|(s & Hs & Hn)]; [by left|].
    right. exists s. split; [done|]. by rewrite <- Hvis.
Qed.

Lemma validate_E2_exact_witness :
  validate_result 1000 (__init__ ["A"; "A"] ["a"] ["A"] [] ["A>a>A"])
  = Ret ("E2: Some states are disjoint", "", []).
Proof.
  apply (validate_E2_exact 1000 (__init__ ["A"; "A"] ["a"] ["A"] [] ["A>a>A"]) "A");
    try reflexivity.
  - refine (bool_decide_unpack _ _). vm_compute. exact I.
  - simpl. lia.
  - left. refine (bool_decide_unpack _ _). vm_compute. exact I.
Defined.

(** X2. On a fresh instance whose transition tokens are well formed and
    whose membership check passes, where the interpreter allows more nested
    calls of the traversal than there are declared states: when the states
    are distinct and all linked to the first one, the first transition
    symbol that is not in the alphabet, unless it is the empty symbol, is
    reported as E3; transitions between undeclared states are scanned
    too. *)
Theorem validate_E3_first_symbol limit self s0 a :
  graph self = ∅ -> undirected_graph self = ∅ ->
  well_formed (trans self) ->
  check_E1 self = "" ->
  head (states self) = Some s0 ->
  length (states self) < limit ->
  NoDup (states self) -> all_linked self s0 ->
  first_absent (alpha self) ((triples (trans self)).*1.*2) = Some a ->
  a <> "" ->
  validate_result limit self
  = Ret ("E3: A transition '" +:+ a +:+ "' is not represented in the alphabet",
         "", []).
Proof.
  intros Hg0 Hug0 Hwf HE1 Hs0 Hlim Hnd Hall Hfa Ha.
  destruct (validate_fresh_eq limit self s0 Hg0 Hug0 Hwf HE1 Hs0)
    as (g & ug & vis & Hg & Hug & Hvis & [Hv|[_ Hlim']]); [|lia].
  unfold validate_result. rewrite Hv. cbv zeta.
  assert (size vis =? length (states self) = true) as ->.
  { apply Nat.eqb_eq, size_visited_all.
    - intros x Hx%Hvis. eapply rtc_linked_states; [|done].
      destruct (states self); simplify_eq/=. left.
    - split; [done|]. intros s Hs. by apply Hvis, Hall. }
  simpl negb. cbv iota. rewrite Hfa. simpl default.
  apply truthy_true in Ha. by rewrite Ha.
Qed.

Lemma validate_E3_first_symbol_witness :
  validate_result 1000 (__init__ ["A"; "B"] ["a"] ["A"] [] ["C>c>C"; "A>b>B"])
  = Ret ("E3: A transition 'c' is not represented in the alphabet", "", []).
Proof.
  apply (validate_E3_first_symbol 1000
           (__init__ ["A"; "B"] ["a"] ["A"] [] ["C>c>C"; "A>b>B"]) "A" "c");
    try reflexivity.
  - refine (bool_decide_unpack _ _). vm_compute. exact I.
  - simpl. lia.
  - refine (bool_decide_unpack _ _). vm_compute. exact I.
  - intros s Hs. apply elem_of_cons in Hs as [->|Hs]; [apply rtc_refl|].
    apply list_elem_of_singleton in Hs as ->. apply rtc_once.
    exists "b". left. refine (bool_decide_unpack _ _). vm_compute. exact I.
  - discriminate.
Defined.

(** X3. On a fresh instance whose transition tokens are well formed and
    whose membership check passes, where the interpreter allows more nested
    calls of the traversal than there are declared states: when the states
    are distinct and all linked to the first one and every transition
    symbol is in the alphabet, an empty list of initial states is reported
    as E4. *)
Theorem validate_E4_no_initial limit self s0 :
  graph self = ∅ -> undirected_graph self = ∅ ->
  well_formed (trans self) ->
  check_E1 self = "" ->
  head (states self) = Some s0 ->
  length (states self) < limit ->
  NoDup (states self) -> all_linked self s0 ->
  (forall t, t ∈ triples (trans self) -> t.1.2 ∈ alpha self) ->
  init_st self = [] ->
  validate_result limit self = Ret ("E4: Initial state is not defined", "", []).
Proof.
  intros Hg0 Hug0 Hwf HE1 Hs0 Hlim Hnd Hall Hsym Hini.
  destruct (validate_fresh_eq limit self s0 Hg0 Hug0 Hwf HE1 Hs0)
    as (g & ug & vis & Hg & Hug & Hvis & [Hv|[_ Hlim']]); [|lia].
  unfold validate_result. rewrite Hv. cbv zeta.
  assert (size vis =? length (states self) = true) as ->.
  { apply Nat.eqb_eq, size_visited_all.
    - intros x Hx%Hvis. eapply rtc_linked_states; [|done].
      destruct (states self); simplify_eq/=. left.
    - split; [done|]. intros s Hs. by apply Hvis, Hall. }
  simpl negb. cbv iota.
  assert (first_absent (alpha self) ((triples (trans self)).*1.*2) = None) as ->.
  { apply first_absent_None. intros x Hx.
    apply list_elem_of_fmap in Hx as (p & -> & Hp).
    apply list_elem_of_fmap in Hp as (t & -> & Ht). by apply Hsym. }
  simpl. unfold check_E4. by rewrite Hini.
Qed.

Lemma validate_E4_no_initial_witness :
  validate_result 1000 (__init__ ["A"; "B"] ["a"] [] ["B"] ["A>a>B"])
  = Ret ("E4: Initial state is not defined", "", []).
Proof.
  apply (validate_E4_no_initial 1000
           (__init__ ["A"; "B"] ["a"] [] ["B"] ["A>a>B"]) "A");
    try reflexivity.
  - refine (bool_decide_unpack _ _). vm_compute. exact I.
  - simpl. lia.
  - refine (bool_decide_unpack _ _). vm_compute. exact I.
  - intros s Hs. apply elem_of_cons in Hs as [->|Hs]; [apply rtc_refl|].
    apply list_elem_of_singleton in Hs as ->. apply rtc_once.
    exists "a". left. refine (bool_decide_unpack _ _). vm_compute. exact I.
  - apply Forall_forall. refine (bool_decide_unpack _ _). vm_compute. exact I.
Defined.

(** X4. When [validate] accepts a fresh instance, whatever depth of
    recursion the interpreter allows, the warning W2 is in the list exactly
    when some declared state cannot be reached from the first initial state
    along directed edges. *)
Theorem validate_W2_exact limit self c w self' i0 :
  graph self = ∅ -> undirected_graph self = ∅ ->
  validate limit self = Ret (("", c, w), self') ->
  head (init_st self) = Some i0 ->
  "W2: Some states are not reachable from the initial state" ∈ w
  <-> exists s, s ∈ states self /\ ~ rtc (edge_to self) i0 s.
Proof.
  intros Hg0 Hug0 Hval Hi0.
  destruct (validate_accept_inv limit self c w self' Hg0 Hug0 Hval)
    as (Hwf & HE1 & s0 & Hs0).
  destruct (validate_fresh_eq limit self s0 Hg0 Hug0 Hwf HE1 Hs0)
    as (g & ug & vis & Hg & Hug & Hvis & [Hv|[Hv _]]);
    [|by rewrite Hv in Hval].
  rewrite Hv in Hval. cbv zeta in Hval.
  destruct (size vis =? length (states self)) eqn:Hsz; simpl negb in Hval;
    cbv iota in Hval; [|discriminate].
  apply Nat.eqb_eq, size_visited_all in Hsz as [Hnd _].
  2:{ intros x Hx%Hvis. eapply rtc_linked_states; [|done].
      destruct (states self); simplify_eq/=. left. }
  destruct (truthy _); [discriminate|].
  destruct (check_E4 self); [discriminate|].
  destruct (decide (i0 ∈ states self)) as [Hin|Hn].
  2:{ by rewrite (check_W2_KeyError limit self g ug i0 Hg Hi0 Hn) in Hval. }
  destruct (check_W2_built limit self g ug i0 Hg Hug Hi0 Hin)
    as (vis2 & Hvis2 & [HW2|[HW2 _]]); [|by rewrite HW2 in Hval].
  rewrite HW2, bind_Ret_l in Hval. injection Hval as _ <- _.
  rewrite warnings_W2.
  assert (Hsub : forall x, x ∈ vis2 -> x ∈ states self).
  { intros x Hx%Hvis2. by apply (rtc_step_states self false i0 x). }
  rewrite negb_true_iff, Nat.eqb_neq. split.
  - intros Hsz. destruct (size_visited_short _ _ Hsub Hsz) as [?|(s & Hs & Hns)];
      [done|]. exists s. split; [done|]. by rewrite <- Hvis2.
  - intros (s & Hs & Hns) Hsz. apply size_visited_all in Hsz as [_ Hall]; [|done].
    apply Hns, Hvis2, Hall, Hs.
Qed.

Lemma validate_W2_exact_witness :
  match validate 1000 (__init__ ["A"; "B"] ["a"] ["B"] ["B"] ["A>a>B"]) with
  | Ret ((_, _, w), _) =>
      "W2: Some states are not reachable from the initial state" ∈ w
      <-> exists s, s ∈ ["A"; "B"]
            /\ ~ rtc (edge_to (__init__ ["A"; "B"] ["a"] ["B"] ["B"] ["A>a>B"])) "B" s
  | Raise _ => False
  end.
Proof.
  assert (match validate 1000 (__init__ ["A"; "B"] ["a"] ["B"] ["B"] ["A>a>B"]) with
          | Ret ((e, _, _), _) => e = ""
          | Raise _ => False
          end) as He by (vm_compute; reflexivity).
  destruct (validate 1000 (__init__ ["A"; "B"] ["a"] ["B"] ["B"] ["A>a>B"]))
    as [[[[e c] w] self']|] eqn:Hv; [|done].
  subst e.
  exact (validate_W2_exact 1000 (__init__ ["A"; "B"] ["a"] ["B"] ["B"] ["A>a>B"])
           c w self' "B" eq_refl eq_refl Hv eq_refl).
Defined.

(** X5. When [validate] accepts a fresh instance, whatever depth of
    recursion the interpreter allows, the warning W3 is in the list exactly
    when some declared state has two outgoing edges that carry the same
    symbol of the alphabet. *)
Theorem validate_W3_exact limit self c w self' :
  graph self = ∅ -> undirected_graph self = ∅ ->
  validate limit self = Ret (("", c, w), self') ->
  "W3: FSA is nondeterministic" ∈ w <-> two_edges_one_symbol self.
Proof.
  intros Hg0 Hug0 Hval.
  destruct (validate_accept_inv limit self c w self' Hg0 Hug0 Hval)
    as (Hwf & HE1 & s0 & Hs0).
  destruct (validate_fresh_eq limit self s0 Hg0 Hug0 Hwf HE1 Hs0)
    as (g & ug & vis & Hg & Hug & Hvis & [Hv|[Hv _]]);
    [|by rewrite Hv in Hval].
  rewrite Hv in Hval. cbv zeta in Hval.
  destruct (negb _); [discriminate|].
  destruct (truthy _); [discriminate|].
  destruct (check_E4 self); [discriminate|].
  destruct (check_W2 _ _) as [w2|]; [|discriminate].
  rewrite bind_Ret_l in Hval. injection Hval as _ <- _.
  rewrite warnings_W3. by apply check_W3_exact.
Qed.

Lemma validate_W3_exact_witness :
  match validate 1000 (__init__ ["A"; "B"] ["a"] ["A"] ["B"] ["A>a>B"; "A>a>A"]) with
  | Ret ((_, _, w), _) =>
      "W3: FSA is nondeterministic" ∈ w
      <-> two_edges_one_symbol
            (__init__ ["A"; "B"] ["a"] ["A"] ["B"] ["A>a>B"; "A>a>A"])
  | Raise _ => False
  end.
Proof.
  assert (match validate 1000
                  (__init__ ["A"; "B"] ["a"] ["A"] ["B"] ["A>a>B"; "A>a>A"]) with
          | Ret ((e, _, _), _) => e = ""
          | Raise _ => False
          end) as He by (vm_compute; reflexivity).
  destruct (validate 1000 (__init__ ["A"; "B"] ["a"] ["A"] ["B"] ["A>a>B"; "A>a>A"]))
    as [[[[e c] w] self']|] eqn:Hv; [|done].
  subst e.
  exact (validate_W3_exact 1000
           (__init__ ["A"; "B"] ["a"] ["A"] ["B"] ["A>a>B"; "A>a>A"])
           c w self' eq_refl eq_refl Hv).
Defined.

(** X6. On a fresh instance with at least one state, [validate] raises in
    three cases only: [ValueError] when a transition token does not split
    into three parts, [KeyError] when the first initial state is the empty
    name and that name is not declared, and [RecursionError] when the
    interpreter allows no more nested calls of the traversal than there are
    declared states. *)
Theorem validate_Raise_cases limit self e :
  graph self = ∅ -> undirected_graph self = ∅ ->
  states self <> [] ->
  validate limit self = Raise e ->
  (e = ValueError /\ ~ well_formed (trans self))
  \/ (e = KeyError /\ head (init_st self) = Some "" /\ "" ∉ states self)
  \/ (e = RecursionError /\ limit <= length (states self)).
Proof. intros Hg0 Hug0 Hne Hval. by apply validate_Raise_fresh. Qed.

Lemma validate_Raise_cases_witness :
  (RecursionError = ValueError
   /\ ~ well_formed (trans (__init__ ["A"; "B"; "C"] ["a"] ["A"] [] ["A>a>B"; "B>a>C"])))
  \/ (RecursionError = KeyError
      /\ head (init_st (__init__ ["A"; "B"; "C"] ["a"] ["A"] [] ["A>a>B"; "B>a>C"]))
         = Some ""
      /\ "" ∉ states (__init__ ["A"; "B"; "C"] ["a"] ["A"] [] ["A>a>B"; "B>a>C"]))
  \/ (RecursionError = RecursionError
      /\ 2 <= length (states (__init__ ["A"; "B"; "C"] ["a"] ["A"] []
                                ["A>a>B"; "B>a>C"]))).
Proof.
  apply (validate_Raise_cases 2
           (__init__ ["A"; "B"; "C"] ["a"] ["A"] [] ["A>a>B"; "B>a>C"])
           RecursionError);
    try reflexivity.
  simpl. discriminate.
Defined.

(** X7. The second case happens: on a fresh instance whose transition
    tokens are well formed, where the interpreter allows more nested calls
    of the traversal than there are declared states, when every check up to
    E4 passes and the first initial state is the empty name, not declared,
    [validate] raises [KeyError]. *)
Theorem validate_empty_initial_KeyError limit self s0 :
  graph self = ∅ -> undirected_graph self = ∅ ->
  well_formed (trans self) ->
  check_E1 self = "" ->
  head (states self) = Some s0 ->
  length (states self) < limit ->
  NoDup (states self) -> all_linked self s0 ->
  (forall t, t ∈ triples (trans self) -> t.1.2 ∈ alpha self) ->
  head (init_st self) = Some "" -> "" ∉ states self ->
  validate limit self = Raise KeyError.
Proof.
  intros Hg0 Hug0 Hwf HE1 Hs0 Hlim Hnd Hall Hsym Hini Hn.
  destruct (validate_fresh_eq limit self s0 Hg0 Hug0 Hwf HE1 Hs0)
    as (g & ug & vis & Hg & Hug & Hvis & [Hv|[_ Hlim']]); [|lia].
  rewrite Hv. cbv zeta.
  assert (size vis =? length (states self) = true) as ->.
  { apply Nat.eqb_eq, size_visited_all.
    - intros x Hx%Hvis. eapply rtc_linked_states; [|done].
      destruct (states self); simplify_eq/=. left.
    - split; [done|]. intros s Hs. by apply Hvis, Hall. }
  simpl negb. cbv iota.
  assert (first_absent (alpha self) ((triples (trans self)).*1.*2) = None) as ->.
  { apply first_absent_None. intros x Hx.
    apply list_elem_of_fmap in Hx as (p & -> & Hp).
    apply list_elem_of_fmap in Hp as (t & -> & Ht). by apply Hsym. }
  simpl default. change (truthy "") with false. cbv iota.
  assert (check_E4 self = false) as ->.
  { unfold check_E4. by destruct (init_st self). }
  rewrite (check_W2_KeyError limit self g ug "" Hg Hini Hn).
  destruct limit; [lia | done].
Qed.

Lemma validate_empty_initial_KeyError_witness :
  validate 1000 (__init__ ["A"; "B"] ["a"] [""; "A"] ["B"] ["A>a>B"])
  = Raise KeyError.
Proof.
  apply (validate_empty_initial_KeyError 1000
           (__init__ ["A"; "B"] ["a"] [""; "A"] ["B"] ["A>a>B"]) "A");
    try reflexivity.
  - refine (bool_decide_unpack _ _). vm_compute. exact I.
  - simpl. lia.
  - refine (bool_decide_unpack _ _). vm_compute. exact I.
  - intros s Hs. apply elem_of_cons in Hs as [->|Hs]; [apply rtc_refl|].
    apply list_elem_of_singleton in Hs as ->. apply rtc_once.
    exists "a". left. refine (bool_decide_unpack _ _). vm_compute. exact I.
  - apply Forall_forall. refine (bool_decide_unpack _ _). vm_compute. exact I.
  - refine (bool_decide_unpack _ _). vm_compute. exact I.
Defined.

(** X30. The warnings of the validator come in the order W1, W2, W3, each
    at most once, and W1 is among them exactly when the list of accepting
    states is empty, whatever depth of recursion the interpreter allows. *)
Theorem validate_warnings_order limit self c w self' :
  graph self = ∅ -> undirected_graph self = ∅ ->
  validate limit self = Ret (("", c, w), self') ->
  w `sublist_of` ["W1: Accepting state is not defined";
                  "W2: Some states are not reachable from the initial state";
                  "W3: FSA is nondeterministic"]
  /\ ("W1: Accepting state is not defined" ∈ w <-> fin_st self = []).
Proof.
  intros Hg0 Hug0 Hval.
  destruct (validate_accept_inv limit self c w self' Hg0 Hug0 Hval)
    as (Hwf & HE1 & s0 & Hs0).
  destruct (validate_fresh_eq limit self s0 Hg0 Hug0 Hwf HE1 Hs0)
    as (g & ug & vis & Hg & Hug & Hvis & [Hv|[Hv _]]);
    [|by rewrite Hv in Hval].
  rewrite Hv in Hval. cbv zeta in Hval.
  destruct (negb _); [discriminate|].
  destruct (truthy _); [discriminate|].
  destruct (check_E4 self); [discriminate|].
  destruct (check_W2 _ _) as [w2|]; [|discriminate].
  rewrite bind_Ret_l in Hval. injection Hval as _ <- _.
  unfold check_W1.
  destruct (fin_st self) as [|f l], w2, (check_W3 (set_graphs self g ug));
    simpl; (split; [by repeat constructor|]);
    rewrite ?elem_of_cons, ?elem_of_nil; split;
    (done || (intros; discriminate) || naive_solver).
Qed.

Lemma validate_warnings_order_witness :
  match validate 1000 (__init__ ["A"; "B"] ["a"] ["B"] [] ["A>a>B"]) with
  | Ret ((_, _, w), _) =>
      w `sublist_of` ["W1: Accepting state is not defined";
                      "W2: Some states are not reachable from the initial state";
                      "W3: FSA is nondeterministic"]
      /\ ("W1: Accepting state is not defined" ∈ w
          <-> fin_st (__init__ ["A"; "B"] ["a"] ["B"] [] ["A>a>B"]) = [])
  | Raise _ => False
  end.
Proof.
  assert (match validate 1000 (__init__ ["A"; "B"] ["a"] ["B"] [] ["A>a>B"]) with
          | Ret ((e, _, _), _) => e = ""
          | Raise _ => False
          end) as He by (vm_compute; reflexivity).
  destruct (validate 1000 (__init__ ["A"; "B"] ["a"] ["B"] [] ["A>a>B"]))
    as [[[[e c] w] self']|] eqn:Hv; [|done].
  subst e.
  exact (validate_warnings_order 1000 (__init__ ["A"; "B"] ["a"] ["B"] [] ["A>a>B"])
           c w self' eq_refl eq_refl Hv).
Defined.

End A1Extra.

(** ** Strings: splitting, joining, slicing and stripping *)

Module PyStrings.
Import Py PyFacts.

Lemma length_append (s t : string) :
  String.length (s +:+ t) = String.length s + String.length t.
Proof. induction s as [|c s IH]; simpl; [done | by rewrite IH]. Qed.

Lemma append_assoc (s t u : string) : (s +:+ t) +:+ u = s +:+ (t +:+ u).
Proof.
  induction s as [|c s IH]; [done|].
  change (String c ((s +:+ t) +:+ u) = String c (s +:+ (t +:+ u))).
  by rewrite IH.
Qed.

Lemma string_take_app (s t : string) : string_take (String.length s) (s +:+ t) = s.
Proof. induction s as [|c s IH]; simpl; [by destruct t | by rewrite IH]. Qed.

Lemma string_drop_app (s t : string) : string_drop (String.length s) (s +:+ t) = t.
Proof. induction s as [|c s IH]; simpl; done. Qed.

(** [(p + j + "]")[len(p):-1] == j] *)
Lemma slice_to_last_app (p j : string) :
  slice_to_last (p +:+ j +:+ "]") (Z.of_nat (String.length p)) = j.
Proof.
  unfold slice_to_last. rewrite Nat2Z.id.
  rewrite <- append_assoc.
  replace (String.length ((p +:+ j) +:+ "]") - 1) with (String.length (p +:+ j))
    by (rewrite (length_append (p +:+ j)); simpl; lia).
  by rewrite string_take_app, string_drop_app.
Qed.

Lemma find_nonneg_or c s : (find c s = -1 \/ 0 <= find c s)%Z.
Proof.
  induction s as [|d s IH]; simpl; [by left|].
  destruct (Ascii.eqb d c); [right; lia|].
  destruct (find c s <? 0)%Z eqn:H; [by left|]. apply Z.ltb_ge in H. right. lia.
Qed.

(** [(p + c + t).find(c) == len(p)] when [c] is not in [p]. *)
Lemma find_app (c : ascii) (p t : string) :
  no_char c p = true ->
  find c (p +:+ String c t) = Z.of_nat (String.length p).
Proof.
  induction p as [|d p IH]; simpl.
  - intros _. by rewrite Ascii.eqb_refl.
  - intros [Hd Hp]%andb_prop. apply negb_true_iff in Hd. rewrite Hd, (IH Hp).
    destruct (Z.of_nat (String.length p) <? 0)%Z eqn:H; [apply Z.ltb_lt in H|]; lia.
Qed.

Lemma split_no_char (sep : ascii) (x : string) :
  no_char sep x = true -> split sep x = [x].
Proof.
  induction x as [|c x IH]; simpl; [done|].
  intros [Hc Hx]%andb_prop. apply negb_true_iff in Hc. by rewrite Hc, (IH Hx).
Qed.

Lemma split_app (sep : ascii) (x t : string) :
  no_char sep x = true ->
  split sep (x +:+ String sep t) = x :: split sep t.
Proof.
  induction x as [|c x IH]; simpl.
  - intros _. by rewrite Ascii.eqb_refl.
  - intros [Hc Hx]%andb_prop. apply negb_true_iff in Hc. by rewrite Hc, (IH Hx).
Qed.

(** [sep.join(xs).split(sep) == xs] for a non-empty list of items without
    the separator. *)
Lemma split_join (sep : ascii) (xs : list string) :
  xs <> [] -> Forall (fun x => no_char sep x = true) xs ->
  split sep (join (String sep "") xs) = xs.
Proof.
  intros Hne Hall. induction Hall as [|x xs Hx Hall IH]; [done|].
  destruct xs as [|y ys].
  - simpl. by apply split_no_char.
  - change (join (String sep "") (x :: y :: ys))
      with (x +:+ String sep (join (String sep "") (y :: ys))).
    rewrite split_app by done. by rewrite IH.
Qed.

(** The joined text is empty only for the empty list and for the list of
    one empty item. *)
Lemma truthy_join (sep : ascii) (xs : list string) :
  xs <> [] -> xs <> [""] -> truthy (join (String sep "") xs) = true.
Proof.
  intros Hne Hne'. destruct xs as [|x [|y ys]]; [done| |].
  - simpl. destruct x; [done|done].
  - change (join (String sep "") (x :: y :: ys))
      with (x +:+ String sep (join (String sep "") (y :: ys))).
    by destruct x.
Qed.

Lemma rstrip_bracket_nl (s : string) : rstrip (s +:+ "]" +:+ nl) = s +:+ "]".
Proof.
  induction s as [|c s IH]; [by vm_compute|].
  change (String c s +:+ "]" +:+ nl) with (String c (s +:+ "]" +:+ nl)).
  change (rstrip (String c (s +:+ "]" +:+ nl)))
    with (match rstrip (s +:+ "]" +:+ nl) with
          | EmptyString => if char_isspace c then EmptyString else String c EmptyString
          | r => String c r
          end).
  rewrite IH. by destruct s.
Qed.

(** [strip] leaves a line [p + j + "]\n"] without its line feed when [p]
    begins with a character that is not a space. *)
Lemma strip_line (c : ascii) (p j : string) :
  char_isspace c = false ->
  strip ((String c p +:+ j +:+ "]") +:+ nl) = String c p +:+ j +:+ "]".
Proof.
  intros Hc. unfold strip.
  assert (lstrip ((String c p +:+ j +:+ "]") +:+ nl)
          = (String c p +:+ j) +:+ "]" +:+ nl) as ->.
  { rewrite <- (append_assoc (String c p)). rewrite (append_assoc _ "]" nl).
    simpl. by rewrite Hc. }
  by rewrite rstrip_bracket_nl, append_assoc.
Qed.

(** No alphanumeric character is a comma or an underscore. *)
Lemma char_isalnum_plain (c : ascii) :
  char_isalnum c = true -> Ascii.eqb c "," = false /\ Ascii.eqb c "_" = false.
Proof.
  destruct c as [[] [] [] [] [] [] [] []]; vm_compute; intros H;
    (discriminate H || (split; reflexivity)).
Qed.

Lemma str_isalnum_no_comma (s : string) :
  str_isalnum s = true -> s <> "" /\ no_char "," s = true.
Proof.
  unfold str_isalnum. intros [Ht Hall]%andb_prop. split.
  - by destruct s.
  - clear Ht. induction s as [|c s IH]; [done|].
    unfold no_char in *. cbn [string_forallb] in *.
    apply andb_prop in Hall as [Hc Hs]. apply char_isalnum_plain in Hc as [Hc _].
    by rewrite Hc, IH.
Qed.

Lemma remove_char_isalnum_no_comma (s : string) :
  str_isalnum (remove_char "_" s) = true -> s <> "" /\ no_char "," s = true.
Proof.
  intros H. split; [by destruct s|].
  apply str_isalnum_no_comma in H as [_ H].
  induction s as [|c s IH]; [done|].
  unfold no_char in *. cbn [string_forallb remove_char] in *.
  destruct (Ascii.eqb c "_") eqn:Hc.
  - apply Ascii.eqb_eq in Hc as ->. rewrite IH by done. by vm_compute.
  - cbn [string_forallb] in H. apply andb_prop in H as [Hc' Hs].
    by rewrite Hc', IH.
Qed.

Lemma for_each_assert {A : Type} (p : A -> bool) (l : list A) :
  for_each l (fun el _ => assert (p el)) tt
  = if forallb p l then Ret tt else Raise AssertionError.
Proof.
  induction l as [|x l IH]; simpl; [done|].
  destruct (p x); simpl; [|done]. exact IH.
Qed.

End PyStrings.

(** ** The validator: reading the input *)

Module A1Parse.
Import Py PyFacts PyStrings A1 A1Facts A1More.

Lemma assert_true : assert true = Ret tt.
Proof. reflexivity. Qed.

Lemma no_char_app (c : ascii) (s t : string) :
  no_char c (s +:+ t) = no_char c s && no_char c t.
Proof.
  unfold no_char. induction s as [|d s IH]; [done|].
  change (String d s +:+ t) with (String d (s +:+ t)).
  cbn [string_forallb]. by rewrite IH, andb_assoc.
Qed.

(** The items of a rendered line are the items it was rendered from. *)
Lemma items_render (name : string) (xs : list string) :
  no_char "[" name = true -> plain xs ->
  items (render name xs) = xs.
Proof.
  intros Hname [Hne Hall]. unfold items, render.
  set (j := join "," xs).
  assert (name +:+ "=[" +:+ j +:+ "]" = (name +:+ "=") +:+ String "[" (j +:+ "]")) as Hr
    by by rewrite append_assoc.
  assert (find "[" (name +:+ "=[" +:+ j +:+ "]") + 1
          = Z.of_nat (String.length (name +:+ "=[")))%Z as ->.
  { rewrite Hr, find_app by (by rewrite no_char_app, Hname).
    rewrite !length_append. simpl. lia. }
  rewrite <- (append_assoc name "=[" (j +:+ "]")), slice_to_last_app.
  subst j. destruct xs as [|x xs']; [done|].
  rewrite truthy_join by done. by apply split_join.
Qed.

Lemma strip_render (c : ascii) (p : string) (xs : list string) :
  char_isspace c = false ->
  strip (render (String c p) xs +:+ nl) = render (String c p) xs.
Proof.
  intros Hc. unfold render.
  rewrite <- (append_assoc (String c p) "=[" _).
  exact (strip_line c (p +:+ "=[") (join "," xs) Hc).
Qed.

Lemma prefix_append (p t : string) : String.prefix p (p +:+ t) = true.
Proof.
  induction p as [|c p IH]; [by destruct t|].
  change (String c p +:+ t) with (String c (p +:+ t)). cbn [String.prefix].
  by destruct (ascii_dec c c).
Qed.

Lemma startswith_render (name : string) (xs : list string) :
  startswith (render name xs) (name +:+ "=[") = true.
Proof.
  unfold startswith, render. rewrite <- append_assoc. apply prefix_append.
Qed.

Lemma forallb_Forall {A : Type} (p : A -> bool) (l : list A) :
  forallb p l = true <-> Forall (fun x => p x = true) l.
Proof.
  induction l as [|x l IH]; simpl; [by split|].
  rewrite andb_true_iff, Forall_cons, IH. done.
Qed.

(** [check_lines] passes on five lines only, and fails by an assertion. *)
Lemma check_lines_cases (ls : list string) :
  match check_lines ls with
  | Ret _ => length ls = 5
  | Raise e => e = AssertionError
  end.
Proof.
  unfold check_lines.
  destruct (decide (length ls = 5)) as [Hlen|Hlen].
  2:{ by rewrite bool_decide_false. }
  rewrite bool_decide_true by done.
  destruct ls as [|a [|b [|c [|d [|e [|f l]]]]]]; try discriminate Hlen.
  rewrite assert_true, bind_Ret_l.
  change (getitem [a; b; c; d; e] 0) with (Ret a).
  change (getitem [a; b; c; d; e] 1) with (Ret b).
  change (getitem [a; b; c; d; e] 2) with (Ret c).
  change (getitem [a; b; c; d; e] 3) with (Ret d).
  change (getitem [a; b; c; d; e] 4) with (Ret e).
  rewrite bind_Ret_l. destruct (startswith a _); [|done].
  rewrite assert_true, !bind_Ret_l. destruct (startswith b _); [|done].
  rewrite assert_true, !bind_Ret_l. destruct (startswith c _); [|done].
  rewrite assert_true, !bind_Ret_l. destruct (startswith d _); [|done].
  rewrite assert_true, !bind_Ret_l. by destruct (startswith e _).
Qed.

(** What [parse_lines] returns, and the only exception it raises. *)
Lemma parse_lines_inv (lines : list string) :
  match parse_lines lines with
  | Ret (sts, al, ini, fin, tr) =>
      sts <> [] /\ al <> []
      /\ Forall (fun s => str_isalnum s = true) sts
      /\ Forall (fun a => str_isalnum (remove_char "_" a) = true) al
  | Raise e => e = AssertionError
  end.
Proof.
  unfold parse_lines.
  set (ls := List.filter _ (map strip lines)).
  pose proof (check_lines_cases ls) as Hcl.
  destruct (check_lines ls) as [[]|e]; [|done]. rewrite bind_Ret_l.
  destruct ls as [|a [|b [|c [|d [|e [|f l]]]]]]; try discriminate Hcl.
  change (getitem [a; b; c; d; e] 0) with (Ret a).
  change (getitem [a; b; c; d; e] 1) with (Ret b).
  change (getitem [a; b; c; d; e] 2) with (Ret c).
  change (getitem [a; b; c; d; e] 3) with (Ret d).
  change (getitem [a; b; c; d; e] 4) with (Ret e).
  rewrite !bind_Ret_l. rewrite !for_each_assert.
  destruct (forallb _ (items a)) eqn:Hsts; [|done]. rewrite bind_Ret_l.
  destruct (forallb _ (items b)) eqn:Hal; [|done]. rewrite bind_Ret_l.
  destruct (decide (items a = [])) as [Ha|Ha].
  { rewrite (bool_decide_true (items a = [])) by done. reflexivity. }
  rewrite (bool_decide_false (items a = [])) by done. simpl negb.
  rewrite assert_true, bind_Ret_l.
  destruct (decide (items b = [])) as [Hb|Hb].
  { rewrite (bool_decide_true (items b = [])) by done. reflexivity. }
  rewrite (bool_decide_false (items b = [])) by done. simpl negb.
  rewrite assert_true, bind_Ret_l.
  split; [done|]. split; [done|]. split; by apply forallb_Forall.
Qed.

End A1Parse.

Module A1InputExtra.
Import Py PyFacts PyStrings A1 A1Facts A1More A1Parse.

(** X8. Reading back what was written: for lists of alphanumeric states
    and of symbols that are alphanumeric apart from underscores, both
    non-empty, and initial states, accepting states and transitions
    without commas, [parse_lines] applied to the five lines
    [name=[item,...,item]] returns the five lists. *)
Theorem parse_lines_round_trip (sts al ini fin tr : list string) :
  sts <> [] -> al <> [] ->
  Forall (fun s => str_isalnum s = true) sts ->
  Forall (fun a => str_isalnum (remove_char "_" a) = true) al ->
  plain ini -> plain fin -> plain tr ->
  parse_lines (fsa_txt sts al ini fin tr) = Ret (sts, al, ini, fin, tr).
Proof.
  intros Hsts Hal Hs Ha Hini Hfin Htr.
  assert (Hps : plain sts).
  { split.
    - intros ->. apply Forall_inv in Hs. discriminate Hs.
    - eapply Forall_impl; [exact Hs|]. intros x Hx.
      by apply str_isalnum_no_comma in Hx as [_ ?]. }
  assert (Hpa : plain al).
  { split.
    - intros ->. apply Forall_inv in Ha. discriminate Ha.
    - eapply Forall_impl; [exact Ha|]. intros x Hx.
      by apply remove_char_isalnum_no_comma in Hx as [_ ?]. }
  unfold parse_lines, fsa_txt. cbn [map].
  rewrite !strip_render by reflexivity.
  change (List.filter _ [render "states" sts; render "alpha" al;
                         render "init.st" ini; render "fin.st" fin;
                         render "trans" tr])
    with [render "states" sts; render "alpha" al; render "init.st" ini;
          render "fin.st" fin; render "trans" tr].
  assert (check_lines [render "states" sts; render "alpha" al;
                       render "init.st" ini; render "fin.st" fin;
                       render "trans" tr] = Ret tt) as ->.
  { unfold check_lines.
    change (bool_decide (length _ = 5)) with true.
    change (getitem _ 0) with (Ret (render "states" sts)).
    change (getitem _ 1) with (Ret (render "alpha" al)).
    change (getitem _ 2) with (Ret (render "init.st" ini)).
    change (getitem _ 3) with (Ret (render "fin.st" fin)).
    change (getitem _ 4) with (Ret (render "trans" tr)).
    rewrite !bind_Ret_l.
    rewrite (startswith_render "states" sts : startswith _ "states=[" = true).
    rewrite assert_true, !bind_Ret_l.
    rewrite (startswith_render "alpha" al : startswith _ "alpha=[" = true).
    rewrite assert_true, !bind_Ret_l.
    rewrite (startswith_render "init.st" ini : startswith _ "init.st=[" = true).
    rewrite assert_true, !bind_Ret_l.
    rewrite (startswith_render "fin.st" fin : startswith _ "fin.st=[" = true).
    rewrite assert_true, !bind_Ret_l.
    by rewrite (startswith_render "trans" tr : startswith _ "trans=[" = true). }
  rewrite bind_Ret_l.
  change (getitem _ 0) with (Ret (render "states" sts)).
  change (getitem _ 1) with (Ret (render "alpha" al)).
  change (getitem _ 2) with (Ret (render "init.st" ini)).
  change (getitem _ 3) with (Ret (render "fin.st" fin)).
  change (getitem _ 4) with (Ret (render "trans" tr)).
  rewrite !bind_Ret_l.
  rewrite !items_render by (done || reflexivity).
  rewrite !for_each_assert.
  rewrite (proj2 (forallb_Forall _ sts) Hs), bind_Ret_l.
  rewrite (proj2 (forallb_Forall _ al) Ha), bind_Ret_l.
  by rewrite !bool_decide_false by done.
Qed.

Lemma parse_lines_round_trip_witness :
  parse_lines (fsa_txt ["q0"; "q1"] ["a"; "b_1"] ["q0"] [] ["q0>a>q1"; "q1>b_1>q0"])
  = Ret (["q0"; "q1"], ["a"; "b_1"], ["q0"], [], ["q0>a>q1"; "q1>b_1>q0"]).
Proof.
  apply (parse_lines_round_trip ["q0"; "q1"] ["a"; "b_1"] ["q0"] []
           ["q0>a>q1"; "q1>b_1>q0"]).
  - discriminate.
  - discriminate.
  - repeat constructor.
  - repeat constructor.
  - split; [discriminate | repeat constructor].
  - split; [discriminate | repeat constructor].
  - split; [discriminate | repeat constructor].
Defined.

(** X9. [parse_lines] raises nothing but [AssertionError] (no index is out
    of range), and the lists it returns have at least one state and one
    symbol, alphanumeric states, and symbols that are alphanumeric once
    their underscores are removed. *)
Theorem parse_lines_cases (lines : list string) :
  match parse_lines lines with
  | Ret (sts, al, ini, fin, tr) =>
      sts <> [] /\ al <> []
      /\ Forall (fun s => str_isalnum s = true) sts
      /\ Forall (fun a => str_isalnum (remove_char "_" a) = true) al
  | Raise e => e = AssertionError
  end.
Proof. exact (parse_lines_inv lines). Qed.

(** X10. An exception escapes [main] in three cases only, all after the
    input has been parsed: [ValueError] when a transition token does not
    split into three parts, [KeyError] when the first initial state is the
    empty string, and [RecursionError] when the interpreter allows no more
    nested calls of the traversal than there are declared states. *)
Theorem main_Raise_cases (limit : nat) (fsa : list string) (e : exn) :
  main limit fsa = Raise e ->
  exists sts al ini fin tr,
    parse_lines fsa = Ret (sts, al, ini, fin, tr)
    /\ ((e = ValueError /\ ~ well_formed tr)
        \/ (e = KeyError /\ head ini = Some "")
        \/ (e = RecursionError /\ limit <= length sts)).
Proof.
  unfold main. pose proof (parse_lines_inv fsa) as Hp.
  destruct (parse_lines fsa) as [[[[[sts al] ini] fin] tr]|e'].
  2:{ by subst e'. }
  destruct Hp as (Hsts & _ & _ & _). intros Hm.
  exists sts, al, ini, fin, tr. split; [done|].
  destruct (validate limit (__init__ sts al ini fin tr))
    as [[[[err c] w] self']|e''] eqn:Hv.
  { rewrite bind_Ret_l in Hm. by destruct (truthy err). }
  rewrite bind_Raise_l in Hm. injection Hm as ->.
  destruct (validate_Raise_fresh limit (__init__ sts al ini fin tr) e
              eq_refl eq_refl Hsts Hv)
    as [[-> ?]|[(-> & ? & _)|[-> ?]]]; [by left | by right; left | by right; right].
Qed.

Lemma main_Raise_cases_witness :
  exists sts al ini fin tr,
    parse_lines ["states=[a,b,c]"; "alpha=[x]"; "init.st=[a]"; "fin.st=[]";
                 "trans=[a>x>b,b>x>c]"]
    = Ret (sts, al, ini, fin, tr)
    /\ ((RecursionError = ValueError /\ ~ well_formed tr)
        \/ (RecursionError = KeyError /\ head ini = Some "")
        \/ (RecursionError = RecursionError /\ 2 <= length sts)).
Proof.
  apply (main_Raise_cases 2
           ["states=[a,b,c]"; "alpha=[x]"; "init.st=[a]"; "fin.st=[]";
            "trans=[a>x>b,b>x>c]"]
           RecursionError).
  vm_compute. reflexivity.
Defined.

End A1InputExtra.

(** ** The translator: further properties *)

Module A2More.
Import Py PyFacts A2 A2Facts.

(** *** The traversal visits everything reachable *)

(** What a call of [__DFS] returns contains the start, and every state it
    adds has all its successors in the result. *)
Lemma A2_DFS_closed depth self g :
  wf self ->
  forall u visited visited',
  __DFS depth self g u visited = Ret visited' ->
  visited ∪ {[u]} ⊆ visited'
  /\ forall x, x ∈ visited' -> x ∉ visited ->
       forall y, arc self g x y -> y ∈ visited'.
Proof.
  intros Hwf.
  induction depth as [|depth IH]; intros u visited visited'; [discriminate|].
  rewrite DFS_unfold. intros Hloop.
  assert (Hl : forall (l : list nat) vis vis',
    for_each l (fun v visited =>
        sv ← getkey (id2state self) v;
        if bool_decide (sv ∉ visited)
        then
          iu ← getkey (state2id self) u;
          cell ← get2 g iu v;
          match cell with
          | [] => Ret visited
          | _ :: _ => sv ← getkey (id2state self) v; __DFS depth self g sv visited
          end
        else Ret visited) vis = Ret vis' ->
    vis ⊆ vis'
    /\ (forall v y iu c cell, v ∈ l -> states self !! v = Some y ->
          state2id self !! u = Some iu -> entry g iu v = Some (c :: cell) ->
          y ∈ vis')
    /\ forall x, x ∈ vis' -> x ∉ vis -> forall y, arc self g x y -> y ∈ vis').
  { clear Hloop. induction l as [|v l IHl]; intros vis vis'; simpl.
    - intros [= <-]. split; [done|]. split; [|done].
      intros v y iu c cell Hv. by apply elem_of_nil in Hv.
    - intros (vis1 & Hv & Hrest)%bind_Ret.
      destruct (IHl _ _ Hrest) as (Hsub & Hin & Hcl).
      apply bind_Ret in Hv as (sv & Hsv%getkey_Ret & Hv).
      rewrite (wf_name _ Hwf) in Hsv.
      assert (vis ⊆ vis1
              /\ (forall iu c cell, state2id self !! u = Some iu ->
                    entry g iu v = Some (c :: cell) -> sv ∈ vis1)
              /\ forall x, x ∈ vis1 -> x ∉ vis ->
                   forall y, arc self g x y -> y ∈ vis1)
        as (Hsub1 & Hv1 & Hcl1).
      { case_bool_decide as Hvis.
        - apply bind_Ret in Hv as (iu & Hiu%getkey_Ret & Hv).
          apply bind_Ret in Hv as (cell & Hcell%get2_entry & Hv).
          destruct cell as [|c cell].
          + injection Hv as <-. split; [done|]. split; [|done].
            intros iu' c' cell' Hiu' Hc'. congruence.
          + apply bind_Ret in Hv as (sv' & Hsv'%getkey_Ret & Hv).
            rewrite (wf_name _ Hwf) in Hsv'.
            assert (sv' = sv) as -> by congruence.
            destruct (IH _ _ _ Hv) as [Hs Hc]. split; [set_solver|].
            split; [intros; set_solver|]. exact Hc.
        - injection Hv as <-. split; [done|]. split; [done|]. intros x ? ?. done. }
      split; [set_solver|]. split.
      + intros w y iu c cell [->|Hw]%elem_of_cons Hy Hiu Hcell.
        * assert (y = sv) as -> by congruence. apply Hsub. by eapply Hv1.
        * by eapply Hin.
      + intros x Hx Hnx y Hxy. destruct (decide (x ∈ vis1)) as [Hx1|Hx1].
        * apply Hsub. by eapply Hcl1.
        * by eapply Hcl. }
  destruct (Hl _ _ _ Hloop) as (Hsub & Hin & Hcl).
  split; [done|]. intros x Hx Hnx y Hxy.
  destruct (decide (x = u)) as [->|Hne].
  - destruct Hxy as (iu & v & c & cell & Hiu & Hy & Hcell).
    eapply (Hin v y iu c cell); [|done..].
    apply list_elem_of_In, in_seq. apply lookup_lt_Some in Hy.
    rewrite (wf_n _ Hwf). lia.
  - eapply Hcl; [exact Hx | set_solver | exact Hxy].
Qed.

Lemma A2_DFS_complete depth self g u visited' :
  wf self ->
  __DFS depth self g u ∅ = Ret visited' ->
  forall x, rtc (arc self g) u x -> x ∈ visited'.
Proof.
  intros Hwf Hdfs. destruct (A2_DFS_closed _ _ _ Hwf _ _ _ Hdfs) as [Hsub Hcl].
  intros x Hr. revert x Hr. apply (rtc_ind_r (fun x => x ∈ visited') u).
  - set_solver.
  - intros y z _ Hyz Hy. eapply Hcl; [exact Hy | set_solver | exact Hyz].
Qed.

Lemma usyms_by_id_elem (d : gmap string nat)
    (T : list (string * string * string)) i j s1 a s2 :
  ((s1, a, s2) ∈ T \/ (s2, a, s1) ∈ T) ->
  d !! s1 = Some i -> d !! s2 = Some j ->
  a ∈ usyms_by_id d T i j.
Proof.
  intros Hin H1 H2. unfold usyms_by_id. rewrite list_elem_of_In, in_flat_map.
  destruct Hin as [Hin|Hin].
  - exists (s1, a, s2). split; [by apply list_elem_of_In|].
    apply in_or_app. left. rewrite decide_True by done. by left.
  - exists (s2, a, s1). split; [by apply list_elem_of_In|].
    apply in_or_app. right. rewrite decide_True by done. by left.
Qed.

(** Linked states are joined by an arc of the undirected matrix. *)
Lemma linked_arc self x y :
  wf self -> linked self x y -> arc self (undirected_graph self) x y.
Proof.
  intros Hwf [a Hl].
  assert (x ∈ states self /\ y ∈ states self) as [Hx Hy].
  { destruct Hl as [Hl|Hl]; apply (wf_declared _ Hwf) in Hl; simpl in Hl; tauto. }
  destruct (wf_key _ Hwf x Hx) as [i Hi].
  destruct (wf_key _ Hwf y Hy) as [j Hj].
  pose proof (usyms_by_id_elem _ _ i j x a y Hl Hi Hj) as Ha.
  destruct (usyms_by_id (state2id self) (triples (trans self)) i j)
    as [|c cell] eqn:Hc; [by apply elem_of_nil in Ha|].
  exists i, j, c, cell. split; [done|]. split; [by eapply wf_id|].
  rewrite (wf_ucells _ Hwf), Hc; [done| |]; by eapply wf_id_lt.
Qed.

(** The traversal of [__check_E6] from a declared state returns exactly
    the states linked to it. *)
Lemma check_E6_exact self i0 rest :
  wf self -> initial self = i0 :: rest -> i0 ∈ states self ->
  exists visited : gset string,
    __check_E6 (DFS_depth self) self
    = Ret (negb (size visited =? length (states self)))
    /\ forall x, x ∈ visited <-> rtc (linked self) i0 x.
Proof.
  intros Hwf Hini Hi0. unfold __check_E6.
  assert (getitem (initial self) 0 = Ret i0) as -> by (by rewrite Hini).
  rewrite bind_Ret_l.
  destruct (check_E6_DFS self i0 Hwf Hi0) as (visited & Hdfs & _ & Hvis).
  rewrite Hdfs, bind_Ret_l. exists visited. split; [done|].
  intros x. split; [by intros [_ ?]%Hvis|].
  intros Hr. eapply A2_DFS_complete; [done | exact Hdfs |].
  eapply rtc_subrel; [|exact Hr]. intros a b Hab. by apply linked_arc.
Qed.

(** The same with the depth that the interpreter allows: the check answers
    so, or the traversal runs out of depth, which takes at least as many
    declared states as the interpreter allows nested calls. *)
Lemma check_E6_built limit self i0 rest :
  wf self -> initial self = i0 :: rest -> i0 ∈ states self ->
  exists visited : gset string,
    (forall x, x ∈ visited <-> rtc (linked self) i0 x)
    /\ (__check_E6 limit self = Ret (negb (size visited =? length (states self)))
        \/ (__check_E6 limit self = Raise RecursionError
            /\ limit <= length (states self))).
Proof.
  intros Hwf Hini Hi0.
  destruct (check_E6_exact self i0 rest Hwf Hini Hi0) as (visited & HE6 & Hv).
  exists visited. split; [done|].
  destruct (check_E6_limit limit self Hwf) as [->|[-> Hlt]]; [by left|].
  right. split; [done|]. unfold DFS_depth in Hlt. rewrite (wf_n _ Hwf) in Hlt. lia.
Qed.

Lemma rtc_linked_declared self x y :
  wf self -> x ∈ states self -> rtc (linked self) x y -> y ∈ states self.
Proof.
  intros Hwf Hx H. induction H as [|x y z Hxy _ IH]; [done|]. apply IH.
  destruct Hxy as [a [Hl|Hl]]; apply (wf_declared _ Hwf) in Hl; simpl in Hl; tauto.
Qed.

(** *** The checks of [validate] on a constructed instance *)

(** [__check_E7] answers true exactly when some state has two transitions
    with one symbol of the alphabet. *)
Lemma check_E7_exact self :
  wf self ->
  __check_E7 self = Ret true
  <-> exists s a, a ∈ alpha self /\ two_on_symbol self s a.
Proof.
  intros Hwf. rewrite check_E7_spec by done.
  assert (Hdst : forall t', t' ∈ triples (trans self) ->
            exists j, j < n self /\ state2id self !! t'.2 = Some j).
  { intros t' Ht'. destruct (wf_declared _ Hwf t' Ht') as [_ Hdst].
    destruct (wf_key _ Hwf _ Hdst) as [j Hj]. exists j.
    split; [by eapply wf_id_lt | done]. }
  split.
  - intros [= Hex]. apply existsb_exists in Hex as (u & Hu & Hex).
    apply existsb_exists in Hex as (a & Ha%list_elem_of_In & Hc%Nat.ltb_lt).
    unfold row_symbols in Hc. rewrite (count_row _ (n self)) in Hc by done.
    assert (exists t, t ∈ base.filter
              (fun t => state2id self !! t.1.1 = Some u /\ t.1.2 = a)
              (triples (trans self))) as [t Ht].
    { destruct (base.filter _ _) as [|t l]; [simpl in Hc; lia|]. exists t. left. }
    apply list_elem_of_filter in Ht as [[Hs _] Ht].
    exists t.1.1, a. split; [done|]. unfold two_on_symbol.
    eapply Nat.lt_le_trans; [exact Hc|].
    apply length_filter_mono. intros t' [Hs' ->]. split; [|done].
    apply (wf_id _ Hwf) in Hs, Hs'. congruence.
  - intros (s & a & Ha & Hlen). f_equal. unfold two_on_symbol in Hlen.
    assert (exists t, t ∈ base.filter (fun t => t.1.1 = s /\ t.1.2 = a)
                            (triples (trans self))) as [t Ht].
    { destruct (base.filter _ _) as [|t l]; [simpl in Hlen; lia|]. exists t. left. }
    apply list_elem_of_filter in Ht as [[Hs _] Ht].
    destruct (wf_declared _ Hwf t Ht) as [Hsrc _]. rewrite Hs in Hsrc.
    destruct (wf_key _ Hwf s Hsrc) as [u Hu].
    apply existsb_exists. exists u. split.
    { apply in_seq. pose proof (wf_id_lt _ _ _ Hwf Hu). lia. }
    apply existsb_exists. exists a. split; [by apply list_elem_of_In|].
    apply Nat.ltb_lt. unfold row_symbols. rewrite (count_row _ (n self)) by done.
    eapply Nat.lt_le_trans; [exact Hlen|].
    apply length_filter_mono. intros t' [-> ->]. done.
Qed.

(** [validate] on a constructed instance with an initial and an accepting
    state, check by check. *)
Lemma validate_wf_eq limit self i0 rest :
  wf self -> initial self = i0 :: rest -> accepting self <> [] ->
  exists e7 : bool,
    __check_E7 self = Ret e7
    /\ validate limit self =
       let fs := default "" (first_absent (states self)
                               (initial self ++ accepting self)) in
       if truthy fs
       then Ret ("E4: A state '" +:+ fs +:+ "' is not in the set of states")
       else
         let fa := default "" (first_absent (alpha self)
                                 ((triples (trans self)).*1.*2)) in
         if truthy fa
         then Ret ("E5: A transition '" +:+ fa
                     +:+ "' is not represented in the alphabet")
         else
           e6 ← __check_E6 limit self;
           if e6 : bool then Ret "E6: Some states are disjoint"
           else if e7 then Ret "E7: FSA is nondeterministic"
           else Ret "".
Proof.
  intros Hwf Hini Hacc. eexists. split; [by apply check_E7_spec|].
  unfold validate, __check_E2, __check_E3. rewrite Hini.
  destruct (accepting self) as [|f acc] eqn:Ha; [done|]. simpl length. cbv iota beta.
  change (S (length rest) =? 0) with false.
  change (S (length acc) =? 0) with false. cbv iota.
  rewrite (check_E4_wf _ Hwf), bind_Ret_l, Hini, Ha. cbv zeta.
  destruct (truthy _); [done|].
  rewrite (check_E5_first_absent _ (wf_trans _ Hwf)), bind_Ret_l.
  destruct (truthy _); [done|].
  destruct (__check_E6 limit self) as [e6|e]; [|done]. rewrite !bind_Ret_l.
  destruct e6; [done|].
  rewrite check_E7_spec, bind_Ret_l by done. done.
Qed.

(** With a first initial state that is declared, the sixth check returns,
    unless its traversal runs out of depth. *)
Lemma validate_wf_declared limit self i0 rest :
  wf self -> initial self = i0 :: rest -> accepting self <> [] ->
  i0 ∈ states self ->
  exists (vis : gset string) (e7 : bool),
    (forall x, x ∈ vis <-> rtc (linked self) i0 x)
    /\ (e7 = true <-> exists s a, a ∈ alpha self /\ two_on_symbol self s a)
    /\ (validate limit self =
        (let fs := default "" (first_absent (states self)
                                 (initial self ++ accepting self)) in
         if truthy fs
         then Ret ("E4: A state '" +:+ fs +:+ "' is not in the set of states")
         else
           let fa := default "" (first_absent (alpha self)
                                   ((triples (trans self)).*1.*2)) in
           if truthy fa
           then Ret ("E5: A transition '" +:+ fa
                       +:+ "' is not represented in the alphabet")
           else if negb (size vis =? length (states self))
           then Ret "E6: Some states are disjoint"
           else if e7 then Ret "E7: FSA is nondeterministic"
           else Ret "")
        \/ (validate limit self = Raise RecursionError
            /\ limit <= length (states self))).
Proof.
  intros Hwf Hini Hacc Hi0.
  destruct (validate_wf_eq limit self i0 rest Hwf Hini Hacc) as (e7 & HE7 & Hv).
  destruct (check_E6_built limit self i0 rest Hwf Hini Hi0) as (vis & Hvis & HE6).
  exists vis, e7. split; [done|]. split.
  { rewrite <- check_E7_exact by done. rewrite HE7. split; congruence. }
  rewrite Hv. cbv zeta.
  destruct (truthy _); [by left|]. destruct (truthy _); [by left|].
  destruct HE6 as [->|[-> Hlim]]; [left; by rewrite bind_Ret_l | by right].
Qed.

(** The first initial state of an instance that passes the membership
    check is declared, unless it is the empty name. *)
Lemma first_absent_head sts i0 rest acc :
  default "" (first_absent sts ((i0 :: rest) ++ acc)) = "" ->
  i0 ∈ sts \/ i0 = "".
Proof.
  intros H. destruct (decide (i0 ∈ sts)) as [|Hn]; [by left|right].
  unfold first_absent in H. simpl in H. by rewrite bool_decide_true in H.
Qed.

(** A valid automaton passes every check. *)
Lemma validate_complete_wf limit self i0 rest :
  wf self ->
  NoDup (states self) ->
  initial self = i0 :: rest -> accepting self <> [] ->
  (forall x, x ∈ initial self ++ accepting self -> x ∈ states self) ->
  (forall t, t ∈ triples (trans self) -> t.1.2 ∈ alpha self) ->
  all_linked self i0 ->
  ~ nondeterministic self ->
  length (states self) < limit ->
  validate limit self = Ret "".
Proof.
  intros Hwf Hnd Hini Hacc Hdecl Halpha Hall Hdet Hlim.
  assert (Hi0 : i0 ∈ states self).
  { apply Hdecl. rewrite Hini. left. }
  destruct (validate_wf_declared limit self i0 rest Hwf Hini Hacc Hi0)
    as (vis & e7 & Hvis & He7 & [->|[_ Hlim']]); [|lia].
  rewrite (proj2 (first_absent_None _ _) Hdecl).
  assert (first_absent (alpha self) ((triples (trans self)).*1.*2) = None) as ->.
  { apply first_absent_None. intros x Hx.
    apply list_elem_of_fmap in Hx as (p & -> & Hp).
    apply list_elem_of_fmap in Hp as (t & -> & Ht). by apply Halpha. }
  simpl.
  assert (size vis =? length (states self) = true) as ->.
  { apply Nat.eqb_eq, A1More.size_visited_all.
    - intros x Hx%Hvis. by eapply rtc_linked_declared.
    - split; [done|]. intros s Hs. by apply Hvis, Hall. }
  simpl. destruct e7; [|done]. destruct Hdet.
  destruct (proj1 He7 eq_refl) as (s & a & _ & Hlen). by exists s, a.
Qed.

End A2More.

(** ** The order of the checks in the two programs *)

Module Priority.
Import Py PyFacts.

(** When the check E5 passes without an empty symbol, every transition
    symbol is in the alphabet. *)
Lemma symbols_declared (self : A2.FSA) :
  first_absent (A2.alpha self) (triples (A2.trans self)).*1.*2 = None ->
  forall t, t ∈ triples (A2.trans self) -> t.1.2 ∈ A2.alpha self.
Proof.
  intros Hsym t Ht. eapply first_absent_None in Hsym; [exact Hsym|].
  apply list_elem_of_fmap. exists t.1. split; [done|].
  apply list_elem_of_fmap. by exists t.
Qed.

(** When every declared state is linked to one state, the undirected graph
    has one connected component. *)
Lemma all_linked_connected (self : A2.FSA) (i0 : string) :
  A2.all_linked self i0 -> ~ A2.disjoint_states self.
Proof.
  intros Hall (s & t & Hs & Ht & Hnot). apply Hnot. transitivity i0.
  - apply rtc_sym; [apply A2Facts.linked_symmetric | by apply Hall].
  - by apply Hall.
Qed.

(** C8, as the code has it.  For an automaton that [__init__] builds, in
    which neither the first undeclared initial or accepting state nor the
    first undeclared transition symbol is the empty string, and which has
    no initial state, no accepting state, an undeclared transition symbol,
    a state declared twice, more than one connected component or two
    transitions from one state with one symbol: when the interpreter
    allows more nested calls of the traversal than there are states (which
    matters only once the checks E2 to E5 have passed), [validate] returns
    an error string, [Kleene] returns that string and no regular
    expression, and the string is the one of the first check that fails in
    the order E2, E3, E4, E5, E6, E7: E6 when a state is declared twice or
    there is more than one connected component, E7 when the states are
    distinct and connected and two transitions leave one state with one
    symbol. *)
Theorem Kleene_precondition_error (limit : nat) (sts al ini acc tr : list string)
    (self : A2.FSA) :
  A2.__init__ sts al ini acc tr = Ret self ->
  first_absent (A2.states self) (A2.initial self ++ A2.accepting self) <> Some "" ->
  first_absent (A2.alpha self) (triples (A2.trans self)).*1.*2 <> Some "" ->
  (A2.initial self <> [] -> A2.accepting self <> [] ->
   first_absent (A2.states self) (A2.initial self ++ A2.accepting self) = None ->
   first_absent (A2.alpha self) (triples (A2.trans self)).*1.*2 = None ->
   length (A2.states self) < limit) ->
  A2.initial self = [] \/ A2.accepting self = []
  \/ is_Some (first_absent (A2.alpha self) (triples (A2.trans self)).*1.*2)
  \/ ~ NoDup (A2.states self)
  \/ A2.disjoint_states self \/ A2.nondeterministic self ->
  exists e,
    A2.validate limit self = Ret e /\ A2.Kleene limit self = Ret e /\ e <> ""
    /\ (A2.initial self = [] -> e = "E2: Initial state is not defined")
    /\ (A2.initial self <> [] -> A2.accepting self = [] ->
        e = "E3: Set of accepting states is empty")
    /\ (A2.initial self <> [] -> A2.accepting self <> [] ->
        forall s,
          first_absent (A2.states self) (A2.initial self ++ A2.accepting self) = Some s ->
          e = "E4: A state '" +:+ s +:+ "' is not in the set of states")
    /\ (A2.initial self <> [] -> A2.accepting self <> [] ->
        first_absent (A2.states self) (A2.initial self ++ A2.accepting self) = None ->
        (forall a,
           first_absent (A2.alpha self) (triples (A2.trans self)).*1.*2 = Some a ->
           e = "E5: A transition '" +:+ a +:+ "' is not represented in the alphabet")
        /\ (first_absent (A2.alpha self) (triples (A2.trans self)).*1.*2 = None ->
            (~ NoDup (A2.states self) \/ A2.disjoint_states self ->
             e = "E6: Some states are disjoint")
            /\ (NoDup (A2.states self) -> ~ A2.disjoint_states self ->
                A2.nondeterministic self ->
                e = "E7: FSA is nondeterministic"))).
Proof.
  intros Hinit Hst Hsym Hlim Hbad. apply A2Facts.init_wf in Hinit as [Hwf _].
  destruct (decide (A2.initial self = [])) as [Hi|Hi].
  { exists "E2: Initial state is not defined".
    pose proof (A2Facts.validate_E2 limit self Hi) as Hv.
    split; [done|]. split; [by apply A2Facts.Kleene_error|]. by repeat split. }
  destruct (decide (A2.accepting self = [])) as [Ha|Ha].
  { exists "E3: Set of accepting states is empty".
    pose proof (A2Facts.validate_E3 limit self Hi Ha) as Hv.
    split; [done|]. split; [by apply A2Facts.Kleene_error|]. by repeat split. }
  destruct (first_absent (A2.states self) (A2.initial self ++ A2.accepting self))
    as [s|] eqn:Hs.
  { assert (s <> "") as Hne by congruence.
    pose proof (A2Facts.validate_E4 limit self s Hi Ha Hs Hne) as Hv.
    eexists. split; [done|]. split; [by apply A2Facts.Kleene_error|].
    split; [done|]. repeat split; try done. by intros _ _ s' [= ->]. }
  destruct (first_absent (A2.alpha self) (triples (A2.trans self)).*1.*2)
    as [a|] eqn:Ha'.
  { assert (a <> "") as Hne by congruence.
    pose proof (A2Facts.validate_E5 limit self a Hwf Hi Ha Hs Ha' Hne) as Hv.
    eexists. split; [done|]. split; [by apply A2Facts.Kleene_error|].
    split; [done|]. repeat split; try done. by intros a' [= ->]. }
  specialize (Hlim Hi Ha eq_refl eq_refl).
  assert (exists i0 rest, A2.initial self = i0 :: rest) as (i0 & rest & Hini).
  { clear -Hi. destruct (A2.initial self); [done | eauto]. }
  assert (Hi0 : i0 ∈ A2.states self).
  { eapply first_absent_None in Hs; [exact Hs|]. rewrite Hini. left. }
  destruct (A2More.validate_wf_declared limit self i0 rest Hwf Hini Ha Hi0)
    as (vis & e7 & Hvis & He7 & [Hv|[_ Hl]]); [|lia].
  rewrite Hs, Ha' in Hv. cbv zeta in Hv. simpl default in Hv.
  change (truthy "") with false in Hv. cbv iota in Hv.
  assert (Hsub : forall x, x ∈ vis -> x ∈ A2.states self).
  { intros x Hx%Hvis. by eapply A2More.rtc_linked_declared. }
  destruct (size vis =? length (A2.states self)) eqn:Hsz;
    simpl negb in Hv; cbv iota in Hv.
  - apply Nat.eqb_eq, A1More.size_visited_all in Hsz as [Hnd Hall]; [|done].
    assert (Hconn : ~ A2.disjoint_states self).
    { apply (all_linked_connected self i0). intros x Hx. by apply Hvis, Hall. }
    assert (Hn : A2.nondeterministic self).
    { destruct Hbad as [?|[?|[[? ?]|[?|[?|?]]]]]; done. }
    assert (e7 = true) as ->.
    { apply He7. destruct Hn as (s & a & Hlen). exists s, a. split; [|done].
      assert (exists t, t ∈ base.filter (fun t => t.1.1 = s /\ t.1.2 = a)
                              (triples (A2.trans self))) as [t Ht].
      { destruct (base.filter _ _) as [|t l]; [simpl in Hlen; lia|].
        exists t. left. }
      apply list_elem_of_filter in Ht as [[_ <-] Ht].
      by apply symbols_declared. }
    exists "E7: FSA is nondeterministic". split; [done|].
    split; [by apply A2Facts.Kleene_error|]. split; [done|].
    repeat split; try done. intros [?|?]; done.
  - apply Nat.eqb_neq in Hsz.
    exists "E6: Some states are disjoint". split; [done|].
    split; [by apply A2Facts.Kleene_error|]. split; [done|].
    repeat split; try done. intros Hnd Hconn _. exfalso.
    destruct (A1More.size_visited_short _ _ Hsub Hsz) as [?|(x & Hx & Hnx)];
      [done|].
    apply Hconn. exists i0, x. split; [done|]. split; [done|].
    by rewrite <- Hvis.
Qed.

Lemma Kleene_precondition_error_witness :
  match A2.__init__ ["A"; "B"] ["a"] ["A"] ["B"] ["A>a>B"; "A>a>A"] with
  | Ret self => A2.Kleene 1000 self = Ret "E7: FSA is nondeterministic"
  | Raise _ => False
  end.
Proof.
  assert (Hk : match A2.__init__ ["A"; "B"] ["a"] ["A"] ["B"] ["A>a>B"; "A>a>A"] with
               | Ret self =>
                   first_absent (A2.states self) (A2.initial self ++ A2.accepting self)
                   = None
                   /\ first_absent (A2.alpha self) (triples (A2.trans self)).*1.*2 = None
                   /\ A2.trans self = ["A>a>B"; "A>a>A"]
                   /\ A2.states self = ["A"; "B"]
                   /\ A2.Kleene 1000 self = Ret "E7: FSA is nondeterministic"
               | Raise _ => False
               end) by (vm_compute; auto 10).
  destruct (A2.__init__ ["A"; "B"] ["a"] ["A"] ["B"] ["A>a>B"; "A>a>A"])
    as [self|e] eqn:Hinit; [|exact Hk].
  destruct Hk as (Hst & Hsym & Htr & Hsts & Hk).
  destruct (Kleene_precondition_error 1000 _ _ _ _ _ self Hinit)
    as (e & _ & Hke & _).
  - by rewrite Hst.
  - by rewrite Hsym.
  - intros _ _ _ _. rewrite Hsts. simpl. lia.
  - do 5 right. exists "A", "a". rewrite Htr. vm_compute. lia.
  - rewrite Hke in Hk. by rewrite Hke, Hk.
Defined.

(** C8, as stated, fails: with two initial states [validate] finds no
    error and [Kleene] returns a regular expression for the first one.
    Two initial states are refused earlier, by [parse_lines], as malformed
    input. *)
Lemma Kleene_two_initial_states :
  (self ← A2.__init__ ["A"; "B"] ["a"] ["A"; "B"] ["B"] ["A>a>B"];
   A2.Kleene 1000 self)
  = Ret "(((eps)(eps)*(a)|(a))(({})(eps)*(a)|(eps))*(({})(eps)*(a)|(eps))|((eps)(eps)*(a)|(a)))"
  /\ A2.main 1000 (map (fun l => l +:+ nl)
                ["states=[A,B]"; "alpha=[a]"; "initial=[A,B]"; "accepting=[B]";
                 "trans=[A>a>B]"])
     = Ret "E1: Input file is malformed".
Proof. split; vm_compute; reflexivity. Qed.

(** C3, as the code has it.  When the first initial or accepting state
    that is not declared has a non-empty name: the validator returns the
    error E1 that names it before any other check, with no classification,
    no warning and the graphs not built; the translator returns the error
    E4 that names it once its checks E2 (an initial state exists) and E3
    (an accepting state exists) have passed.  No traversal is reached, so
    this holds whatever depth of recursion the interpreter allows. *)
Theorem undefined_state_error :
  (forall (limit : nat) (self : A1.FSA_validator) (s : string),
     first_absent (A1.states self) (A1.init_st self ++ A1.fin_st self) = Some s ->
     s <> "" ->
     A1.validate limit self
     = Ret (("E1: A state '" +:+ s +:+ "' is not in the set of states", "", []), self))
  /\ (forall (limit : nat) (self : A2.FSA) (s : string),
        A2.initial self <> [] -> A2.accepting self <> [] ->
        first_absent (A2.states self) (A2.initial self ++ A2.accepting self) = Some s ->
        s <> "" ->
        A2.validate limit self
        = Ret ("E4: A state '" +:+ s +:+ "' is not in the set of states")).
Proof.
  split.
  - intros limit self s. apply A1Facts.validate_E1.
  - intros limit self s. apply A2Facts.validate_E4.
Qed.

Lemma undefined_state_error_witness :
  A1.validate 1000 (A1.__init__ ["A"] ["a"] ["A"] ["A"; "Z"] ["A>x>"])
  = Ret (("E1: A state 'Z' is not in the set of states", "", []),
         A1.__init__ ["A"] ["a"] ["A"] ["A"; "Z"] ["A>x>"])
  /\ match A2.__init__ ["A"] ["a"] ["Q"] ["A"] ["A>x>A"] with
     | Ret self =>
         A2.validate 1000 self = Ret "E4: A state 'Q' is not in the set of states"
     | Raise _ => False
     end.
Proof.
  split.
  - apply (proj1 undefined_state_error 1000
             (A1.__init__ ["A"] ["a"] ["A"] ["A"; "Z"] ["A>x>"]) "Z");
      [reflexivity | discriminate].
  - assert (H : match A2.__init__ ["A"] ["a"] ["Q"] ["A"] ["A>x>A"] with
                | Ret self =>
                    A2.initial self = ["Q"] /\ A2.accepting self = ["A"]
                    /\ A2.states self = ["A"]
                | Raise _ => False
                end) by (vm_compute; auto).
    destruct (A2.__init__ ["A"] ["a"] ["Q"] ["A"] ["A>x>A"]) as [self|e]; [|exact H].
    destruct H as (Hi & Ha & Hs).
    apply (proj2 undefined_state_error 1000 self "Q").
    + by rewrite Hi.
    + by rewrite Ha.
    + rewrite Hi, Ha, Hs. reflexivity.
    + discriminate.
Defined.

(** C3, as stated, fails in the translator: without an initial state the
    check E2 answers first, and the undeclared accepting state is not
    named. *)
Lemma undefined_state_after_E2 :
  (self ← A2.__init__ ["A"] ["a"] [] ["Z"] []; A2.validate 1000 self)
  = Ret "E2: Initial state is not defined".
Proof. vm_compute. reflexivity. Qed.

(** C4, as the code has it.  In the validator a fresh instance with
    well-formed transition tokens that passes the membership check and has
    more than one connected component gets "disjoint states", whatever the
    symbol check and the initial-state check would say, when the
    interpreter allows more nested calls of the traversal than there are
    declared states.  In the translator the disjointness check is the
    fifth: for an automaton that [__init__] builds, with more than one
    connected component, it answers once the checks E2 to E5 have passed,
    when the first initial state is declared (the check E4 lets the empty
    name through) and the interpreter allows more nested calls of the
    traversal than there are states. *)
Theorem disjoint_states_error :
  (forall (limit : nat) (self : A1.FSA_validator),
     A1.graph self = ∅ -> A1.undirected_graph self = ∅ ->
     well_formed (A1.trans self) ->
     A1.check_E1 self = "" -> A1.disjoint_states self ->
     length (A1.states self) < limit ->
     A1.validate_result limit self = Ret ("E2: Some states are disjoint", "", []))
  /\ (forall (limit : nat) (sts al ini acc tr : list string) (self : A2.FSA),
        A2.__init__ sts al ini acc tr = Ret self ->
        A2.__check_E2 self = false -> A2.__check_E3 self = false ->
        A2.__check_E4 self = Ret "" -> A2.__check_E5 self = Ret "" ->
        (forall i0, head (A2.initial self) = Some i0 -> i0 ∈ A2.states self) ->
        A2.disjoint_states self ->
        length (A2.states self) < limit ->
        A2.validate limit self = Ret "E6: Some states are disjoint").
Proof.
  split.
  - intros limit self Hg Hug Hwf HE1 Hdis Hlim. unfold A1.validate_result.
    destruct (A1Facts.validate_disjoint limit self Hg Hug Hwf HE1 Hdis Hlim)
      as [self' ->].
    reflexivity.
  - intros limit sts al ini acc tr self Hinit HE2 HE3 HE4 HE5 Hdecl Hdis Hlim.
    apply A2Facts.init_wf in Hinit as [Hwf _].
    assert (exists i0 rest, A2.initial self = i0 :: rest) as (i0 & rest & Hini).
    { unfold A2.__check_E2 in HE2. clear -HE2.
      destruct (A2.initial self); [done | eauto]. }
    assert (Hi0 : i0 ∈ A2.states self).
    { apply Hdecl. by rewrite Hini. }
    unfold A2.validate. rewrite HE2, HE3, HE4, bind_Ret_l.
    change (truthy "") with false. cbv iota. rewrite HE5, bind_Ret_l.
    change (truthy "") with false. cbv iota.
    by rewrite (A2Facts.check_E6_disjoint limit self i0 rest Hwf Hini Hi0 Hdis Hlim).
Qed.

Lemma disjoint_states_error_witness :
  A1.validate_result 1000 (A1.__init__ ["A"; "B"] ["a"] [] [] ["A>x>A"])
  = Ret ("E2: Some states are disjoint", "", [])
  /\ match A2.__init__ ["A"; "B"] ["a"] ["A"] ["A"; ""] ["A>a>A"] with
     | Ret self => A2.validate 1000 self = Ret "E6: Some states are disjoint"
     | Raise _ => False
     end.
Proof.
  split.
  - apply (proj1 disjoint_states_error 1000
             (A1.__init__ ["A"; "B"] ["a"] [] [] ["A>x>A"]));
      try reflexivity.
    + repeat constructor; by eexists.
    + exists "A", "B". split; [set_solver|]. split; [set_solver|].
      assert (Hstay : forall x y,
                rtc (A1.linked (A1.__init__ ["A"; "B"] ["a"] [] [] ["A>x>A"])) x y ->
                x = "A" -> y = "A").
      { induction 1 as [|x y z Hxy _ IH]; [done|]. intros ->. apply IH.
        destruct Hxy as [a [H|H]]; vm_compute in H;
          apply list_elem_of_singleton in H; congruence. }
      intros Hr. by specialize (Hstay _ _ Hr eq_refl).
    + simpl. lia.
  - assert (H : match A2.__init__ ["A"; "B"] ["a"] ["A"] ["A"; ""] ["A>a>A"] with
                | Ret self =>
                    A2.initial self = ["A"]
                    /\ A2.states self = ["A"; "B"]
                    /\ A2.trans self = ["A>a>A"]
                    /\ A2.__check_E2 self = false /\ A2.__check_E3 self = false
                    /\ A2.__check_E4 self = Ret "" /\ A2.__check_E5 self = Ret ""
                | Raise _ => False
                end) by (vm_compute; auto 10).
    destruct (A2.__init__ ["A"; "B"] ["a"] ["A"] ["A"; ""] ["A>a>A"])
      as [self|e] eqn:Hinit; [|exact H].
    destruct H as (Hi & Hs & Htr & HE2 & HE3 & HE4 & HE5).
    apply (proj2 disjoint_states_error 1000 _ _ _ _ _ self Hinit HE2 HE3 HE4 HE5).
    + intros i0. rewrite Hi, Hs. intros [= <-]. set_solver.
    + exists "A", "B". rewrite Hs. split; [set_solver|]. split; [set_solver|].
      assert (Hstay : forall x y, rtc (A2.linked self) x y -> x = "A" -> y = "A").
      { induction 1 as [|x y z Hxy _ IH]; [done|]. intros ->. apply IH.
        destruct Hxy as [a [H|H]]; rewrite Htr in H; vm_compute in H;
          apply list_elem_of_singleton in H; congruence. }
      intros Hr. by specialize (Hstay _ _ Hr eq_refl).
    + rewrite Hs. simpl. lia.
Defined.

(** C4, as stated, fails in the translator: with two connected components
    and no initial state, or an undeclared transition symbol, the earlier
    check answers. *)
Lemma disjoint_states_after_E2_E5 :
  (self ← A2.__init__ ["A"; "B"] ["a"] [] ["A"] ["A>a>A"]; A2.validate 1000 self)
  = Ret "E2: Initial state is not defined"
  /\ (self ← A2.__init__ ["A"; "B"] ["a"] ["A"] ["A"] ["A>x>A"];
      A2.validate 1000 self)
     = Ret "E5: A transition 'x' is not represented in the alphabet".
Proof. split; vm_compute; reflexivity. Qed.

End Priority.

(** ** The translator: what [validate] answers *)

Module A2Extra.
Import Py PyFacts A2 A2Facts A2More.

(** X11. Soundness of the translator's [validate]: when it accepts a
    constructed instance whose initial and accepting lists and transition
    symbols contain no empty string, the automaton is valid: the state
    names are distinct, there is an initial and an accepting state, the
    initial and accepting states are declared, every transition symbol is
    in the alphabet, every state is linked to the first initial state, and
    no state has two transitions with the same symbol.  This holds whatever
    depth of recursion the interpreter allows. *)
Theorem validate_sound limit sts al ini acc tr self :
  __init__ sts al ini acc tr = Ret self ->
  validate limit self = Ret "" ->
  "" ∉ initial self ++ accepting self ->
  (forall t, t ∈ triples (trans self) -> t.1.2 <> "") ->
  NoDup (states self)
  /\ (exists i0 rest, initial self = i0 :: rest /\ all_linked self i0)
  /\ accepting self <> []
  /\ (forall x, x ∈ initial self ++ accepting self -> x ∈ states self)
  /\ (forall t, t ∈ triples (trans self) -> t.1.2 ∈ alpha self)
  /\ ~ nondeterministic self.
Proof.
  intros Hinit Hval Hne Hsym.
  apply init_wf in Hinit as [Hwf _].
  destruct (validate_accepts limit self Hwf Hval)
    as (Hnd & (i0 & rest & Hini & Hi0) & Hacc & Hfs & Hfa & HE7).
  assert (Hfs' : first_absent (states self) (initial self ++ accepting self) = None).
  { apply elem_of_cons in Hfs as [?|Hfs]; [done|].
    apply list_elem_of_singleton in Hfs.
    by apply first_absent_Some in Hfs as [? _]. }
  assert (Hfa' : first_absent (alpha self) ((triples (trans self)).*1.*2) = None).
  { apply elem_of_cons in Hfa as [?|Hfa]; [done|].
    apply list_elem_of_singleton in Hfa.
    apply first_absent_Some in Hfa as [Hin _].
    apply list_elem_of_fmap in Hin as (p & Hp & Hin).
    apply list_elem_of_fmap in Hin as (t & -> & Ht).
    by destruct (Hsym t Ht). }
  assert (Halpha : forall t, t ∈ triples (trans self) -> t.1.2 ∈ alpha self).
  { intros t Ht. eapply first_absent_None in Hfa'; [exact Hfa'|].
    apply list_elem_of_fmap. exists t.1. split; [done|].
    apply list_elem_of_fmap. by exists t. }
  split; [done|]. split.
  { exists i0, rest. split; [done|].
    destruct (validate_wf_declared limit self i0 rest Hwf Hini Hacc Hi0)
      as (vis & e7 & Hvis & _ & [Hv|[Hv _]]); [|by rewrite Hv in Hval].
    rewrite Hv, Hfs', Hfa' in Hval. simpl in Hval.
    destruct (size vis =? length (states self)) eqn:Hsz; [|discriminate].
    apply Nat.eqb_eq, A1More.size_visited_all in Hsz as [_ Hall].
    - intros s Hs. by apply Hvis, Hall.
    - intros x Hx%Hvis. by eapply rtc_linked_declared. }
  split; [done|]. split; [by apply first_absent_None|]. split; [done|].
  intros (s & a & Hlen).
  assert (__check_E7 self = Ret true) as HE7'; [|congruence].
  apply check_E7_exact; [done|]. exists s, a. split; [|done].
  assert (exists t, t ∈ base.filter (fun t => t.1.1 = s /\ t.1.2 = a)
                          (triples (trans self))) as [t Ht].
  { destruct (base.filter _ _) as [|t l]; [simpl in Hlen; lia|]. exists t. left. }
  apply list_elem_of_filter in Ht as [[_ <-] Ht]. by apply Halpha.
Qed.

Lemma validate_sound_witness :
  match __init__ ["A"; "B"] ["a"; "b"] ["A"] ["B"] ["A>a>B"; "B>b>A"] with
  | Ret self =>
      NoDup (states self)
      /\ (exists i0 rest, initial self = i0 :: rest /\ all_linked self i0)
      /\ accepting self <> []
      /\ (forall x, x ∈ initial self ++ accepting self -> x ∈ states self)
      /\ (forall t, t ∈ triples (trans self) -> t.1.2 ∈ alpha self)
      /\ ~ nondeterministic self
  | Raise _ => False
  end.
Proof.
  assert (H : match __init__ ["A"; "B"] ["a"; "b"] ["A"] ["B"]
                      ["A>a>B"; "B>b>A"] with
              | Ret self => validate 1000 self = Ret ""
              | Raise _ => False
              end) by (vm_compute; reflexivity).
  destruct (__init__ ["A"; "B"] ["a"; "b"] ["A"] ["B"] ["A>a>B"; "B>b>A"])
    as [self|e] eqn:Hinit; [|exact H].
  destruct (init_wf _ _ _ _ _ _ Hinit) as (_ & _ & _ & Hi & Ha & Htr).
  apply (validate_sound 1000 _ _ _ _ _ self Hinit H).
  - rewrite Hi, Ha. refine (bool_decide_unpack _ _). vm_compute. exact I.
  - rewrite Htr. apply Forall_forall.
    refine (bool_decide_unpack _ _). vm_compute. exact I.
Defined.

(** X12. Completeness of the translator's [validate]: a constructed
    instance with distinct state names, a first initial state to which
    every state is linked, an accepting state, declared initial and
    accepting states, transition symbols from the alphabet and no state
    with two transitions on one symbol is accepted, when the interpreter
    allows more nested calls of the traversal than there are states. *)
Theorem validate_complete limit sts al ini acc tr self i0 rest :
  __init__ sts al ini acc tr = Ret self ->
  NoDup (states self) ->
  initial self = i0 :: rest -> accepting self <> [] ->
  (forall x, x ∈ initial self ++ accepting self -> x ∈ states self) ->
  (forall t, t ∈ triples (trans self) -> t.1.2 ∈ alpha self) ->
  all_linked self i0 ->
  ~ nondeterministic self ->
  length (states self) < limit ->
  validate limit self = Ret "".
Proof.
  intros Hinit Hnd Hini Hacc Hdecl Halpha Hall Hdet Hlim.
  apply init_wf in Hinit as [Hwf _]. by eapply validate_complete_wf.
Qed.

Lemma validate_complete_witness :
  match __init__ ["A"; "B"] ["a"; "b"] ["A"] ["B"] ["A>a>B"; "B>b>A"] with
  | Ret self => validate 1000 self = Ret ""
  | Raise _ => False
  end.
Proof.
  assert (H : match __init__ ["A"; "B"] ["a"; "b"] ["A"] ["B"]
                      ["A>a>B"; "B>b>A"] with
              | Ret self => True
              | Raise _ => False
              end) by (vm_compute; exact I).
  destruct (__init__ ["A"; "B"] ["a"; "b"] ["A"] ["B"] ["A>a>B"; "B>b>A"])
    as [self|e] eqn:Hinit; [|exact H].
  destruct (init_wf _ _ _ _ _ _ Hinit) as (_ & Hs & Hal & Hi & Ha & Htr).
  apply (validate_complete 1000 _ _ _ _ _ self "A" [] Hinit).
  - rewrite Hs. refine (bool_decide_unpack _ _). vm_compute. exact I.
  - done.
  - by rewrite Ha.
  - rewrite Hi, Ha, Hs. apply Forall_forall.
    refine (bool_decide_unpack _ _). vm_compute. exact I.
  - rewrite Htr, Hal. apply Forall_forall.
    refine (bool_decide_unpack _ _). vm_compute. exact I.
  - intros s. rewrite Hs. intros [->|Hs']%elem_of_cons; [apply rtc_refl|].
    apply list_elem_of_singleton in Hs' as ->. apply rtc_once.
    exists "a". left. rewrite Htr.
    refine (bool_decide_unpack _ _). vm_compute. exact I.
  - intros (s & a & Hlen). rewrite Htr in Hlen.
    change (triples ["A>a>B"; "B>b>A"]) with [("A", "a", "B"); ("B", "b", "A")] in Hlen.
    rewrite !filter_cons, filter_nil in Hlen.
    repeat (destruct (decide _) in Hlen); simpl in *; try lia; intuition congruence.
  - rewrite Hs. simpl. lia.
Defined.

(** X13. On a constructed instance with an initial and an accepting state,
    whose initial and accepting states are declared and whose transition
    symbols are in the alphabet, when the interpreter allows more nested
    calls of the traversal than there are states, the translator's
    [validate] reports "E6: Some states are disjoint" exactly when a state
    name is declared twice or some declared state is not linked to the
    first initial state. *)
Theorem validate_E6_exact limit sts al ini acc tr self i0 rest :
  __init__ sts al ini acc tr = Ret self ->
  initial self = i0 :: rest -> accepting self <> [] ->
  (forall x, x ∈ initial self ++ accepting self -> x ∈ states self) ->
  (forall t, t ∈ triples (trans self) -> t.1.2 ∈ alpha self) ->
  length (states self) < limit ->
  validate limit self = Ret "E6: Some states are disjoint"
  <-> ~ NoDup (states self)
      \/ exists s, s ∈ states self /\ ~ rtc (linked self) i0 s.
Proof.
  intros Hinit Hini Hacc Hdecl Halpha Hlim.
  apply init_wf in Hinit as [Hwf _].
  assert (Hi0 : i0 ∈ states self).
  { apply Hdecl. rewrite Hini. left. }
  destruct (validate_wf_declared limit self i0 rest Hwf Hini Hacc Hi0)
    as (vis & e7 & Hvis & He7 & [->|[_ Hlim']]); [|lia].
  rewrite (proj2 (first_absent_None _ _) Hdecl).
  assert (first_absent (alpha self) ((triples (trans self)).*1.*2) = None) as ->.
  { apply first_absent_None. intros x Hx.
    apply list_elem_of_fmap in Hx as (p & -> & Hp).
    apply list_elem_of_fmap in Hp as (t & -> & Ht). by apply Halpha. }
  simpl.
  assert (Hsub : forall x, x ∈ vis -> x ∈ states self).
  { intros x Hx%Hvis. by eapply rtc_linked_declared. }
  destruct (size vis =? length (states self)) eqn:Hsz; simpl.
  - apply Nat.eqb_eq, A1More.size_visited_all in Hsz as [Hnd Hall]; [|done].
    split.
    + by destruct e7.
    + intros [Hn|(s & Hs & Hn)]; [done|]. destruct Hn. by apply Hvis, Hall.
  - split; [intros _|done]. apply Nat.eqb_neq in Hsz.
    destruct (A1More.size_visited_short _ _ Hsub Hsz) as [?|(s & Hs & Hn)];
      [by left|].
    right. exists s. split; [done|]. by rewrite <- Hvis.
Qed.

Lemma validate_E6_exact_witness :
  match __init__ ["A"; "A"] ["a"] ["A"] ["A"] ["A>a>A"] with
  | Ret self => validate 1000 self = Ret "E6: Some states are disjoint"
  | Raise _ => False
  end.
Proof.
  assert (H : match __init__ ["A"; "A"] ["a"] ["A"] ["A"] ["A>a>A"] with
              | Ret self => True
              | Raise _ => False
              end) by (vm_compute; exact I).
  destruct (__init__ ["A"; "A"] ["a"] ["A"] ["A"] ["A>a>A"])
    as [self|e] eqn:Hinit; [|exact H].
  destruct (init_wf _ _ _ _ _ _ Hinit) as (_ & Hs & Hal & Hi & Ha & Htr).
  apply (validate_E6_exact 1000 _ _ _ _ _ self "A" [] Hinit).
  - done.
  - by rewrite Ha.
  - rewrite Hi, Ha, Hs. apply Forall_forall.
    refine (bool_decide_unpack _ _). vm_compute. exact I.
  - rewrite Htr, Hal. apply Forall_forall.
    refine (bool_decide_unpack _ _). vm_compute. exact I.
  - rewrite Hs. simpl. lia.
  - left. rewrite Hs. refine (bool_decide_unpack _ _). vm_compute. exact I.
Defined.

(** X14. On a constructed instance with an initial and an accepting state,
    whose initial and accepting states are declared and whose transition
    symbols are in the alphabet, when the interpreter allows more nested
    calls of the traversal than there are states, the translator's
    [validate] reports "E7: FSA is nondeterministic" exactly when the state
    names are distinct, every state is linked to the first initial state,
    and some state has two transitions with the same symbol. *)
Theorem validate_E7_exact limit sts al ini acc tr self i0 rest :
  __init__ sts al ini acc tr = Ret self ->
  initial self = i0 :: rest -> accepting self <> [] ->
  (forall x, x ∈ initial self ++ accepting self -> x ∈ states self) ->
  (forall t, t ∈ triples (trans self) -> t.1.2 ∈ alpha self) ->
  length (states self) < limit ->
  validate limit self = Ret "E7: FSA is nondeterministic"
  <-> NoDup (states self) /\ all_linked self i0 /\ nondeterministic self.
Proof.
  intros Hinit Hini Hacc Hdecl Halpha Hlim.
  apply init_wf in Hinit as [Hwf _].
  assert (Hi0 : i0 ∈ states self).
  { apply Hdecl. rewrite Hini. left. }
  destruct (validate_wf_declared limit self i0 rest Hwf Hini Hacc Hi0)
    as (vis & e7 & Hvis & He7 & [->|[_ Hlim']]); [|lia].
  rewrite (proj2 (first_absent_None _ _) Hdecl).
  assert (first_absent (alpha self) ((triples (trans self)).*1.*2) = None) as ->.
  { apply first_absent_None. intros x Hx.
    apply list_elem_of_fmap in Hx as (p & -> & Hp).
    apply list_elem_of_fmap in Hp as (t & -> & Ht). by apply Halpha. }
  simpl.
  assert (Hsub : forall x, x ∈ vis -> x ∈ states self).
  { intros x Hx%Hvis. by eapply rtc_linked_declared. }
  assert (Hnd7 : nondeterministic self <-> e7 = true).
  { rewrite He7. split.
    - intros (s & a & Hlen). exists s, a. split; [|done].
      assert (exists t, t ∈ base.filter (fun t => t.1.1 = s /\ t.1.2 = a)
                              (triples (trans self))) as [t Ht].
      { destruct (base.filter _ _) as [|t l]; [simpl in Hlen; lia|]. exists t. left. }
      apply list_elem_of_filter in Ht as [[_ <-] Ht]. by apply Halpha.
    - intros (s & a & _ & Hlen). by exists s, a. }
  destruct (size vis =? length (states self)) eqn:Hsz; simpl.
  - apply Nat.eqb_eq, A1More.size_visited_all in Hsz as [Hnd Hall]; [|done].
    rewrite Hnd7. destruct e7.
    + split; [intros _|done]. split; [done|]. split; [|done].
      intros s Hs. by apply Hvis, Hall.
    + split; [done|]. by intros (_ & _ & ?).
  - split; [done|]. intros (Hnd & Hall & _). apply Nat.eqb_neq in Hsz.
    destruct Hsz. apply A1More.size_visited_all; [done|]. split; [done|].
    intros s Hs. by apply Hvis, Hall.
Qed.

Lemma validate_E7_exact_witness :
  match __init__ ["A"; "B"] ["a"] ["A"] ["B"] ["A>a>B"; "A>a>A"] with
  | Ret self =>
      validate 1000 self = Ret "E7: FSA is nondeterministic"
      <-> NoDup (states self) /\ all_linked self "A" /\ nondeterministic self
  | Raise _ => False
  end.
Proof.
  assert (H : match __init__ ["A"; "B"] ["a"] ["A"] ["B"] ["A>a>B"; "A>a>A"] with
              | Ret self => True
              | Raise _ => False
              end) by (vm_compute; exact I).
  destruct (__init__ ["A"; "B"] ["a"] ["A"] ["B"] ["A>a>B"; "A>a>A"])
    as [self|e] eqn:Hinit; [|exact H].
  destruct (init_wf _ _ _ _ _ _ Hinit) as (_ & Hs & Hal & Hi & Ha & Htr).
  apply (validate_E7_exact 1000 _ _ _ _ _ self "A" [] Hinit).
  - done.
  - by rewrite Ha.
  - rewrite Hi, Ha, Hs. apply Forall_forall.
    refine (bool_decide_unpack _ _). vm_compute. exact I.
  - rewrite Htr, Hal. apply Forall_forall.
    refine (bool_decide_unpack _ _). vm_compute. exact I.
  - rewrite Hs. simpl. lia.
Defined.

End A2Extra.

(** ** The translator: construction, exceptions and the input *)

Module A2Parse.
Import Py PyFacts PyStrings A2 A2Facts A2More.

(** *** What the construction can raise *)

Lemma create_graphs_Raise_inv (n : nat) (d : gmap string nat) (tr : list string) e :
  (forall s i, d !! s = Some i -> i < n) ->
  forall g ug, square n g -> square n ug ->
  __create_graphs d tr g ug = Raise e ->
  (e = ValueError /\ ~ well_formed tr)
  \/ (e = KeyError
      /\ exists t, t ∈ triples tr /\ (d !! t.1.1 = None \/ d !! t.2 = None)).
Proof.
  intros Hd. unfold __create_graphs.
  induction tr as [|el tr IH]; intros g ug Hsq Husq; cbn [for_each];
    [discriminate|].
  destruct (split_trans el) as [[[s1 a] s2]|e'] eqn:Hsplit.
  2:{ rewrite !bind_Raise_l. intros [= <-]. left.
      split; [by eapply A1Facts.split_trans_Raise|].
      intros [[t Ht] _]%Forall_cons. unfold triple_of in Ht. by rewrite Hsplit in Ht. }
  assert (Hel : triple_of el = Some (s1, a, s2))
    by (unfold triple_of; by rewrite Hsplit).
  rewrite bind_Ret_l.
  destruct (d !! s1) as [i1|] eqn:H1.
  2:{ assert (getkey d s1 = Raise KeyError) as -> by (unfold getkey; by rewrite H1).
      rewrite !bind_Raise_l. intros [= <-]. right. split; [done|].
      exists (s1, a, s2). rewrite (A1Facts.triples_cons _ _ _ Hel).
      split; [left | by left]. }
  rewrite (proj2 (getkey_Ret d s1 i1) H1), bind_Ret_l.
  destruct (d !! s2) as [i2|] eqn:H2.
  2:{ assert (getkey d s2 = Raise KeyError) as -> by (unfold getkey; by rewrite H2).
      rewrite !bind_Raise_l. intros [= <-]. right. split; [done|].
      exists (s1, a, s2). rewrite (A1Facts.triples_cons _ _ _ Hel).
      split; [left | by right]. }
  rewrite (proj2 (getkey_Ret d s2 i2) H2), bind_Ret_l.
  pose proof (Hd _ _ H1) as Hi1. pose proof (Hd _ _ H2) as Hi2.
  destruct (append_cell_square n g i1 i2 a Hsq Hi1 Hi2) as (ga & -> & Hsqa & _).
  rewrite bind_Ret_l.
  destruct (append_cell_square n ug i1 i2 a Husq Hi1 Hi2) as (ub & -> & Hsqb & _).
  rewrite bind_Ret_l.
  destruct (append_cell_square n ub i2 i1 a Hsqb Hi2 Hi1) as (uc & -> & Hsqc & _).
  rewrite !bind_Ret_l. intros H.
  destruct (IH ga uc Hsqa Hsqc H) as [[-> Hn]|(-> & t & Ht & Hnone)].
  - left. split; [done|]. intros [_ ?]%Forall_cons. done.
  - right. split; [done|]. exists t. rewrite (A1Facts.triples_cons _ _ _ Hel).
    split; [by right | done].
Qed.

Lemma init_Raise_inv sts al ini acc tr e :
  __init__ sts al ini acc tr = Raise e ->
  (e = ValueError /\ ~ well_formed tr)
  \/ (e = KeyError
      /\ exists t, t ∈ triples tr /\ (t.1.1 ∉ sts \/ t.2 ∉ sts)).
Proof.
  unfold __init__.
  destruct (make_state2id_spec sts) as (d & -> & Hid & Hkey).
  destruct (make_id2state_spec sts) as (d' & -> & Hname).
  rewrite !bind_Ret_l.
  destruct (__create_graphs d tr _ _) as [[g ug]|e'] eqn:Hcg; [done|].
  rewrite bind_Raise_l. intros [= ->].
  apply (create_graphs_Raise_inv (length sts)) in Hcg
    as [?|(-> & t & Ht & Hnone)]; [by left | | |apply square_replicate..].
  - right. split; [done|]. exists t. split; [done|].
    destruct Hnone as [Hn|Hn]; [left | right]; intros Hin;
      destruct (Hkey _ Hin) as [i Hi]; congruence.
  - intros s i Hs. eapply lookup_lt_Some. by apply Hid.
Qed.

(** *** What [validate] and [Kleene] can raise *)

Lemma validate_Raise_inv limit self e :
  wf self -> validate limit self = Raise e ->
  (e = KeyError /\ head (initial self) = Some "" /\ "" ∉ states self)
  \/ (e = RecursionError /\ limit <= length (states self)).
Proof.
  intros Hwf Hv.
  destruct (initial self) as [|i0 rest] eqn:Hini.
  { unfold validate, __check_E2 in Hv. by rewrite Hini in Hv. }
  destruct (decide (accepting self = [])) as [Ha|Ha].
  { unfold validate, __check_E2, __check_E3 in Hv. by rewrite Hini, Ha in Hv. }
  destruct (validate_wf_eq limit self i0 rest Hwf Hini Ha) as (e7 & _ & Heq).
  rewrite Heq in Hv. cbv zeta in Hv. rewrite Hini in Hv.
  destruct (truthy (default "" (first_absent (states self) _))) eqn:Hfs;
    [discriminate|].
  apply truthy_false in Hfs.
  destruct (truthy _); [discriminate|].
  destruct (__check_E6 limit self) as [e6|e'] eqn:HE6.
  { rewrite bind_Ret_l in Hv. by destruct e6, e7. }
  rewrite bind_Raise_l in Hv. injection Hv as ->.
  destruct (check_E6_limit limit self Hwf) as [Hdeep|[Hrec Hlt]].
  2:{ right. rewrite Hrec in HE6. injection HE6 as <-. split; [done|].
      unfold DFS_depth in Hlt. rewrite (wf_n _ Hwf) in Hlt. lia. }
  left. rewrite Hdeep in HE6.
  destruct (decide (i0 ∈ states self)) as [Hi0|Hi0].
  { destruct (check_E6_exact self i0 rest Hwf Hini Hi0) as (vis & HE6' & _).
    by rewrite HE6' in HE6. }
  destruct (first_absent_head _ _ _ _ Hfs) as [?|Hi]; [done|]. subst i0.
  split; [|done].
  unfold __check_E6 in HE6. rewrite Hini in HE6.
  change (getitem ("" :: rest) 0) with (Ret (A:=string) "") in HE6.
  rewrite bind_Ret_l in HE6.
  pose proof (A2_DFS_depth self (undirected_graph self) "" Hwf (wf_ugraph _ Hwf))
    as Hpost.
  destruct (__DFS _ _ _ _ _) as [vis|e'] eqn:Hdfs; [done|].
  rewrite bind_Raise_l in HE6. injection HE6 as ->. by destruct Hpost.
Qed.

Lemma Kleene_regs_Raise self (R : list (list string)) i0 rest e :
  wf self -> square (n self) R ->
  initial self = i0 :: rest -> i0 ∈ states self ->
  Kleene_regs self R = Raise e ->
  e = KeyError /\ exists f, f ∈ accepting self /\ f ∉ states self.
Proof.
  intros Hwf Hsq Hini Hi0. unfold Kleene_regs.
  match goal with |- for_each _ ?b _ = _ -> _ => set (body := b) end.
  assert (Hbody : forall f acc,
    (f ∈ states self /\ exists x, body f acc = Ret (acc ++ [x]))
    \/ (f ∉ states self /\ body f acc = Raise KeyError)).
  { intros f acc. unfold body.
    assert (getitem (initial self) 0 = Ret i0) as -> by (by rewrite Hini).
    rewrite bind_Ret_l.
    destruct (wf_key _ Hwf i0 Hi0) as [ii Hii].
    rewrite (proj2 (getkey_Ret _ _ _) Hii), bind_Ret_l.
    pose proof (wf_id_lt _ _ _ Hwf Hii) as Hlti.
    destruct (lookup_lt_is_Some_2 R ii) as [row Hrow]; [destruct Hsq; lia|].
    rewrite (proj2 (getitem_Ret _ _ _) Hrow), bind_Ret_l.
    destruct (state2id self !! f) as [j|] eqn:Hj.
    - left. split; [eapply list_elem_of_lookup_2; by eapply wf_id|].
      rewrite (proj2 (getkey_Ret _ _ _) Hj), bind_Ret_l.
      pose proof (wf_id_lt _ _ _ Hwf Hj) as Hltj.
      destruct (lookup_lt_is_Some_2 row j) as [x Hx].
      { destruct Hsq as [_ Hrows]. rewrite (Hrows _ _ Hrow). lia. }
      exists x. by rewrite (proj2 (getitem_Ret _ _ _) Hx), bind_Ret_l.
    - right. split.
      + intros Hf. destruct (wf_key _ Hwf f Hf). congruence.
      + unfold getkey. by rewrite Hj. }
  clearbody body. generalize (@nil string) as regs.
  induction (accepting self) as [|f l IH]; intros regs; simpl; [discriminate|].
  destruct (Hbody f regs) as [[Hf [x ->]]|[Hf ->]].
  - rewrite bind_Ret_l. intros H. destruct (IH _ H) as (-> & f' & Hf' & Hn).
    split; [done|]. exists f'. split; [by right | done].
  - rewrite bind_Raise_l. intros [= <-]. split; [done|]. exists f.
    split; [left | done].
Qed.

Lemma Kleene_Raise_inv limit self e :
  wf self -> Kleene limit self = Raise e ->
  (e = KeyError /\ "" ∉ states self /\ "" ∈ initial self ++ accepting self)
  \/ (e = RecursionError /\ limit <= length (states self)).
Proof.
  intros Hwf. unfold Kleene.
  destruct (validate limit self) as [v|e'] eqn:Hv.
  2:{ rewrite bind_Raise_l. intros [= ->].
      destruct (validate_Raise_inv limit self e Hwf Hv)
        as [(-> & Hh & Hn)|[-> Hlim]]; [left | by right].
      split; [done|]. split; [done|].
      destruct (initial self) as [|i0 rest]; [done|]. injection Hh as ->.
      simpl. left. }
  rewrite bind_Ret_l. destruct (truthy v) eqn:Ht; [discriminate|].
  apply truthy_false in Ht as ->.
  destruct (validate_accepts _ _ Hwf Hv)
    as (Hnd & (i0 & rest & Hini & Hi0) & _ & Hfs & _).
  destruct (Kleene_initial_spec self (replicate (n self) (replicate (n self) ""))
              Hwf (square_replicate _ _)) as (R0 & -> & Hsq0 & _).
  rewrite bind_Ret_l.
  destruct (Kleene_update_spec (n self) R0 Hsq0) as (R & Rp & -> & Hsq & _).
  rewrite bind_Ret_l.
  destruct (Kleene_regs self R) as [regs|e'] eqn:Hregs; [discriminate|].
  rewrite bind_Raise_l. intros [= ->].
  destruct (Kleene_regs_Raise self R i0 rest e Hwf Hsq Hini Hi0 Hregs)
    as (-> & f & Hf & Hn).
  left. split; [done|].
  apply elem_of_cons in Hfs as [Hfs|Hfs].
  - exfalso. apply Hn. eapply first_absent_None; [exact Hfs|].
    apply elem_of_app. by right.
  - apply list_elem_of_singleton in Hfs.
    apply first_absent_Some in Hfs as [? ?]. done.
Qed.

(** *** Reading the input *)

Lemma A2_check_lines_cases (ls : list string) :
  match check_lines ls with
  | Ret _ => length ls = 5
  | Raise e => e = AssertionError
  end.
Proof.
  unfold check_lines.
  destruct (decide (length ls = 5)) as [Hlen|Hlen].
  2:{ by rewrite bool_decide_false. }
  rewrite bool_decide_true by done.
  destruct ls as [|a [|b [|c [|d [|e [|f l]]]]]]; try discriminate Hlen.
  rewrite A1Parse.assert_true, bind_Ret_l.
  change (getitem [a; b; c; d; e] 0) with (Ret a).
  change (getitem [a; b; c; d; e] 1) with (Ret b).
  change (getitem [a; b; c; d; e] 2) with (Ret c).
  change (getitem [a; b; c; d; e] 3) with (Ret d).
  change (getitem [a; b; c; d; e] 4) with (Ret e).
  rewrite bind_Ret_l. destruct (startswith a _); [|done].
  rewrite A1Parse.assert_true, !bind_Ret_l. destruct (startswith b _); [|done].
  rewrite A1Parse.assert_true, !bind_Ret_l. destruct (startswith c _); [|done].
  rewrite A1Parse.assert_true, !bind_Ret_l. destruct (startswith d _); [|done].
  rewrite A1Parse.assert_true, !bind_Ret_l. by destruct (startswith e _).
Qed.

(** What the translator's [parse_lines] returns, and the only exception it
    raises. *)
Lemma A2_parse_lines_inv (lines : list string) :
  match parse_lines lines with
  | Ret (sts, al, ini, acc, tr) =>
      sts <> [] /\ al <> [] /\ length ini <= 1
      /\ Forall (fun s => isalnum s = true) sts
      /\ Forall (fun a => isalnum (remove_char "_" a) = true) al
  | Raise e => e = AssertionError
  end.
Proof.
  unfold parse_lines.
  set (ls := map strip lines).
  pose proof (A2_check_lines_cases ls) as Hcl.
  destruct (check_lines ls) as [[]|e]; [|done]. rewrite bind_Ret_l.
  destruct ls as [|a [|b [|c [|d [|e [|f l]]]]]]; try discriminate Hcl.
  change (getitem [a; b; c; d; e] 0) with (Ret a).
  change (getitem [a; b; c; d; e] 1) with (Ret b).
  change (getitem [a; b; c; d; e] 2) with (Ret c).
  change (getitem [a; b; c; d; e] 3) with (Ret d).
  change (getitem [a; b; c; d; e] 4) with (Ret e).
  rewrite !bind_Ret_l. rewrite !for_each_assert.
  destruct (forallb _ (items a)) eqn:Hsts; [|done]. rewrite bind_Ret_l.
  destruct (forallb _ (items b)) eqn:Hal; [|done]. rewrite bind_Ret_l.
  destruct (decide (items a = [])) as [Ha|Ha].
  { rewrite (bool_decide_true (items a = [])) by done. reflexivity. }
  rewrite (bool_decide_false (items a = [])) by done. simpl negb.
  rewrite A1Parse.assert_true, bind_Ret_l.
  destruct (decide (items b = [])) as [Hb|Hb].
  { rewrite (bool_decide_true (items b = [])) by done. reflexivity. }
  rewrite (bool_decide_false (items b = [])) by done. simpl negb.
  rewrite A1Parse.assert_true, bind_Ret_l.
  destruct (length (items c) <=? 1) eqn:Hc; [|done].
  rewrite A1Parse.assert_true, bind_Ret_l. apply Nat.leb_le in Hc.
  split; [done|]. split; [done|]. split; [done|].
  split; by apply A1Parse.forallb_Forall.
Qed.

(** The custom [isalnum] accepts only what the built-in accepts, apart
    from the empty string. *)
Lemma isalnum_char (c : ascii) :
  negb (negb (char_isdigit c) && negb (in_ascii_letters c)) = true ->
  char_isalnum c = true.
Proof.
  destruct c as [[] [] [] [] [] [] [] []]; vm_compute; intros H;
    (discriminate H || reflexivity).
Qed.

Lemma isalnum_no_comma (s : string) : isalnum s = true -> no_char "," s = true.
Proof.
  unfold isalnum, no_char. induction s as [|c s IH]; [done|].
  cbn [string_forallb]. intros [Hc Hs]%andb_prop.
  apply isalnum_char, char_isalnum_plain in Hc as [-> _]. by rewrite IH.
Qed.

Lemma remove_char_isalnum_plain (s : string) :
  isalnum (remove_char "_" s) = true -> no_char "," s = true.
Proof.
  intros H. unfold no_char in *.
  induction s as [|c s IH]; [done|].
  cbn [string_forallb remove_char] in *.
  destruct (Ascii.eqb c "_") eqn:Hc.
  - apply Ascii.eqb_eq in Hc as ->. rewrite IH by done. by vm_compute.
  - unfold isalnum in H. cbn [string_forallb] in H.
    apply andb_prop in H as [Hc' Hs].
    apply isalnum_char, char_isalnum_plain in Hc' as [-> _]. by rewrite IH.
Qed.

Lemma A2_items_render (name : string) (xs : list string) :
  no_char "[" name = true -> plain xs ->
  items (render name xs) = xs.
Proof. exact (A1Parse.items_render name xs). Qed.

End A2Parse.

Module A2InputExtra.
Import Py PyFacts PyStrings A2 A2Facts A2More A2Parse.

(** X15. The constructor of [FSA] returns exactly when every transition
    token splits into three parts and names declared states only;
    otherwise it raises [ValueError] for a token that does not split, or
    [KeyError] for an undeclared state, and nothing else. *)
Theorem init_cases (sts al ini acc tr : list string) :
  match __init__ sts al ini acc tr with
  | Ret self =>
      well_formed tr
      /\ forall t, t ∈ triples tr -> t.1.1 ∈ sts /\ t.2 ∈ sts
  | Raise e =>
      (e = ValueError /\ ~ well_formed tr)
      \/ (e = KeyError
          /\ exists t, t ∈ triples tr /\ (t.1.1 ∉ sts \/ t.2 ∉ sts))
  end.
Proof.
  destruct (__init__ sts al ini acc tr) as [self|e] eqn:Hinit.
  - destruct (init_wf _ _ _ _ _ _ Hinit) as (Hwf & Hs & _ & _ & _ & Htr).
    rewrite <- Htr, <- Hs. split; [apply (wf_trans _ Hwf)|].
    apply (wf_declared _ Hwf).
  - exact (init_Raise_inv _ _ _ _ _ _ Hinit).
Qed.

(** X16. On a constructed instance [Kleene] raises in two cases only:
    [KeyError], and only when the empty string is among the initial and
    accepting states without being a declared state, and [RecursionError],
    and only when the interpreter allows no more nested calls of the
    traversal than there are states. *)
Theorem Kleene_Raise_cases limit sts al ini acc tr self e :
  __init__ sts al ini acc tr = Ret self ->
  Kleene limit self = Raise e ->
  (e = KeyError /\ "" ∉ states self /\ "" ∈ initial self ++ accepting self)
  \/ (e = RecursionError /\ limit <= length (states self)).
Proof.
  intros Hinit HK. apply init_wf in Hinit as [Hwf _].
  by apply Kleene_Raise_inv.
Qed.

Lemma Kleene_Raise_cases_witness :
  match __init__ ["A"; "B"; "C"] ["a"] ["A"] ["C"] ["A>a>B"; "B>a>C"] with
  | Ret self =>
      (RecursionError = KeyError /\ "" ∉ states self
       /\ "" ∈ initial self ++ accepting self)
      \/ (RecursionError = RecursionError /\ 2 <= length (states self))
  | Raise _ => False
  end.
Proof.
  assert (H : match __init__ ["A"; "B"; "C"] ["a"] ["A"] ["C"]
                      ["A>a>B"; "B>a>C"] with
              | Ret self => Kleene 2 self = Raise RecursionError
              | Raise _ => False
              end) by (vm_compute; reflexivity).
  destruct (__init__ ["A"; "B"; "C"] ["a"] ["A"] ["C"] ["A>a>B"; "B>a>C"])
    as [self|e] eqn:Hinit; [|exact H].
  exact (Kleene_Raise_cases 2 _ _ _ _ _ self RecursionError Hinit H).
Defined.

(** X17. An exception escapes the translator's [main] only after the
    input has been parsed: [ValueError] when a transition token does not
    split into three parts, [KeyError] when a transition names an
    undeclared state or when the empty string, not declared, is among the
    initial and accepting states, and [RecursionError] when the
    interpreter allows no more nested calls of the traversal than there
    are states. *)
Theorem translator_main_Raise_cases (limit : nat) (input : list string) (e : exn) :
  main limit input = Raise e ->
  exists sts al ini acc tr,
    parse_lines input = Ret (sts, al, ini, acc, tr)
    /\ ((e = ValueError /\ ~ well_formed tr)
        \/ (e = KeyError
            /\ ((exists t, t ∈ triples tr /\ (t.1.1 ∉ sts \/ t.2 ∉ sts))
                \/ ("" ∉ sts /\ "" ∈ ini ++ acc)))
        \/ (e = RecursionError /\ limit <= length sts)).
Proof.
  unfold main. pose proof (A2_parse_lines_inv input) as Hp.
  destruct (parse_lines input) as [[[[[sts al] ini] acc] tr]|e'].
  2:{ subst e'. by rewrite bind_Raise_l. }
  clear Hp. rewrite bind_Ret_l. intros Hm.
  exists sts, al, ini, acc, tr. split; [done|].
  destruct (__init__ sts al ini acc tr) as [self|e'] eqn:Hinit.
  - rewrite bind_Ret_l in Hm.
    destruct (Kleene limit self) as [r|e''] eqn:HK; [done|].
    destruct (init_wf _ _ _ _ _ _ Hinit) as (Hwf & Hs & _ & Hi & Ha & _).
    destruct (Kleene_Raise_inv limit self e'' Hwf HK)
      as [(-> & Hn & Hin)|[-> Hlim]]; injection Hm as <-.
    + right. left. split; [done|]. right. by rewrite <- Hs, <- Hi, <- Ha.
    + right. right. split; [done|]. by rewrite <- Hs.
  - rewrite bind_Raise_l in Hm.
    destruct (init_Raise_inv _ _ _ _ _ _ Hinit) as [[-> ?]|[-> ?]];
      injection Hm as <-; [by left|]. right. left. split; [done|]. by left.
Qed.

Lemma translator_main_Raise_cases_witness :
  exists sts al ini acc tr,
    parse_lines ["states=[a]"; "alpha=[x]"; "initial=[a]"; "accepting=[a]";
                 "trans=[a>x>b]"]
    = Ret (sts, al, ini, acc, tr)
    /\ ((KeyError = ValueError /\ ~ well_formed tr)
        \/ (KeyError = KeyError
            /\ ((exists t, t ∈ triples tr /\ (t.1.1 ∉ sts \/ t.2 ∉ sts))
                \/ ("" ∉ sts /\ "" ∈ ini ++ acc)))
        \/ (KeyError = RecursionError /\ 1000 <= length sts)).
Proof.
  apply (translator_main_Raise_cases 1000
           ["states=[a]"; "alpha=[x]"; "initial=[a]"; "accepting=[a]";
            "trans=[a>x>b]"] KeyError).
  vm_compute. reflexivity.
Defined.

(** X18. Reading back what was written, for the translator: for states
    made of Latin letters and digits, symbols made of them and
    underscores, at most one initial state, and lists that a line can
    carry, [parse_lines] applied to the five lines
    [name=[item,...,item]] returns the five lists. *)
Theorem translator_parse_round_trip (sts al ini acc tr : list string) :
  sts <> [] -> sts <> [""] -> al <> [] -> al <> [""] ->
  Forall (fun s => isalnum s = true) sts ->
  Forall (fun a => isalnum (remove_char "_" a) = true) al ->
  plain ini -> length ini <= 1 -> plain acc -> plain tr ->
  parse_lines (input_txt sts al ini acc tr) = Ret (sts, al, ini, acc, tr).
Proof.
  intros Hsts Hsts' Hal Hal' Hs Ha Hini Hlen Hacc Htr.
  assert (Hps : plain sts).
  { split; [done|]. eapply Forall_impl; [exact Hs|]. intros x Hx.
    by apply isalnum_no_comma. }
  assert (Hpa : plain al).
  { split; [done|]. eapply Forall_impl; [exact Ha|]. intros x Hx.
    by apply remove_char_isalnum_plain. }
  unfold parse_lines, input_txt. cbn [map].
  rewrite !A1Parse.strip_render by reflexivity.
  assert (check_lines [render "states" sts; render "alpha" al;
                       render "initial" ini; render "accepting" acc;
                       render "trans" tr] = Ret tt) as ->.
  { unfold check_lines.
    change (bool_decide (length _ = 5)) with true.
    change (getitem _ 0) with (Ret (render "states" sts)).
    change (getitem _ 1) with (Ret (render "alpha" al)).
    change (getitem _ 2) with (Ret (render "initial" ini)).
    change (getitem _ 3) with (Ret (render "accepting" acc)).
    change (getitem _ 4) with (Ret (render "trans" tr)).
    rewrite !bind_Ret_l.
    rewrite (A1Parse.startswith_render "states" sts
             : startswith _ "states=[" = true).
    rewrite A1Parse.assert_true, !bind_Ret_l.
    rewrite (A1Parse.startswith_render "alpha" al
             : startswith _ "alpha=[" = true).
    rewrite A1Parse.assert_true, !bind_Ret_l.
    rewrite (A1Parse.startswith_render "initial" ini
             : startswith _ "initial=[" = true).
    rewrite A1Parse.assert_true, !bind_Ret_l.
    rewrite (A1Parse.startswith_render "accepting" acc
             : startswith _ "accepting=[" = true).
    rewrite A1Parse.assert_true, !bind_Ret_l.
    by rewrite (A1Parse.startswith_render "trans" tr
                : startswith _ "trans=[" = true). }
  rewrite bind_Ret_l.
  change (getitem _ 0) with (Ret (render "states" sts)).
  change (getitem _ 1) with (Ret (render "alpha" al)).
  change (getitem _ 2) with (Ret (render "initial" ini)).
  change (getitem _ 3) with (Ret (render "accepting" acc)).
  change (getitem _ 4) with (Ret (render "trans" tr)).
  rewrite !bind_Ret_l.
  rewrite !A2_items_render by (done || reflexivity).
  rewrite !for_each_assert.
  rewrite (proj2 (A1Parse.forallb_Forall _ sts) Hs), bind_Ret_l.
  rewrite (proj2 (A1Parse.forallb_Forall _ al) Ha), bind_Ret_l.
  rewrite !bool_decide_false by done. simpl negb.
  rewrite !A1Parse.assert_true, !bind_Ret_l.
  by rewrite (proj2 (Nat.leb_le _ _) Hlen).
Qed.

Lemma translator_parse_round_trip_witness :
  parse_lines (input_txt ["q0"; "q1"] ["a"; "b_1"] ["q0"] ["q1"]
                 ["q0>a>q1"; "q1>b_1>q0"])
  = Ret (["q0"; "q1"], ["a"; "b_1"], ["q0"], ["q1"], ["q0>a>q1"; "q1>b_1>q0"]).
Proof.
  apply (translator_parse_round_trip ["q0"; "q1"] ["a"; "b_1"] ["q0"] ["q1"]
           ["q0>a>q1"; "q1>b_1>q0"]).
  - discriminate.
  - discriminate.
  - discriminate.
  - discriminate.
  - repeat constructor.
  - repeat constructor.
  - split; [discriminate | repeat constructor].
  - simpl. lia.
  - split; [discriminate | repeat constructor].
  - split; [discriminate | repeat constructor].
Defined.

(** X19. The translator's [parse_lines] raises nothing but
    [AssertionError], and the lists it returns have at least one state and
    one symbol, at most one initial state, states made of Latin letters
    and digits, and symbols made of them once underscores are removed. *)
Theorem translator_parse_lines_cases (lines : list string) :
  match parse_lines lines with
  | Ret (sts, al, ini, acc, tr) =>
      sts <> [] /\ al <> [] /\ length ini <= 1
      /\ Forall (fun s => isalnum s = true) sts
      /\ Forall (fun a => isalnum (remove_char "_" a) = true) al
  | Raise e => e = AssertionError
  end.
Proof. exact (A2_parse_lines_inv lines). Qed.

(** X20. The translator's own [isalnum] accepts, apart from the empty
    string, only strings that the built-in [str.isalnum] of the validator
    accepts. *)
Theorem isalnum_builtin (s : string) :
  isalnum s = true -> s <> "" -> str_isalnum s = true.
Proof.
  intros H Hne. unfold str_isalnum. apply andb_true_intro. split.
  - by destruct s.
  - clear Hne. unfold isalnum in H. induction s as [|c s IH]; [done|].
    cbn [string_forallb] in *. apply andb_prop in H as [Hc Hs].
    by rewrite (isalnum_char c Hc), IH.
Qed.

Lemma isalnum_builtin_witness : str_isalnum "q0" = true.
Proof. apply (isalnum_builtin "q0"); [reflexivity | discriminate]. Defined.

End A2InputExtra.

(** ** The translator: the graphs and the regular expression *)

Module A2Kleene.
Import Py PyFacts PyStrings A2 A2Facts A2More.

(** The rounds depend on the initial table through the entries with
    indices below [n] only. *)
Lemma R_round_ext (R0 R0' : nat -> nat -> string) (n : nat) :
  (forall i j, i < n -> j < n -> R0 i j = R0' i j) ->
  forall k i j, k <= n -> i < n -> j < n ->
  R_round R0 k i j = R_round R0' k i j.
Proof.
  intros Heq. induction k as [|k IH]; intros i j Hk Hi Hj; simpl.
  - by apply Heq.
  - rewrite !(IH _ _) by lia. done.
Qed.

(** Every round multiplies the length of the entries by four. *)
Lemma R_round_length (R0 : nat -> nat -> string) (k i j : nat) :
  3 * 4 ^ k <= String.length (R_round R0 k i j) + 3.
Proof.
  revert i j. induction k as [|k IH]; intros i j; [simpl; lia|].
  cbn [R_round]. rewrite !length_append. cbn [String.length].
  pose proof (IH i k). pose proof (IH k k). pose proof (IH k j).
  pose proof (IH i j). rewrite Nat.pow_succ_r'. lia.
Qed.

Lemma join_length_head (sep x : string) (l : list string) :
  String.length x <= String.length (join sep (x :: l)).
Proof.
  destruct l as [|y l]; [done|].
  change (join sep (x :: y :: l)) with (x +:+ sep +:+ join sep (y :: l)).
  rewrite length_append. lia.
Qed.

(** The undirected matrix holds every transition in both directions. *)
Lemma usyms_by_id_mirror (d : gmap string nat)
    (T : list (string * string * string)) (i j : nat) :
  usyms_by_id d T i j ≡ₚ syms_by_id d T i j ++ syms_by_id d T j i.
Proof.
  unfold usyms_by_id, syms_by_id.
  induction T as [|[[s1 a] s2] T IH]; [done|]. cbn [flat_map].
  rewrite IH.
  rewrite (decide_ext (d !! s2 = Some i /\ d !! s1 = Some j)
             (d !! s1 = Some j /\ d !! s2 = Some i)) by tauto.
  destruct (decide (d !! s1 = Some i /\ d !! s2 = Some j));
    destruct (decide (d !! s1 = Some j /\ d !! s2 = Some i)); simpl;
    try done.
  - apply Permutation_skip. apply Permutation_middle.
  - apply Permutation_middle.
Qed.

(** The regular expression in closed form. *)
Lemma Kleene_closed_wf limit self i0 rest :
  wf self ->
  validate limit self = Ret "" ->
  initial self = i0 :: rest ->
  Forall (fun f => f ∈ states self) (accepting self) ->
  Kleene limit self
  = Ret (join "|"
           (map (fun f =>
                   "(" +:+ R_round (fun i j => initial_entry (edge_symbols self i j) i j)
                             (n self) (index_of self i0) (index_of self f) +:+ ")")
              (accepting self))).
Proof.
  intros Hwf Hv Hini Hacc.
  destruct (validate_accepts _ _ Hwf Hv) as (Hnd & (i0' & rest' & Hini' & Hi0) & _).
  assert (i0' = i0) as -> by congruence. clear Hini'.
  destruct (Kleene_rounds limit self Hwf Hv Hacc)
    as (R0 & i0' & rest'' & HR0 & Hini' & ->).
  assert (i0' = i0) as -> by congruence. clear Hini'.
  destruct (Kleene_initial_spec self (replicate (n self) (replicate (n self) ""))
              Hwf (square_replicate _ _)) as (R0' & HR0' & _ & Hent).
  assert (R0' = R0) as -> by congruence.
  do 2 f_equal. apply map_ext_in. intros f Hf%list_elem_of_In. do 2 f_equal.
  rewrite Forall_forall in Hacc.
  apply (R_round_ext _ _ (n self)); [|done|..].
  - intros i j Hi Hj. unfold table_fn. rewrite (Hent i j Hi Hj). simpl.
    by rewrite syms_by_id_edge_symbols.
  - rewrite (wf_n _ Hwf). eapply lookup_lt_Some. by apply index_of_lookup.
  - rewrite (wf_n _ Hwf). eapply lookup_lt_Some. apply index_of_lookup; auto.
Qed.

End A2Kleene.

Module A2KleeneExtra.
Import Py PyFacts PyStrings A2 A2Facts A2More A2Kleene.

(** X21. The regular expression: on a constructed instance that
    [validate] accepts and whose accepting states are declared, [Kleene]
    returns the alternation, over the accepting states [f] in their order,
    of the parenthesised entries [R^n[i0][f]], where [R^0[i][j]] is the
    initial entry for the symbols of the transitions from the [i]-th to the
    [j]-th state and
    [R^(k+1)[i][j] = (R^k[i][k])(R^k[k][k])*(R^k[k][j])|(R^k[i][j])].
    This holds whatever depth of recursion the interpreter allows. *)
Theorem Kleene_closed_form limit sts al ini acc tr self i0 rest :
  __init__ sts al ini acc tr = Ret self ->
  validate limit self = Ret "" ->
  initial self = i0 :: rest ->
  Forall (fun f => f ∈ states self) (accepting self) ->
  Kleene limit self
  = Ret (join "|"
           (map (fun f =>
                   "(" +:+ R_round (fun i j => initial_entry (edge_symbols self i j) i j)
                             (n self) (index_of self i0) (index_of self f) +:+ ")")
              (accepting self))).
Proof.
  intros Hinit Hv Hini Hacc. apply init_wf in Hinit as [Hwf _].
  by eapply Kleene_closed_wf.
Qed.

Lemma Kleene_closed_form_witness :
  match __init__ ["A"; "B"] ["a"; "b"] ["A"] ["B"] ["A>a>B"; "B>b>A"] with
  | Ret self =>
      Kleene 1000 self
      = Ret (join "|"
               (map (fun f =>
                       "(" +:+ R_round (fun i j =>
                                    initial_entry (edge_symbols self i j) i j)
                                 (n self) (index_of self "A") (index_of self f)
                       +:+ ")")
                  (accepting self)))
  | Raise _ => False
  end.
Proof.
  assert (H : match __init__ ["A"; "B"] ["a"; "b"] ["A"] ["B"]
                      ["A>a>B"; "B>b>A"] with
              | Ret self => validate 1000 self = Ret ""
              | Raise _ => False
              end) by (vm_compute; reflexivity).
  destruct (__init__ ["A"; "B"] ["a"; "b"] ["A"] ["B"] ["A>a>B"; "B>b>A"])
    as [self|e] eqn:Hinit; [|exact H].
  destruct (init_wf _ _ _ _ _ _ Hinit) as (_ & Hs & _ & Hi & Ha & _).
  apply (Kleene_closed_form 1000 _ _ _ _ _ self "A" [] Hinit H Hi).
  rewrite Ha, Hs. refine (bool_decide_unpack _ _). vm_compute. exact I.
Defined.

(** X22. The regular expression is never simplified: for an automaton of
    [n] states the text that [Kleene] returns is at least [3 * 4^n - 1]
    characters long. *)
Theorem Kleene_length limit sts al ini acc tr self r :
  __init__ sts al ini acc tr = Ret self ->
  validate limit self = Ret "" ->
  Forall (fun f => f ∈ states self) (accepting self) ->
  Kleene limit self = Ret r ->
  3 * 4 ^ n self <= String.length r + 1.
Proof.
  intros Hinit Hv Hacc HK. apply init_wf in Hinit as [Hwf _].
  destruct (validate_accepts _ _ Hwf Hv) as (_ & _ & Hne & _).
  destruct (Kleene_rounds limit self Hwf Hv Hacc)
    as (R0 & i0 & rest & _ & _ & HK').
  rewrite HK' in HK. injection HK as <-.
  destruct (accepting self) as [|f l]; [done|]. cbn [map].
  etrans; [|apply Nat.add_le_mono_r, join_length_head].
  rewrite !length_append. cbn [String.length].
  pose proof (R_round_length (table_fn R0) (n self) (index_of self i0)
                (index_of self f)). lia.
Qed.

Lemma Kleene_length_witness :
  match __init__ ["A"; "B"] ["a"; "b"] ["A"] ["B"] ["A>a>B"; "B>b>A"] with
  | Ret self =>
      match Kleene 1000 self with
      | Ret r => 3 * 4 ^ n self <= String.length r + 1
      | Raise _ => False
      end
  | Raise _ => False
  end.
Proof.
  assert (H : match __init__ ["A"; "B"] ["a"; "b"] ["A"] ["B"]
                      ["A>a>B"; "B>b>A"] with
              | Ret self =>
                  validate 1000 self = Ret ""
                  /\ match Kleene 1000 self with Ret _ => True | Raise _ => False end
              | Raise _ => False
              end) by (vm_compute; auto).
  destruct (__init__ ["A"; "B"] ["a"; "b"] ["A"] ["B"] ["A>a>B"; "B>b>A"])
    as [self|e] eqn:Hinit; [|exact H].
  destruct H as [Hv HK].
  destruct (init_wf _ _ _ _ _ _ Hinit) as (_ & Hs & _ & Hi & Ha & _).
  destruct (Kleene 1000 self) as [r|] eqn:HKr; [|exact HK].
  apply (Kleene_length 1000 _ _ _ _ _ self r Hinit Hv); [|exact HKr].
  rewrite Ha, Hs. refine (bool_decide_unpack _ _). vm_compute. exact I.
Defined.

(** X23. The directed matrix: after the construction, with distinct state
    names, the cell [graph[i][j]] holds the symbols of the transitions from
    the [i]-th to the [j]-th state, in the order of [trans]. *)
Theorem init_graph_cells sts al ini acc tr self i j :
  __init__ sts al ini acc tr = Ret self ->
  NoDup sts -> i < length sts -> j < length sts ->
  entry (graph self) i j = Some (edge_symbols self i j).
Proof.
  intros Hinit Hnd Hi Hj.
  destruct (init_wf _ _ _ _ _ _ Hinit) as (Hwf & Hs & _).
  rewrite <- Hs in Hnd, Hi, Hj. rewrite <- (wf_n _ Hwf) in Hi, Hj.
  rewrite (wf_cells _ Hwf i j Hi Hj). f_equal.
  by apply syms_by_id_edge_symbols.
Qed.

Lemma init_graph_cells_witness :
  match __init__ ["A"; "B"] ["a"; "b"] ["A"] ["B"] ["A>a>B"; "A>b>B"] with
  | Ret self => entry (graph self) 0 1 = Some (edge_symbols self 0 1)
  | Raise _ => False
  end.
Proof.
  assert (H : match __init__ ["A"; "B"] ["a"; "b"] ["A"] ["B"]
                      ["A>a>B"; "A>b>B"] with
              | Ret self => True
              | Raise _ => False
              end) by (vm_compute; exact I).
  destruct (__init__ ["A"; "B"] ["a"; "b"] ["A"] ["B"] ["A>a>B"; "A>b>B"])
    as [self|e] eqn:Hinit; [|exact H].
  apply (init_graph_cells _ _ _ _ _ self 0 1 Hinit).
  - refine (bool_decide_unpack _ _). vm_compute. exact I.
  - simpl. lia.
  - simpl. lia.
Defined.

(** X24. The undirected matrix mirrors the directed one: after the
    construction, the cell [undirected_graph[i][j]] is a rearrangement of
    [graph[i][j]] followed by [graph[j][i]]; on the diagonal every symbol
    of a loop therefore occurs twice. *)
Theorem init_undirected_mirror sts al ini acc tr self i j :
  __init__ sts al ini acc tr = Ret self ->
  i < length sts -> j < length sts ->
  exists u g1 g2,
    entry (undirected_graph self) i j = Some u
    /\ entry (graph self) i j = Some g1
    /\ entry (graph self) j i = Some g2
    /\ u ≡ₚ g1 ++ g2.
Proof.
  intros Hinit Hi Hj.
  destruct (init_wf _ _ _ _ _ _ Hinit) as (Hwf & Hs & _).
  rewrite <- Hs in Hi, Hj. rewrite <- (wf_n _ Hwf) in Hi, Hj.
  eexists _, _, _.
  split; [by apply (wf_ucells _ Hwf)|].
  split; [by apply (wf_cells _ Hwf)|].
  split; [by apply (wf_cells _ Hwf)|].
  apply usyms_by_id_mirror.
Qed.

Lemma init_undirected_mirror_witness :
  match __init__ ["A"; "B"] ["a"; "b"] ["A"] ["B"] ["A>a>B"; "A>b>A"] with
  | Ret self =>
      exists u g1 g2,
        entry (undirected_graph self) 0 0 = Some u
        /\ entry (graph self) 0 0 = Some g1
        /\ entry (graph self) 0 0 = Some g2
        /\ u ≡ₚ g1 ++ g2
  | Raise _ => False
  end.
Proof.
  assert (H : match __init__ ["A"; "B"] ["a"; "b"] ["A"] ["B"]
                      ["A>a>B"; "A>b>A"] with
              | Ret self => True
              | Raise _ => False
              end) by (vm_compute; exact I).
  destruct (__init__ ["A"; "B"] ["a"; "b"] ["A"] ["B"] ["A>a>B"; "A>b>A"])
    as [self|e] eqn:Hinit; [|exact H].
  apply (init_undirected_mirror _ _ _ _ _ self 0 0 Hinit); simpl; lia.
Defined.

(** X25. The two dictionaries of the construction: [id2state] sends
    every index to the state at that index, and [state2id] sends a name to
    the last index at which it is declared. *)
Theorem init_dictionaries sts al ini acc tr self :
  __init__ sts al ini acc tr = Ret self ->
  (forall i, id2state self !! i = sts !! i)
  /\ (forall s i, state2id self !! s = Some i
        <-> sts !! i = Some s /\ forall i', sts !! i' = Some s -> i' <= i).
Proof.
  intros Hinit.
  destruct (init_wf _ _ _ _ _ _ Hinit) as (Hwf & Hs & _).
  split; [intros i; by rewrite (wf_name _ Hwf), Hs|].
  unfold __init__ in Hinit.
  apply bind_Ret in Hinit as (d & Hd & Hinit).
  apply bind_Ret in Hinit as (d' & _ & Hinit).
  apply bind_Ret in Hinit as ([g ug] & _ & [= <-]). simpl. clear Hwf Hs.
  unfold make_state2id in Hd.
  destruct (for_range_total
              (fun k (d : gmap string nat) => forall s i,
                 d !! s = Some i
                 <-> i < k /\ sts !! i = Some s
                     /\ forall i', i' < k -> sts !! i' = Some s -> i' <= i)
              (length sts)
              (fun i d => s ← getitem sts i; Ret (<[s:=i]> d)) ∅)
    as (d2 & Hd2 & Hinv).
  - intros s i. rewrite lookup_empty. split; [done|]. intros [? _]. lia.
  - intros k dk Hk Hdk.
    destruct (lookup_lt_is_Some_2 sts k Hk) as [sk Hsk].
    exists (<[sk:=k]> dk). split.
    { by rewrite (proj2 (getitem_Ret _ _ _) Hsk), bind_Ret_l. }
    intros s i. destruct (decide (s = sk)) as [->|Hne].
    + rewrite lookup_insert_eq. split.
      * intros [= <-]. split; [lia|]. split; [done|]. intros i' Hi' _. lia.
      * intros (Hi & _ & Hlast). f_equal.
        pose proof (Hlast k (Nat.lt_succ_diag_r k) Hsk). lia.
    + rewrite lookup_insert_ne by done. rewrite Hdk. split.
      * intros (Hi & Hsi & Hlast). split; [lia|]. split; [done|].
        intros i' Hi' Hsi'. apply Hlast; [|done].
        destruct (decide (i' = k)) as [->|]; [congruence | lia].
      * intros (Hi & Hsi & Hlast). split; [|split; [done|]].
        -- destruct (decide (i = k)) as [->|]; [congruence | lia].
        -- intros i' Hi' Hsi'. apply Hlast; [lia | done].
  - assert (d2 = d) as -> by congruence. intros s i. rewrite Hinv. split.
    + intros (_ & Hsi & Hlast). split; [done|]. intros i' Hi'.
      apply Hlast; [|done]. by eapply lookup_lt_Some.
    + intros (Hsi & Hlast). split; [by eapply lookup_lt_Some|].
      split; [done|]. intros i' _. apply Hlast.
Qed.

Lemma init_dictionaries_witness :
  match __init__ ["A"; "B"; "A"] ["a"] ["A"] ["B"] ["A>a>B"] with
  | Ret self =>
      (forall i, id2state self !! i = ["A"; "B"; "A"] !! i)
      /\ (forall s i, state2id self !! s = Some i
            <-> ["A"; "B"; "A"] !! i = Some s
                /\ forall i', ["A"; "B"; "A"] !! i' = Some s -> i' <= i)
  | Raise _ => False
  end.
Proof.
  assert (H : match __init__ ["A"; "B"; "A"] ["a"] ["A"] ["B"] ["A>a>B"] with
              | Ret self => True
              | Raise _ => False
              end) by (vm_compute; exact I).
  destruct (__init__ ["A"; "B"; "A"] ["a"] ["A"] ["B"] ["A>a>B"])
    as [self|e] eqn:Hinit; [|exact H].
  exact (init_dictionaries _ _ _ _ _ self Hinit).
Defined.

End A2KleeneExtra.

(** ** The validator: [create_graphs] on any instance, and a second call *)

Module A1Again.
Import Py PyFacts A1 A1Facts A1More.

Lemma extended_snoc (g0 g : gmap string (list (string * string)))
    (add : string -> list (string * string)) (k : string) (x : string * string)
    (add' : string -> list (string * string)) :
  extended g0 add g ->
  (forall s, add' s = add s ++ (if decide (k = s) then [x] else [])) ->
  extended g0 add' (<[k:=default [] (g !! k) ++ [x]]> g).
Proof.
  intros He Hadd s. rewrite Hadd. destruct (decide (k = s)) as [->|Hne].
  - rewrite lookup_insert_eq, (He s).
    destruct (add s) as [|y l]; simpl; [done|].
    by rewrite <- app_assoc.
  - rewrite lookup_insert_ne, app_nil_r by done. apply He.
Qed.

Lemma extended_first_loop sts rest (g0 ug0 : gmap string (list (string * string))) :
  forall E g ug,
  well_formed rest ->
  extended g0 (adj_of E) g -> extended ug0 (uadj_of E) ug ->
  exists g' ug',
    for_each rest (fun el '(g, ug) =>
        '(s1, a, s2) ← split_trans el;
        if bool_decide (s1 ∉ sts) || bool_decide (s2 ∉ sts)
        then Ret (g, ug)
        else
          g ← append_at s1 (s2, a) (ensure_key s1 g);
          ug ← append_at s1 (s2, a) (ensure_key s1 ug);
          ug ← append_at s2 (s1, a) (ensure_key s2 ug);
          Ret (g, ug)) (g, ug) = Ret (g', ug')
    /\ extended g0 (adj_of (E ++ base.filter (declared sts) (triples rest))) g'
    /\ extended ug0 (uadj_of (E ++ base.filter (declared sts) (triples rest))) ug'.
Proof.
  induction rest as [|el rest IH]; intros E g ug Hwf Hg Hug.
  - exists g, ug. simpl. by rewrite app_nil_r.
  - apply Forall_cons in Hwf as [[[[s1 a] s2] Hel] Hwf].
    unfold triples. simpl. fold (triples rest). rewrite Hel.
    unfold triple_of in Hel. destruct (split_trans el) as [t|]; [|done].
    injection Hel as ->. simpl.
    destruct (decide (declared sts (s1, a, s2))) as [[H1 H2]|Hnd]; simpl in *.
    + rewrite filter_cons_True by (by split).
      rewrite (bool_decide_eq_false_2 (s1 ∉ sts)) by auto.
      rewrite (bool_decide_eq_false_2 (s2 ∉ sts)) by auto. simpl.
      repeat (rewrite append_at_ensure; simpl).
      rewrite (cons_middle _ E), app_assoc.
      apply IH; [done| |].
      * eapply extended_snoc; [exact Hg|]. intros s. apply adj_of_snoc.
      * eapply (extended_snoc _ _ (fun s => uadj_of E s
                    ++ (if decide (s1 = s) then [(s2, a)] else []))).
        -- eapply extended_snoc; [exact Hug|]. done.
        -- intros s. by rewrite uadj_of_snoc, app_assoc.
    + rewrite filter_cons_False by done.
      assert (bool_decide (s1 ∉ sts) || bool_decide (s2 ∉ sts) = true) as ->.
      { apply orb_true_iff. rewrite !bool_decide_eq_true.
        destruct (decide (s1 ∈ sts)); [|by left].
        destruct (decide (s2 ∈ sts)); [|by right].
        destruct Hnd. by split. }
      by apply IH.
Qed.

(** [create_graphs] on any instance with well-formed transitions: under
    every key that the dict has already, the edges are appended once more;
    the declared states that are not keys become keys. *)
Lemma create_graphs_general self :
  well_formed (trans self) ->
  exists g ug,
    create_graphs self = Ret (set_graphs self g ug)
    /\ (forall s, g !! s =
          match graph self !! s with
          | Some l => Some (l ++ adj_of (edges self) s)
          | None => if decide (s ∈ states self)
                    then Some (adj_of (edges self) s) else None
          end)
    /\ (forall s, ug !! s =
          match undirected_graph self !! s with
          | Some l => Some (l ++ uadj_of (edges self) s)
          | None => if decide (s ∈ states self)
                    then Some (uadj_of (edges self) s) else None
          end).
Proof.
  intros Hwf. unfold create_graphs.
  destruct (extended_first_loop (states self) (trans self)
              (graph self) (undirected_graph self) []
              (graph self) (undirected_graph self) Hwf)
    as (g1 & ug1 & -> & Hg1 & Hug1); [done..|].
  simpl in Hg1, Hug1. fold (edges self) in Hg1, Hug1. rewrite bind_Ret_l.
  destruct (create_graphs_second_loop (states self) g1 ug1)
    as (g2 & ug2 & -> & Hg2 & Hug2).
  exists g2, ug2. split; [done|].
  split; intros s; [rewrite Hg2, (Hg1 s) | rewrite Hug2, (Hug1 s)].
  - destruct (adj_of (edges self) s) as [|[t a] l] eqn:E.
    + destruct (graph self !! s); [by rewrite app_nil_r | done].
    + simpl. destruct (graph self !! s); [done|]. simpl.
      rewrite decide_True; [done|].
      assert ((t, a) ∈ adj_of (edges self) s) as Hin by (rewrite E; left).
      apply elem_of_adj_of in Hin. unfold edges in Hin.
      apply list_elem_of_filter in Hin as [[H1 _] _]. exact H1.
  - destruct (uadj_of (edges self) s) as [|[t a] l] eqn:E.
    + destruct (undirected_graph self !! s); [by rewrite app_nil_r | done].
    + simpl. destruct (undirected_graph self !! s); [done|]. simpl.
      rewrite decide_True; [done|].
      assert ((t, a) ∈ uadj_of (edges self) s) as Hin by (rewrite E; left).
      apply elem_of_uadj_of in Hin. unfold edges in Hin.
      destruct Hin as [Hin|Hin]; apply list_elem_of_filter in Hin as [[H1 H2] _];
        [exact H1 | exact H2].
Qed.

(** *** [validate] after [create_graphs], whatever graphs it leaves *)

Lemma validate_eq_general limit self (G UG : gmap string (list (string * string))) :
  well_formed (trans self) ->
  check_E1 self = "" ->
  create_graphs self = Ret (set_graphs self G UG) ->
  validate limit self =
  (let self' := set_graphs self G UG in
   e2 ← check_E2 limit self';
   if e2 : bool
   then Ret (("E2: Some states are disjoint", "", []), self')
   else
     let fa := default "" (first_absent (alpha self)
                             ((triples (trans self)).*1.*2)) in
     if truthy fa
     then Ret (("E3: A transition '" +:+ fa
                  +:+ "' is not represented in the alphabet", "", []), self')
     else if check_E4 self
     then Ret (("E4: Initial state is not defined", "", []), self')
     else
       w2 ← check_W2 limit self';
       Ret (("", completion self',
             (if check_W1 self
              then ["W1: Accepting state is not defined"] else [])
             ++ (if w2 : bool
                 then ["W2: Some states are not reachable from the initial state"]
                 else [])
             ++ (if check_W3 self'
                 then ["W3: FSA is nondeterministic"] else [])), self')).
Proof.
  intros Hwf HE1 Hcg.
  unfold validate. rewrite HE1. change (truthy "") with false. cbv iota.
  rewrite Hcg, bind_Ret_l. cbv zeta.
  destruct (check_E2 limit (set_graphs self G UG)) as [e2|e]; [|done].
  rewrite !bind_Ret_l. destruct e2; [done|].
  rewrite (check_E3_first_absent (set_graphs self G UG)) by done.
  rewrite bind_Ret_l.
  change (alpha (set_graphs self G UG)) with (alpha self).
  change (trans (set_graphs self G UG)) with (trans self).
  destruct (truthy _); [done|].
  change (check_E4 (set_graphs self G UG)) with (check_E4 self).
  destruct (check_E4 self); [done|].
  change (check_W1 (set_graphs self G UG)) with (check_W1 self).
  destruct (check_W2 limit (set_graphs self G UG)) as [w2|e]; [|done].
  rewrite !bind_Ret_l.
  by destruct (check_W1 self), w2, (check_W3 (set_graphs self G UG)).
Qed.

(** *** The loop of a traversal *)

(** A loop of the traversal that returns has visited the heads of its
    list. *)
Lemma DFS_loop_visited d self undirected (l : list (string * string)) :
  forall vis vis' : gset string,
  for_each l (fun v visited =>
      if bool_decide (v.1 ∉ visited)
      then DFS d self v.1 visited undirected
      else Ret visited) vis = Ret vis' ->
  vis ⊆ vis' /\ forall v, v ∈ l -> v.1 ∈ vis'.
Proof.
  induction l as [|v l IHl]; intros vis vis'; simpl.
  - intros [= <-]. split; [done|]. intros v Hv. by apply elem_of_nil in Hv.
  - intros (vis1 & Hv & Hrest)%bind_Ret.
    destruct (IHl _ _ Hrest) as (Hsub & Hin).
    assert (vis ⊆ vis1 /\ v.1 ∈ vis1) as [Hsub1 Hv1].
    { case_bool_decide as Hvis.
      - destruct (A1_DFS_closed _ _ _ _ _ _ Hv) as [Hs _]. set_solver.
      - injection Hv as <-. split; [done|]. done. }
    split; [set_solver|].
    intros w [->|Hw]%elem_of_cons; [set_solver | by apply Hin].
Qed.

(** A loop over nodes that are all visited changes nothing. *)
Lemma DFS_loop_idle d self undirected (l : list (string * string))
    (vis : gset string) :
  (forall v, v ∈ l -> v.1 ∈ vis) ->
  for_each l (fun v visited =>
      if bool_decide (v.1 ∉ visited)
      then DFS d self v.1 visited undirected
      else Ret visited) vis = Ret vis.
Proof.
  induction l as [|v l IHl]; intros Hin; simpl; [done|].
  rewrite (bool_decide_eq_false_2 (v.1 ∉ vis)).
  - rewrite bind_Ret_l. apply IHl. intros w Hw. apply Hin. by right.
  - intros Hn. apply Hn, Hin. left.
Qed.

(** *** The graphs after a second call of [create_graphs] *)

Section doubled.
Variable self : FSA_validator.
Variables g2 ug2 : gmap string (list (string * string)).
Hypothesis Hg2 : forall s, g2 !! s =
  if decide (s ∈ states self)
  then Some (adj_of (edges self) s ++ adj_of (edges self) s) else None.
Hypothesis Hug2 : forall s, ug2 !! s =
  if decide (s ∈ states self)
  then Some (uadj_of (edges self) s ++ uadj_of (edges self) s) else None.

(** With every list doubled, a traversal goes as on the graphs with the
    single lists, with the same depth: after the first copy of a list every
    node of the second copy is visited. *)
Lemma doubled_DFS (g ug : gmap string (list (string * string)))
    (undirected : bool) :
  (forall s, g !! s = if decide (s ∈ states self)
                      then Some (adj_of (edges self) s) else None) ->
  (forall s, ug !! s = if decide (s ∈ states self)
                       then Some (uadj_of (edges self) s) else None) ->
  forall d u visited,
    DFS d (set_graphs self g2 ug2) u visited undirected
    = DFS d (set_graphs self g ug) u visited undirected.
Proof.
  intros Hg Hug. induction d as [|d IH]; intros u visited; [done|].
  rewrite !DFS_S.
  assert (Hlk : graph_of (set_graphs self g2 ug2) undirected !! u
                = (fun l => l ++ l)
                    <$> graph_of (set_graphs self g ug) undirected !! u).
  { destruct undirected; simpl; [rewrite Hug2, Hug | rewrite Hg2, Hg];
      by case_decide. }
  unfold getkey. rewrite Hlk.
  destruct (graph_of (set_graphs self g ug) undirected !! u) as [adj|]; [|done].
  simpl. rewrite for_each_app.
  assert (Hbody : forall (l : list (string * string)) (vis : gset string),
    for_each l (fun v visited =>
        if bool_decide (v.1 ∉ visited)
        then DFS d (set_graphs self g2 ug2) v.1 visited undirected
        else Ret visited) vis
    = for_each l (fun v visited =>
        if bool_decide (v.1 ∉ visited)
        then DFS d (set_graphs self g ug) v.1 visited undirected
        else Ret visited) vis).
  { induction l as [|v l IHl]; intros vis; simpl; [done|].
    rewrite IH. destruct (if bool_decide _ then _ else _) as [vis1|e]; simpl;
      [apply IHl | done]. }
  rewrite (Hbody adj).
  destruct (for_each adj _ (visited ∪ {[u]})) as [vis1|e] eqn:Hl; [|done].
  rewrite bind_Ret_l, Hbody.
  apply DFS_loop_idle. by apply (DFS_loop_visited _ _ _ _ _ _ Hl).
Qed.

Lemma doubled_check_E2 (limit : nat)
    (g ug : gmap string (list (string * string))) :
  (forall s, g !! s = if decide (s ∈ states self)
                      then Some (adj_of (edges self) s) else None) ->
  (forall s, ug !! s = if decide (s ∈ states self)
                       then Some (uadj_of (edges self) s) else None) ->
  check_E2 limit (set_graphs self g2 ug2) = check_E2 limit (set_graphs self g ug).
Proof.
  intros Hg Hug. unfold check_E2.
  change (states (set_graphs self g2 ug2)) with (states (set_graphs self g ug)).
  destruct (getitem _ 0) as [s0|e]; [|done].
  rewrite !bind_Ret_l. by rewrite (doubled_DFS g ug true Hg Hug).
Qed.

Lemma doubled_check_W2 (limit : nat)
    (g ug : gmap string (list (string * string))) :
  (forall s, g !! s = if decide (s ∈ states self)
                      then Some (adj_of (edges self) s) else None) ->
  (forall s, ug !! s = if decide (s ∈ states self)
                       then Some (uadj_of (edges self) s) else None) ->
  check_W2 limit (set_graphs self g2 ug2) = check_W2 limit (set_graphs self g ug).
Proof.
  intros Hg Hug. unfold check_W2.
  change (states (set_graphs self g2 ug2)) with (states (set_graphs self g ug)).
  change (init_st (set_graphs self g2 ug2)) with (init_st (set_graphs self g ug)).
  destruct (getitem _ 0) as [s0|e]; [|done].
  rewrite !bind_Ret_l. by rewrite (doubled_DFS g ug false Hg Hug).
Qed.

(** With every list doubled, one edge with a symbol of the alphabet is
    enough for [check_W3]. *)
Lemma doubled_check_W3 :
  check_W3 (set_graphs self g2 ug2) = true
  <-> exists s a, s ∈ states self /\ a ∈ alpha self /\ a ∈ out_symbols self s.
Proof.
  unfold check_W3.
  change (graph (set_graphs self g2 ug2)) with g2.
  change (alpha (set_graphs self g2 ug2)) with (alpha self).
  rewrite existsb_exists. split.
  - intros ([u adj] & Hin & Hex).
    apply list_elem_of_In, elem_of_map_to_list in Hin.
    rewrite Hg2 in Hin. destruct (decide (u ∈ states self)); [|done].
    injection Hin as <-.
    apply existsb_exists in Hex as (a & Ha%list_elem_of_In & Hc%Nat.ltb_lt).
    exists u, a. split; [done|]. split; [done|].
    rewrite fmap_app, count_occ_app in Hc. unfold out_symbols.
    apply list_elem_of_In, (count_occ_In string_dec). lia.
  - intros (s & a & Hs & Ha & Hout).
    exists (s, adj_of (edges self) s ++ adj_of (edges self) s). split.
    + apply list_elem_of_In, elem_of_map_to_list. by rewrite Hg2, decide_True.
    + apply existsb_exists. exists a. split; [by apply list_elem_of_In|].
      apply Nat.ltb_lt. rewrite fmap_app, count_occ_app.
      apply list_elem_of_In, (count_occ_In string_dec) in Hout.
      unfold out_symbols in Hout. lia.
Qed.

(** The classification looks at the sets of symbols only. *)
Lemma doubled_completion (g ug : gmap string (list (string * string))) :
  (forall s, g !! s = if decide (s ∈ states self)
                      then Some (adj_of (edges self) s) else None) ->
  completion (set_graphs self g2 ug2) = completion (set_graphs self g ug).
Proof.
  intros Hg. unfold completion.
  change (graph (set_graphs self g2 ug2)) with g2.
  change (graph (set_graphs self g ug)) with g.
  change (alpha (set_graphs self g2 ug2)) with (alpha self).
  change (alpha (set_graphs self g ug)) with (alpha self).
  match goal with
  | |- (if ?b1 then _ else _) = (if ?b2 then _ else _) =>
      assert (b1 = b2) as ->; [|done]
  end.
  apply eq_true_iff_eq. rewrite !existsb_exists.
  assert (Hset : forall A : list (string * string),
            list_to_set (C:=gset string) ((A ++ A).*2) = list_to_set (A.*2)).
  { intros A. apply set_eq. intros x.
    rewrite !elem_of_list_to_set, fmap_app, elem_of_app. tauto. }
  split.
  - intros ([u adj] & Hin & Hf).
    apply list_elem_of_In, elem_of_map_to_list in Hin.
    rewrite Hg2 in Hin. destruct (decide (u ∈ states self)) as [Hu|]; [|done].
    injection Hin as <-. exists (u, adj_of (edges self) u). split.
    + apply list_elem_of_In, elem_of_map_to_list. by rewrite Hg, decide_True.
    + by rewrite Hset in Hf.
  - intros ([u adj] & Hin & Hf).
    apply list_elem_of_In, elem_of_map_to_list in Hin.
    rewrite Hg in Hin. destruct (decide (u ∈ states self)) as [Hu|]; [|done].
    injection Hin as <-.
    exists (u, adj_of (edges self) u ++ adj_of (edges self) u). split.
    + apply list_elem_of_In, elem_of_map_to_list. by rewrite Hg2, decide_True.
    + by rewrite Hset.
Qed.

End doubled.

End A1Again.

Module A1AgainExtra.
Import Py PyFacts A1 A1Facts A1More A1Again.

(** X26. [create_graphs] on any instance whose transition tokens are well
    formed: it returns; under every key the dict has already, the edges
    leaving that state (to declared states, in the order of [trans]) are
    appended to the list that is there; every declared state that is not
    yet a key becomes one, with the list of its edges; transitions with an
    undeclared state are dropped.  The undirected dict receives every edge
    under both of its states.  On a fresh instance the lists are the edges;
    on a second call they are doubled. *)
Theorem create_graphs_any self :
  well_formed (trans self) ->
  exists g ug,
    create_graphs self = Ret (set_graphs self g ug)
    /\ (forall s, g !! s =
          match graph self !! s with
          | Some l => Some (l ++ adj_of (edges self) s)
          | None => if decide (s ∈ states self)
                    then Some (adj_of (edges self) s) else None
          end)
    /\ (forall s, ug !! s =
          match undirected_graph self !! s with
          | Some l => Some (l ++ uadj_of (edges self) s)
          | None => if decide (s ∈ states self)
                    then Some (uadj_of (edges self) s) else None
          end).
Proof. exact (create_graphs_general self). Qed.

Lemma create_graphs_any_witness :
  exists g ug,
    create_graphs (__init__ ["A"; "B"] ["a"] ["A"] ["B"] ["A>a>B"; "A>a>C"])
    = Ret (set_graphs (__init__ ["A"; "B"] ["a"] ["A"] ["B"] ["A>a>B"; "A>a>C"])
             g ug)
    /\ (forall s, g !! s =
          if decide (s ∈ ["A"; "B"])
          then Some (adj_of (edges (__init__ ["A"; "B"] ["a"] ["A"] ["B"]
                                      ["A>a>B"; "A>a>C"])) s)
          else None)
    /\ (forall s, ug !! s =
          if decide (s ∈ ["A"; "B"])
          then Some (uadj_of (edges (__init__ ["A"; "B"] ["a"] ["A"] ["B"]
                                       ["A>a>B"; "A>a>C"])) s)
          else None).
Proof.
  apply (create_graphs_any
           (__init__ ["A"; "B"] ["a"] ["A"] ["B"] ["A>a>B"; "A>a>C"])).
  refine (bool_decide_unpack _ _). vm_compute. exact I.
Defined.

(** X27. A second call of [validate] on the same object, with the same
    depth of recursion allowed: when the first call on a fresh instance
    accepts, the second call accepts too, with the same classification and
    the same warnings W1 and W2, but it reports
    "W3: FSA is nondeterministic" as soon as some declared state has an
    outgoing edge whose symbol is in the alphabet, because [create_graphs]
    has entered every edge a second time. *)
Theorem validate_second_call limit self c w self1 :
  graph self = ∅ -> undirected_graph self = ∅ ->
  validate limit self = Ret (("", c, w), self1) ->
  exists w' self2,
    validate limit self1 = Ret (("", c, w'), self2)
    /\ ("W3: FSA is nondeterministic" ∈ w'
        <-> exists s a, s ∈ states self /\ a ∈ alpha self
              /\ a ∈ out_symbols self s)
    /\ (forall x, x <> "W3: FSA is nondeterministic" -> x ∈ w' <-> x ∈ w).
Proof.
  intros Hg0 Hug0 Hval.
  destruct (validate_accept_inv limit self c w self1 Hg0 Hug0 Hval)
    as (Hwf & HE1 & s0 & Hs0).
  destruct (create_graphs_fresh self Hg0 Hug0 Hwf) as (g & ug & Hcg & Hg & Hug).
  rewrite (validate_eq_general limit self g ug Hwf HE1 Hcg) in Hval.
  cbv zeta in Hval.
  destruct (check_E2 limit (set_graphs self g ug)) as [e2|] eqn:HE2;
    [|discriminate].
  rewrite bind_Ret_l in Hval. destruct e2; [discriminate|].
  destruct (truthy _) eqn:Hfa; [discriminate|].
  destruct (check_E4 self) eqn:HE4; [discriminate|].
  destruct (check_W2 limit (set_graphs self g ug)) as [w2|] eqn:HW2;
    [|discriminate].
  rewrite bind_Ret_l in Hval. injection Hval as <- <- <-.
  destruct (create_graphs_general (set_graphs self g ug) Hwf)
    as (g2 & ug2 & Hcg2 & Hg2 & Hug2).
  change (set_graphs (set_graphs self g ug) g2 ug2) with (set_graphs self g2 ug2)
    in Hcg2.
  assert (Hg2' : forall s, g2 !! s =
            if decide (s ∈ states self)
            then Some (adj_of (edges self) s ++ adj_of (edges self) s) else None).
  { intros s. rewrite Hg2. change (graph (set_graphs self g ug)) with g.
    change (states (set_graphs self g ug)) with (states self).
    change (edges (set_graphs self g ug)) with (edges self).
    rewrite Hg. by destruct (decide (s ∈ states self)). }
  assert (Hug2' : forall s, ug2 !! s =
            if decide (s ∈ states self)
            then Some (uadj_of (edges self) s ++ uadj_of (edges self) s) else None).
  { intros s. rewrite Hug2. change (undirected_graph (set_graphs self g ug)) with ug.
    change (states (set_graphs self g ug)) with (states self).
    change (edges (set_graphs self g ug)) with (edges self).
    rewrite Hug. by destruct (decide (s ∈ states self)). }
  clear Hg2 Hug2.
  rewrite (validate_eq_general limit (set_graphs self g ug) g2 ug2 Hwf HE1 Hcg2).
  cbv zeta.
  change (alpha (set_graphs self g ug)) with (alpha self).
  change (trans (set_graphs self g ug)) with (trans self).
  change (check_E4 (set_graphs self g ug)) with (check_E4 self).
  change (check_W1 (set_graphs self g ug)) with (check_W1 self).
  change (set_graphs (set_graphs self g ug) g2 ug2) with (set_graphs self g2 ug2).
  rewrite (doubled_check_E2 self g2 ug2 Hg2' Hug2' limit g ug Hg Hug), HE2.
  rewrite bind_Ret_l. cbv iota. rewrite Hfa, HE4.
  rewrite (doubled_check_W2 self g2 ug2 Hg2' Hug2' limit g ug Hg Hug), HW2.
  rewrite bind_Ret_l.
  rewrite (doubled_completion self g2 ug2 Hg2' g ug Hg).
  eexists _, _. split; [reflexivity|]. split.
  - rewrite warnings_W3. exact (doubled_check_W3 self g2 ug2 Hg2').
  - intros x Hx. rewrite !elem_of_app.
    destruct (check_W3 (set_graphs self g2 ug2)),
             (check_W3 (set_graphs self g ug));
      rewrite ?list_elem_of_singleton, ?elem_of_nil; tauto.
Qed.

Lemma validate_second_call_witness :
  match validate 1000 (__init__ ["A"] ["a"] ["A"] ["A"] ["A>a>A"]) with
  | Ret ((_, c, w), self1) =>
      exists w' self2,
        validate 1000 self1 = Ret (("", c, w'), self2)
        /\ ("W3: FSA is nondeterministic" ∈ w'
            <-> exists s a, s ∈ ["A"] /\ a ∈ ["a"]
                  /\ a ∈ out_symbols (__init__ ["A"] ["a"] ["A"] ["A"] ["A>a>A"]) s)
        /\ (forall x, x <> "W3: FSA is nondeterministic" -> x ∈ w' <-> x ∈ w)
  | Raise _ => False
  end.
Proof.
  assert (match validate 1000 (__init__ ["A"] ["a"] ["A"] ["A"] ["A>a>A"]) with
          | Ret ((e, _, _), _) => e = ""
          | Raise _ => False
          end) as He by (vm_compute; reflexivity).
  destruct (validate 1000 (__init__ ["A"] ["a"] ["A"] ["A"] ["A>a>A"]))
    as [[[[e c] w] self1]|] eqn:Hv; [|done].
  subst e.
  exact (validate_second_call 1000 (__init__ ["A"] ["a"] ["A"] ["A"] ["A>a>A"])
           c w self1 eq_refl eq_refl Hv).
Defined.

End A1AgainExtra.

(** ** The two programs from the input to the output *)

Module EndToEnd.
Import Py PyFacts.

(** X28. The validator, from the file to the report: when the input parses
    to an automaton with well-formed transitions, distinct states, an
    alphabet without repetition, declared initial and accepting states (at
    least one of each), transition symbols from the alphabet, every state
    reachable from the first initial state, no two edges from one state
    with one symbol, and an edge from every state for exactly the symbols
    of the alphabet, and the interpreter allows more nested calls of the
    traversal than there are states, [main] writes "FSA is complete" and no
    warning. *)
Theorem main_complete_dfa limit fsa sts al ini fin tr i0 rest :
  A1.parse_lines fsa = Ret (sts, al, ini, fin, tr) ->
  length sts < limit ->
  well_formed tr -> NoDup sts -> NoDup al ->
  ini = i0 :: rest -> fin <> [] ->
  (forall x, x ∈ ini ++ fin -> x ∈ sts) ->
  (forall t, t ∈ triples tr -> t.1.2 ∈ al) ->
  (forall s, s ∈ sts -> rtc (A1.edge_to (A1.__init__ sts al ini fin tr)) i0 s) ->
  ~ A1.two_edges_one_symbol (A1.__init__ sts al ini fin tr) ->
  A1.covers_alphabet (A1.__init__ sts al ini fin tr) ->
  A1.main limit fsa = Ret ("FSA is complete" +:+ nl).
Proof.
  intros Hparse Hlim Hwf Hnd Hnda Hini Hfin Hdecl Hsym Hreach Hdet Hcov.
  set (self := A1.__init__ sts al ini fin tr) in *.
  pose proof (A1Parse.parse_lines_inv fsa) as Hp. rewrite Hparse in Hp.
  destruct Hp as (Hne & _).
  assert (exists s0, head (A1.states self) = Some s0 /\ s0 ∈ A1.states self)
    as (s0 & Hs0 & Hs0in).
  { simpl. clear -Hne. destruct sts as [|s0 ?]; [done|]. exists s0.
    split; [done | left]. }
  assert (HE1 : A1.check_E1 self = "").
  { rewrite A1Facts.check_E1_first_absent.
    change (first_absent (A1.states self) (A1.init_st self ++ A1.fin_st self))
      with (first_absent sts (ini ++ fin)).
    by rewrite (proj2 (first_absent_None _ _) Hdecl). }
  destruct (A1More.validate_fresh_eq limit self s0 eq_refl eq_refl Hwf HE1 Hs0)
    as (g & ug & vis & Hg & Hug & Hvis & [Hv|[_ Hlim']]); [|simpl in Hlim'; lia].
  assert (Hi0 : i0 ∈ A1.states self).
  { apply Hdecl. rewrite Hini. left. }
  assert (Hlink : forall s, s ∈ A1.states self -> rtc (A1.linked self) i0 s).
  { intros s Hs. eapply rtc_subrel; [|exact (Hreach s Hs)].
    intros x y [a Ha]. exists a. by left. }
  assert (Hsz : size vis =? length (A1.states self) = true).
  { apply Nat.eqb_eq, A1More.size_visited_all.
    - intros x Hx%Hvis.
      eapply A1Facts.rtc_linked_states; [exact Hs0in | exact Hx].
    - split; [done|]. intros s Hs. apply Hvis.
      etrans; [|exact (Hlink s Hs)].
      apply rtc_sym; [apply A1Facts.linked_sym|]. by apply Hlink. }
  destruct (A1More.check_W2_built limit self g ug i0 Hg Hug)
    as (vis2 & Hvis2 & [HW2|[_ Hlim']]);
    [simpl; by rewrite Hini | done | | simpl in Hlim'; lia].
  assert (Hsz2 : size vis2 =? length (A1.states self) = true).
  { apply Nat.eqb_eq, A1More.size_visited_all.
    - intros x Hx%Hvis2. by apply (A1More.rtc_step_states self false i0 x).
    - split; [done|]. intros s Hs. by apply Hvis2, Hreach. }
  assert (HW3 : A1.check_W3 (A1.set_graphs self g ug) = false).
  { destruct (A1.check_W3 _) eqn:E; [|done]. destruct Hdet.
    by apply (A1More.check_W3_exact self g ug Hg). }
  assert (Hc : A1.completion (A1.set_graphs self g ug) = "FSA is complete").
  { apply A1Facts.completion_complete; [done..| |done].
    intros t Ht. apply Hsym. unfold A1.edges in Ht.
    by apply list_elem_of_filter in Ht as [_ ?]. }
  unfold A1.main. rewrite Hparse. fold self. rewrite Hv. cbv zeta.
  rewrite Hsz. simpl negb. cbv iota.
  assert (first_absent (A1.alpha self) ((triples (A1.trans self)).*1.*2) = None)
    as ->.
  { apply first_absent_None. intros x Hx.
    apply list_elem_of_fmap in Hx as (p & -> & Hp).
    apply list_elem_of_fmap in Hp as (t & -> & Ht). by apply Hsym. }
  simpl default. change (truthy "") with false. cbv iota.
  assert (A1.check_E4 self = false) as ->.
  { unfold A1.check_E4. simpl. by rewrite Hini. }
  assert (A1.check_W1 self = false) as ->.
  { unfold A1.check_W1. simpl. by destruct fin. }
  rewrite HW2, Hsz2, bind_Ret_l, HW3, Hc. reflexivity.
Qed.

Lemma main_complete_dfa_witness :
  A1.main 1000
    ["states=[A,B,C]"; "alpha=[a]"; "init.st=[A]"; "fin.st=[C]";
     "trans=[A>a>B,B>a>C,C>a>A]"]
  = Ret ("FSA is complete" +:+ nl).
Proof.
  apply (main_complete_dfa 1000
           ["states=[A,B,C]"; "alpha=[a]"; "init.st=[A]"; "fin.st=[C]";
            "trans=[A>a>B,B>a>C,C>a>A]"]
           ["A"; "B"; "C"] ["a"] ["A"] ["C"] ["A>a>B"; "B>a>C"; "C>a>A"] "A" []).
  - vm_compute. reflexivity.
  - simpl. lia.
  - refine (bool_decide_unpack _ _). vm_compute. exact I.
  - refine (bool_decide_unpack _ _). vm_compute. exact I.
  - refine (bool_decide_unpack _ _). vm_compute. exact I.
  - reflexivity.
  - discriminate.
  - apply Forall_forall. refine (bool_decide_unpack _ _). vm_compute. exact I.
  - apply Forall_forall. refine (bool_decide_unpack _ _). vm_compute. exact I.
  - assert (HAB : A1.edge_to (A1.__init__ ["A"; "B"; "C"] ["a"] ["A"] ["C"]
                                ["A>a>B"; "B>a>C"; "C>a>A"]) "A" "B").
    { exists "a". refine (bool_decide_unpack _ _). vm_compute. exact I. }
    assert (HBC : A1.edge_to (A1.__init__ ["A"; "B"; "C"] ["a"] ["A"] ["C"]
                                ["A>a>B"; "B>a>C"; "C>a>A"]) "B" "C").
    { exists "a". refine (bool_decide_unpack _ _). vm_compute. exact I. }
    intros s Hs. repeat (apply elem_of_cons in Hs as [->|Hs]).
    + apply rtc_refl.
    + by apply rtc_once.
    + eapply rtc_l; [exact HAB|]. by apply rtc_once.
    + by apply elem_of_nil in Hs.
  - intros (s & a & Hs & Ha & Hc).
    apply list_elem_of_singleton in Ha as ->.
    repeat (apply elem_of_cons in Hs as [->|Hs]);
      [vm_compute in Hc; lia.. | by apply elem_of_nil in Hs].
  - intros s Hs a.
    repeat (apply elem_of_cons in Hs as [->|Hs]);
      [change (A1.out_symbols _ _) with ["a"]; reflexivity..
      | by apply elem_of_nil in Hs].
Defined.

(** X29. The translator, from the file to the regular expression: when
    the input parses and the constructor returns an automaton with
    distinct states, declared initial and accepting states (at least one
    accepting), transition symbols from the alphabet, every state linked to
    the initial state and no state with two transitions on one symbol, and
    the interpreter allows more nested calls of the traversal than there
    are states, [main] prints the alternation of the entries [R^n[i0][f]]
    of Kleene's recurrence for the accepting states [f]. *)
Theorem translator_main_regex limit input sts al ini acc tr i0 rest self :
  A2.parse_lines input = Ret (sts, al, ini, acc, tr) ->
  A2.__init__ sts al ini acc tr = Ret self ->
  length sts < limit ->
  NoDup sts -> ini = i0 :: rest -> acc <> [] ->
  (forall x, x ∈ ini ++ acc -> x ∈ sts) ->
  (forall t, t ∈ triples tr -> t.1.2 ∈ al) ->
  A2.all_linked self i0 ->
  ~ A2.nondeterministic self ->
  A2.main limit input
  = Ret (join "|"
           (map (fun f =>
                   "(" +:+ A2.R_round
                             (fun i j => A2.initial_entry (A2.edge_symbols self i j) i j)
                             (length sts) (A2.index_of self i0) (A2.index_of self f)
                   +:+ ")")
              acc)).
Proof.
  intros Hparse Hinit Hlim Hnd Hini Hacc Hdecl Hsym Hall Hdet.
  destruct (A2Facts.init_wf _ _ _ _ _ _ Hinit) as (Hwf & Hs & Hal & Hi & Ha & Htr).
  assert (Hv : A2.validate limit self = Ret "").
  { apply (A2More.validate_complete_wf limit self i0 rest Hwf); try done.
    - by rewrite Hs.
    - by rewrite Hi.
    - by rewrite Ha.
    - by rewrite Hi, Ha, Hs.
    - by rewrite Htr, Hal.
    - by rewrite Hs. }
  unfold A2.main. rewrite Hparse, bind_Ret_l, Hinit, bind_Ret_l.
  rewrite (A2Kleene.Kleene_closed_wf limit self i0 rest Hwf Hv).
  - by rewrite Ha, (A2.wf_n _ Hwf), Hs.
  - by rewrite Hi.
  - rewrite Ha, Hs. apply Forall_forall. intros f Hf. apply Hdecl.
    apply elem_of_app. by right.
Qed.

Lemma translator_main_regex_witness :
  match A2.__init__ ["A"; "B"] ["a"; "b"] ["A"] ["B"] ["A>a>B"; "B>b>A"] with
  | Ret self =>
      A2.main 1000
        ["states=[A,B]"; "alpha=[a,b]"; "initial=[A]"; "accepting=[B]";
         "trans=[A>a>B,B>b>A]"]
      = Ret (join "|"
               (map (fun f =>
                       "(" +:+ A2.R_round
                                 (fun i j =>
                                    A2.initial_entry (A2.edge_symbols self i j) i j)
                                 (length ["A"; "B"]) (A2.index_of self "A")
                                 (A2.index_of self f)
                       +:+ ")")
                  ["B"]))
  | Raise _ => False
  end.
Proof.
  assert (H : match A2.__init__ ["A"; "B"] ["a"; "b"] ["A"] ["B"]
                      ["A>a>B"; "B>b>A"] with
              | Ret self => True
              | Raise _ => False
              end) by (vm_compute; exact I).
  destruct (A2.__init__ ["A"; "B"] ["a"; "b"] ["A"] ["B"] ["A>a>B"; "B>b>A"])
    as [self|e] eqn:Hinit; [|exact H].
  destruct (A2Facts.init_wf _ _ _ _ _ _ Hinit) as (_ & Hs & Hal & Hi & Ha & Htr).
  apply (translator_main_regex 1000
           ["states=[A,B]"; "alpha=[a,b]"; "initial=[A]"; "accepting=[B]";
            "trans=[A>a>B,B>b>A]"]
           ["A"; "B"] ["a"; "b"] ["A"] ["B"] ["A>a>B"; "B>b>A"] "A" [] self).
  - vm_compute. reflexivity.
  - exact Hinit.
  - simpl. lia.
  - refine (bool_decide_unpack _ _). vm_compute. exact I.
  - reflexivity.
  - discriminate.
  - apply Forall_forall. refine (bool_decide_unpack _ _). vm_compute. exact I.
  - apply Forall_forall. refine (bool_decide_unpack _ _). vm_compute. exact I.
  - intros s. rewrite Hs. intros [->|Hs']%elem_of_cons; [apply rtc_refl|].
    apply list_elem_of_singleton in Hs' as ->. apply rtc_once.
    exists "a". left. rewrite Htr.
    refine (bool_decide_unpack _ _). vm_compute. exact I.
  - intros (s & a & Hlen). rewrite Htr in Hlen.
    change (triples ["A>a>B"; "B>b>A"]) with [("A", "a", "B"); ("B", "b", "A")] in Hlen.
    rewrite !filter_cons, filter_nil in Hlen.
    repeat (destruct (decide _) in Hlen); simpl in *; try lia; intuition congruence.
Defined.

End EndToEnd.
